(** * Collection scanner: scan transactions and the directory walker

    A shallow embedding of [CollectionWatcher] (src/collection/collectionwatcher.cpp)
    and of the parts of [Song] (src/core/song.cpp) that the scanner reads and
    writes.  The file system, the tag reader, the cue parser, the image
    decoder and the collection backend are collaborators of the scanner; they
    are gathered in the record [World] and every function below is a function
    of that record.  What the scanner does to the outside (signals, progress
    updates, watches, blocking reads) is appended to a trace of [Effect]s. *)

From Stdlib Require Import ZArith String Ascii List Bool Lia.
From stdpp Require Import base gmap strings list fin_maps sorting.

Local Open Scope string_scope.
Local Open Scope list_scope.
Local Open Scope Z_scope.

(* ===================================================================== *)
(** ** Machine integers *)

(** [int]: 32-bit two's complement.  Arithmetic on [int] is written with
    [wrap_int] around the mathematical result. *)
Definition wrap_int (z : Z) : Z := (z + 2 ^ 31) mod 2 ^ 32 - 2 ^ 31.

(** Conversion to [uint] (32-bit unsigned), as in an [int]/[uint] comparison. *)
Definition to_uint (z : Z) : Z := z mod 2 ^ 32.

(** [qint64] arithmetic. *)
Definition wrap_int64 (z : Z) : Z := (z + 2 ^ 63) mod 2 ^ 64 - 2 ^ 63.

Definition qMax (a b : Z) : Z := if a <? b then b else a.

(* ===================================================================== *)
(** ** Qt value types *)

(** A [QString] is a [string]; only code units below 128 take part in the
    case folding of [toLower]. *)
Abbreviation QString := string.
Abbreviation QStringList := (list string).

Definition isEmpty (s : QString) : bool := String.eqb s EmptyString.

Fixpoint lastIndexOf_from (c : ascii) (s : QString) (i : Z) (found : Z) : Z :=
  match s with
  | EmptyString => found
  | String a s' => lastIndexOf_from c s' (i + 1) (if Ascii.eqb a c then i else found)
  end.

(** [QString::lastIndexOf(QChar)]: -1 when the character does not occur. *)
Definition lastIndexOf (c : ascii) (s : QString) : Z := lastIndexOf_from c s 0 (-1).

(** [QString::left(n)]: the whole string when [n] is negative or not smaller
    than the size. *)
Definition left (n : Z) (s : QString) : QString :=
  if (n <? 0) || (Z.of_nat (String.length s) <=? n) then s
  else substring 0 (Z.to_nat n) s.

(** [QString::mid(pos)] for [0 <= pos]. *)
Definition mid (pos : Z) (s : QString) : QString :=
  substring (Z.to_nat pos) (String.length s - Z.to_nat pos)%nat s.

Definition contains_char (c : ascii) (s : QString) : bool := 0 <=? lastIndexOf c s.

(** [s.section('/', 0, -2)]: the fields before the last separator, joined
    again; empty when there is a single field. *)
Definition section_dir (s : QString) : QString :=
  if contains_char "/" s then left (lastIndexOf "/" s) s else EmptyString.

(** [QFileInfo(path).fileName()]: what follows the last slash. *)
Definition fileName (path : QString) : QString := mid (lastIndexOf "/" path + 1) path.

Definition toLower_ascii (a : ascii) : ascii :=
  let n := nat_of_ascii a in
  if (65 <=? n)%nat && (n <=? 90)%nat then ascii_of_nat (n + 32) else a.

Fixpoint toLower (s : QString) : QString :=
  match s with
  | EmptyString => EmptyString
  | String a s' => String (toLower_ascii a) (toLower s')
  end.

Fixpoint contains_cs (needle hay : QString) : bool :=
  String.prefix needle hay ||
  match hay with
  | EmptyString => false
  | String _ hay' => contains_cs needle hay'
  end.

(** [s.startsWith(p)]. *)
Definition startsWith (s p : QString) : bool := String.prefix p s.

(** [QStringList::contains]. *)
Definition list_contains (l : QStringList) (x : QString) : bool :=
  existsb (String.eqb x) l.

(** [QDateTime]: [None] is the invalid date-time, [Some s] the instant [s]
    seconds after the epoch. *)
Definition QDateTime := option Z.

(** [QDateTime::toTime_t()]: [uint(-1)] for an invalid date-time and for one
    outside the [uint] range. *)
Definition toTime_t (d : QDateTime) : Z :=
  match d with
  | None => 2 ^ 32 - 1
  | Some s => if (0 <=? s) && (s <? 2 ^ 32 - 1) then s else 2 ^ 32 - 1
  end.

(** [QUrl]: every URL the scanner handles is built by [QUrl::fromLocalFile]
    and read back with [toLocalFile] or [path]; it is represented by that
    path, and the empty URL by the empty path. *)
Record QUrl : Type := fromLocalFile { toLocalFile : QString }.

Definition QUrl_empty : QUrl := fromLocalFile EmptyString.
Definition QUrl_isEmpty (u : QUrl) : bool := isEmpty (toLocalFile u).
Definition QUrl_eqb (a b : QUrl) : bool := String.eqb (toLocalFile a) (toLocalFile b).

(* ===================================================================== *)
(** ** Songs (src/core/song.cpp) *)

Module Song.

Inductive Source : Type :=
| Source_Unknown | Source_LocalFile | Source_Collection | Source_CDDA | Source_Device
| Source_Stream | Source_Tidal | Source_Subsonic | Source_Qobuz.

(** [Song::Private], restricted to the members that the scanner, [operator==]
    and [IsMetadataEqual] read or write. *)
Record t : Type := Build {
  valid_ : bool;
  id_ : Z;
  title_ : QString;
  album_ : QString;
  artist_ : QString;
  albumartist_ : QString;
  track_ : Z;
  disc_ : Z;
  year_ : Z;
  originalyear_ : Z;
  genre_ : QString;
  compilation_ : bool;
  composer_ : QString;
  performer_ : QString;
  grouping_ : QString;
  comment_ : QString;
  lyrics_ : QString;
  artist_id_ : Z;
  album_id_ : QString;
  song_id_ : Z;
  beginning_ : Z;
  end_ : Z;
  bitrate_ : Z;
  samplerate_ : Z;
  bitdepth_ : Z;
  source_ : Source;
  directory_id_ : Z;
  url_ : QUrl;
  mtime_ : Z;
  unavailable_ : bool;
  playcount_ : Z;
  skipcount_ : Z;
  lastplayed_ : Z;
  art_automatic_ : QUrl;
  art_manual_ : QUrl;
  cue_path_ : QString
}.

(* Song::Private::Private(Source) *)
Definition Song (source : Source) : t :=
  {| valid_ := false; id_ := (-1); title_ := EmptyString; album_ := EmptyString; artist_ :=
     EmptyString; albumartist_ := EmptyString; track_ := (-1); disc_ := (-1); year_ := (-1);
     originalyear_ := (-1); genre_ := EmptyString; compilation_ := false; composer_ :=
     EmptyString; performer_ := EmptyString; grouping_ := EmptyString; comment_ := EmptyString;
     lyrics_ := EmptyString; artist_id_ := (-1); album_id_ := EmptyString; song_id_ := (-1);
     beginning_ := 0; end_ := (-1); bitrate_ := (-1); samplerate_ := (-1); bitdepth_ := (-1);
     source_ := source; directory_id_ := (-1); url_ := QUrl_empty; mtime_ := (-1); unavailable_
     := false; playcount_ := 0; skipcount_ := 0; lastplayed_ := (-1); art_automatic_ :=
     QUrl_empty; art_manual_ := QUrl_empty; cue_path_ := EmptyString |}.

Definition set_id (v : Z) (s : t) : t :=
  {| valid_ := valid_ s; id_ := v; title_ := title_ s; album_ := album_ s; artist_ := artist_ s;
     albumartist_ := albumartist_ s; track_ := track_ s; disc_ := disc_ s; year_ := year_ s;
     originalyear_ := originalyear_ s; genre_ := genre_ s; compilation_ := compilation_ s;
     composer_ := composer_ s; performer_ := performer_ s; grouping_ := grouping_ s; comment_ :=
     comment_ s; lyrics_ := lyrics_ s; artist_id_ := artist_id_ s; album_id_ := album_id_ s;
     song_id_ := song_id_ s; beginning_ := beginning_ s; end_ := end_ s; bitrate_ := bitrate_ s;
     samplerate_ := samplerate_ s; bitdepth_ := bitdepth_ s; source_ := source_ s; directory_id_
     := directory_id_ s; url_ := url_ s; mtime_ := mtime_ s; unavailable_ := unavailable_ s;
     playcount_ := playcount_ s; skipcount_ := skipcount_ s; lastplayed_ := lastplayed_ s;
     art_automatic_ := art_automatic_ s; art_manual_ := art_manual_ s; cue_path_ := cue_path_ s |}.

Definition set_source (v : Source) (s : t) : t :=
  {| valid_ := valid_ s; id_ := id_ s; title_ := title_ s; album_ := album_ s; artist_ := artist_
     s; albumartist_ := albumartist_ s; track_ := track_ s; disc_ := disc_ s; year_ := year_ s;
     originalyear_ := originalyear_ s; genre_ := genre_ s; compilation_ := compilation_ s;
     composer_ := composer_ s; performer_ := performer_ s; grouping_ := grouping_ s; comment_ :=
     comment_ s; lyrics_ := lyrics_ s; artist_id_ := artist_id_ s; album_id_ := album_id_ s;
     song_id_ := song_id_ s; beginning_ := beginning_ s; end_ := end_ s; bitrate_ := bitrate_ s;
     samplerate_ := samplerate_ s; bitdepth_ := bitdepth_ s; source_ := v; directory_id_ :=
     directory_id_ s; url_ := url_ s; mtime_ := mtime_ s; unavailable_ := unavailable_ s;
     playcount_ := playcount_ s; skipcount_ := skipcount_ s; lastplayed_ := lastplayed_ s;
     art_automatic_ := art_automatic_ s; art_manual_ := art_manual_ s; cue_path_ := cue_path_ s |}.

Definition set_directory_id (v : Z) (s : t) : t :=
  {| valid_ := valid_ s; id_ := id_ s; title_ := title_ s; album_ := album_ s; artist_ := artist_
     s; albumartist_ := albumartist_ s; track_ := track_ s; disc_ := disc_ s; year_ := year_ s;
     originalyear_ := originalyear_ s; genre_ := genre_ s; compilation_ := compilation_ s;
     composer_ := composer_ s; performer_ := performer_ s; grouping_ := grouping_ s; comment_ :=
     comment_ s; lyrics_ := lyrics_ s; artist_id_ := artist_id_ s; album_id_ := album_id_ s;
     song_id_ := song_id_ s; beginning_ := beginning_ s; end_ := end_ s; bitrate_ := bitrate_ s;
     samplerate_ := samplerate_ s; bitdepth_ := bitdepth_ s; source_ := source_ s; directory_id_
     := v; url_ := url_ s; mtime_ := mtime_ s; unavailable_ := unavailable_ s; playcount_ :=
     playcount_ s; skipcount_ := skipcount_ s; lastplayed_ := lastplayed_ s; art_automatic_ :=
     art_automatic_ s; art_manual_ := art_manual_ s; cue_path_ := cue_path_ s |}.

Definition set_playcount (v : Z) (s : t) : t :=
  {| valid_ := valid_ s; id_ := id_ s; title_ := title_ s; album_ := album_ s; artist_ := artist_
     s; albumartist_ := albumartist_ s; track_ := track_ s; disc_ := disc_ s; year_ := year_ s;
     originalyear_ := originalyear_ s; genre_ := genre_ s; compilation_ := compilation_ s;
     composer_ := composer_ s; performer_ := performer_ s; grouping_ := grouping_ s; comment_ :=
     comment_ s; lyrics_ := lyrics_ s; artist_id_ := artist_id_ s; album_id_ := album_id_ s;
     song_id_ := song_id_ s; beginning_ := beginning_ s; end_ := end_ s; bitrate_ := bitrate_ s;
     samplerate_ := samplerate_ s; bitdepth_ := bitdepth_ s; source_ := source_ s; directory_id_
     := directory_id_ s; url_ := url_ s; mtime_ := mtime_ s; unavailable_ := unavailable_ s;
     playcount_ := v; skipcount_ := skipcount_ s; lastplayed_ := lastplayed_ s; art_automatic_ :=
     art_automatic_ s; art_manual_ := art_manual_ s; cue_path_ := cue_path_ s |}.

Definition set_skipcount (v : Z) (s : t) : t :=
  {| valid_ := valid_ s; id_ := id_ s; title_ := title_ s; album_ := album_ s; artist_ := artist_
     s; albumartist_ := albumartist_ s; track_ := track_ s; disc_ := disc_ s; year_ := year_ s;
     originalyear_ := originalyear_ s; genre_ := genre_ s; compilation_ := compilation_ s;
     composer_ := composer_ s; performer_ := performer_ s; grouping_ := grouping_ s; comment_ :=
     comment_ s; lyrics_ := lyrics_ s; artist_id_ := artist_id_ s; album_id_ := album_id_ s;
     song_id_ := song_id_ s; beginning_ := beginning_ s; end_ := end_ s; bitrate_ := bitrate_ s;
     samplerate_ := samplerate_ s; bitdepth_ := bitdepth_ s; source_ := source_ s; directory_id_
     := directory_id_ s; url_ := url_ s; mtime_ := mtime_ s; unavailable_ := unavailable_ s;
     playcount_ := playcount_ s; skipcount_ := v; lastplayed_ := lastplayed_ s; art_automatic_ :=
     art_automatic_ s; art_manual_ := art_manual_ s; cue_path_ := cue_path_ s |}.

Definition set_lastplayed (v : Z) (s : t) : t :=
  {| valid_ := valid_ s; id_ := id_ s; title_ := title_ s; album_ := album_ s; artist_ := artist_
     s; albumartist_ := albumartist_ s; track_ := track_ s; disc_ := disc_ s; year_ := year_ s;
     originalyear_ := originalyear_ s; genre_ := genre_ s; compilation_ := compilation_ s;
     composer_ := composer_ s; performer_ := performer_ s; grouping_ := grouping_ s; comment_ :=
     comment_ s; lyrics_ := lyrics_ s; artist_id_ := artist_id_ s; album_id_ := album_id_ s;
     song_id_ := song_id_ s; beginning_ := beginning_ s; end_ := end_ s; bitrate_ := bitrate_ s;
     samplerate_ := samplerate_ s; bitdepth_ := bitdepth_ s; source_ := source_ s; directory_id_
     := directory_id_ s; url_ := url_ s; mtime_ := mtime_ s; unavailable_ := unavailable_ s;
     playcount_ := playcount_ s; skipcount_ := skipcount_ s; lastplayed_ := v; art_automatic_ :=
     art_automatic_ s; art_manual_ := art_manual_ s; cue_path_ := cue_path_ s |}.

Definition set_unavailable (v : bool) (s : t) : t :=
  {| valid_ := valid_ s; id_ := id_ s; title_ := title_ s; album_ := album_ s; artist_ := artist_
     s; albumartist_ := albumartist_ s; track_ := track_ s; disc_ := disc_ s; year_ := year_ s;
     originalyear_ := originalyear_ s; genre_ := genre_ s; compilation_ := compilation_ s;
     composer_ := composer_ s; performer_ := performer_ s; grouping_ := grouping_ s; comment_ :=
     comment_ s; lyrics_ := lyrics_ s; artist_id_ := artist_id_ s; album_id_ := album_id_ s;
     song_id_ := song_id_ s; beginning_ := beginning_ s; end_ := end_ s; bitrate_ := bitrate_ s;
     samplerate_ := samplerate_ s; bitdepth_ := bitdepth_ s; source_ := source_ s; directory_id_
     := directory_id_ s; url_ := url_ s; mtime_ := mtime_ s; unavailable_ := v; playcount_ :=
     playcount_ s; skipcount_ := skipcount_ s; lastplayed_ := lastplayed_ s; art_automatic_ :=
     art_automatic_ s; art_manual_ := art_manual_ s; cue_path_ := cue_path_ s |}.

Definition set_art_automatic (v : QUrl) (s : t) : t :=
  {| valid_ := valid_ s; id_ := id_ s; title_ := title_ s; album_ := album_ s; artist_ := artist_
     s; albumartist_ := albumartist_ s; track_ := track_ s; disc_ := disc_ s; year_ := year_ s;
     originalyear_ := originalyear_ s; genre_ := genre_ s; compilation_ := compilation_ s;
     composer_ := composer_ s; performer_ := performer_ s; grouping_ := grouping_ s; comment_ :=
     comment_ s; lyrics_ := lyrics_ s; artist_id_ := artist_id_ s; album_id_ := album_id_ s;
     song_id_ := song_id_ s; beginning_ := beginning_ s; end_ := end_ s; bitrate_ := bitrate_ s;
     samplerate_ := samplerate_ s; bitdepth_ := bitdepth_ s; source_ := source_ s; directory_id_
     := directory_id_ s; url_ := url_ s; mtime_ := mtime_ s; unavailable_ := unavailable_ s;
     playcount_ := playcount_ s; skipcount_ := skipcount_ s; lastplayed_ := lastplayed_ s;
     art_automatic_ := v; art_manual_ := art_manual_ s; cue_path_ := cue_path_ s |}.

Definition set_art_manual (v : QUrl) (s : t) : t :=
  {| valid_ := valid_ s; id_ := id_ s; title_ := title_ s; album_ := album_ s; artist_ := artist_
     s; albumartist_ := albumartist_ s; track_ := track_ s; disc_ := disc_ s; year_ := year_ s;
     originalyear_ := originalyear_ s; genre_ := genre_ s; compilation_ := compilation_ s;
     composer_ := composer_ s; performer_ := performer_ s; grouping_ := grouping_ s; comment_ :=
     comment_ s; lyrics_ := lyrics_ s; artist_id_ := artist_id_ s; album_id_ := album_id_ s;
     song_id_ := song_id_ s; beginning_ := beginning_ s; end_ := end_ s; bitrate_ := bitrate_ s;
     samplerate_ := samplerate_ s; bitdepth_ := bitdepth_ s; source_ := source_ s; directory_id_
     := directory_id_ s; url_ := url_ s; mtime_ := mtime_ s; unavailable_ := unavailable_ s;
     playcount_ := playcount_ s; skipcount_ := skipcount_ s; lastplayed_ := lastplayed_ s;
     art_automatic_ := art_automatic_ s; art_manual_ := v; cue_path_ := cue_path_ s |}.

Definition kManuallyUnsetCover : QString := "(unset)".
Definition kEmbeddedCover : QString := "(embedded)".

Definition is_valid (s : t) : bool := valid_ s.
Definition is_unavailable (s : t) : bool := unavailable_ s.
Definition id (s : t) : Z := id_ s.
Definition url (s : t) : QUrl := url_ s.
Definition beginning_nanosec (s : t) : Z := beginning_ s.
Definition length_nanosec (s : t) : Z := wrap_int64 (end_ s - beginning_ s).
(** [uint Song::mtime() const { return d->mtime_; }] *)
Definition mtime (s : t) : Z := to_uint (mtime_ s).
Definition art_automatic (s : t) : QUrl := art_automatic_ s.
Definition art_manual (s : t) : QUrl := art_manual_ s.
Definition cue_path (s : t) : QString := cue_path_ s.
Definition has_cue (s : t) : bool := negb (isEmpty (cue_path_ s)).
Definition has_embedded_cover (s : t) : bool :=
  String.eqb (toLocalFile (art_automatic_ s)) kEmbeddedCover.
Definition playcount (s : t) : Z := playcount_ s.
Definition skipcount (s : t) : Z := skipcount_ s.
Definition lastplayed (s : t) : Z := lastplayed_ s.

Definition IsMetadataEqual (a b : t) : bool :=
  String.eqb (title_ a) (title_ b) &&
  String.eqb (album_ a) (album_ b) &&
  String.eqb (artist_ a) (artist_ b) &&
  String.eqb (albumartist_ a) (albumartist_ b) &&
  (track_ a =? track_ b) &&
  (disc_ a =? disc_ b) &&
  (year_ a =? year_ b) &&
  (originalyear_ a =? originalyear_ b) &&
  String.eqb (genre_ a) (genre_ b) &&
  Bool.eqb (compilation_ a) (compilation_ b) &&
  String.eqb (composer_ a) (composer_ b) &&
  String.eqb (performer_ a) (performer_ b) &&
  String.eqb (grouping_ a) (grouping_ b) &&
  String.eqb (comment_ a) (comment_ b) &&
  String.eqb (lyrics_ a) (lyrics_ b) &&
  (artist_id_ a =? artist_id_ b) &&
  String.eqb (album_id_ a) (album_id_ b) &&
  (song_id_ a =? song_id_ b) &&
  (beginning_ a =? beginning_ b) &&
  (length_nanosec a =? length_nanosec b) &&
  (bitrate_ a =? bitrate_ b) &&
  (samplerate_ a =? samplerate_ b) &&
  (bitdepth_ a =? bitdepth_ b) &&
  QUrl_eqb (art_automatic_ a) (art_automatic_ b) &&
  QUrl_eqb (art_manual_ a) (art_manual_ b) &&
  String.eqb (cue_path_ a) (cue_path_ b).

Definition MergeUserSetData (other : t) (s : t) : t :=
  set_art_manual (art_manual other)
    (set_lastplayed (lastplayed other)
       (set_skipcount (skipcount other)
          (set_playcount (playcount other) s))).

End Song.

Abbreviation SongList := (list Song.t).

(* ===================================================================== *)
(** ** Directories and subdirectories *)

(** Modelled from the spec: directory.h is not among the sources.  A
    Directory is a watched root with an opaque integer id and an absolute
    path; two directories are equal when both agree. *)
Record Directory : Type := mkDirectory { dir_id : Z; dir_path : QString }.

Definition Directory_eqb (a b : Directory) : bool :=
  String.eqb (dir_path a) (dir_path b) && (dir_id a =? dir_id b).

(** Modelled from the spec: directory.h is not among the sources.  A
    Subdirectory has an owning directory id, an absolute path and the
    last-known modification time in epoch seconds, 0 standing for "deleted".
    The walker tests [directory_id == -1] for a subdirectory that was not
    known before, which is what the default value carries. *)
Record Subdirectory : Type := mkSubdirectory {
  directory_id : Z;
  path : QString;
  mtime : Z
}.

Definition Subdirectory_default : Subdirectory :=
  {| directory_id := -1; path := EmptyString; mtime := 0 |}.

Abbreviation SubdirectoryList := (list Subdirectory).

(* ===================================================================== *)
(** ** Collaborators of the scanner *)

Record World : Type := mkWorld {
  (* file system probe: QFileInfo, QFile, QDir, QDirIterator *)
  isSymLink : QString -> bool;
  symLinkTarget : QString -> QString;
  exists_ : QString -> bool;
  lastModified : QString -> QDateTime;
  isDir : QString -> bool;
  isHidden : QString -> bool;
  (* QDir(path).exists(name) *)
  QDir_exists : QString -> QString -> bool;
  (* the children QDirIterator(path, Dirs | Files | Hidden | NoDotAndDotDot)
     yields, as full paths, in the order it yields them *)
  QDirIterator : QString -> QStringList;
  (* QImage(path): None for a null image, else (width, height) *)
  QImage : QString -> option (Z * Z);
  (* TagReaderClient *)
  ReadFileBlocking : QString -> Song.t -> Song.t;
  IsMediaFileBlocking : QString -> bool;
  (* CueParser::Load(&cue, cue_path, path) *)
  CueParser_Load : QString -> QString -> SongList;
  (* CollectionBackend *)
  FindSongsInDirectory : Z -> SongList;
  SubdirsInDirectory : Z -> SubdirectoryList;
  GetSongsByUrl : QUrl -> SongList;
  (* TaskManager::StartTask *)
  StartTask : QString -> Z;
  (* the value of stop_requested_ at its n-th read by the watcher thread;
     the flag is set from another thread *)
  stop_requested_ : nat -> bool;
  (* static helpers declared in collectionwatcher.h *)
  ExtensionPart : QString -> QString;
  DirectoryPart : QString -> QString;
  NoExtensionPart : QString -> QString;
  (* QString::normalized(QString::NormalizationForm_D) *)
  normalized_D : QString -> QString;
  (* the string with the case of every character folded, as the
     case-insensitive search of QString folds it, for all of Unicode *)
  toCaseFolded : QString -> QString
}.

(** [hay.contains(needle, Qt::CaseInsensitive)]. *)
Definition contains_ci (W : World) (hay needle : QString) : bool :=
  contains_cs (toCaseFolded W needle) (toCaseFolded W hay).

(** What the scanner does to the outside, in the order it does it. *)
Inductive Effect : Type :=
(* TaskManager *)
| StartTask_called (description : QString)
| SetTaskProgress (task_id progress progress_max : Z)
| SetTaskFinished (task_id : Z)
(* signals of CollectionWatcher *)
| ScanStarted (task_id : Z)
| NewOrUpdatedSongs (songs : SongList)
| SongsMTimeUpdated (songs : SongList)
| SongsDeleted (songs : SongList)
| SongsReadded (songs : SongList)
| SubdirsDiscovered (subdirs : SubdirectoryList)
| SubdirsMTimeUpdated (subdirs : SubdirectoryList)
| CompilationsNeedUpdating
(* FileSystemWatcherInterface *)
| AddPath (p : QString)
| RemovePath (p : QString)
(* blocking reads *)
| DirListed (p : QString)
| TagRead (file : QString)
| MediaFileChecked (file : QString)
| CueLoaded (cue : QString) (base : QString)
| ImageLoaded (p : QString)
(* backend queries *)
| Queried_FindSongsInDirectory (dir : Z)
| Queried_SubdirsInDirectory (dir : Z)
| Queried_GetSongsByUrl (u : QUrl)
(* a call of ScanSubdirectory *)
| ScanSubdirectory_entered (p : QString).

(* ===================================================================== *)
(** ** State of the watcher and of a scan transaction *)

Record CollectionWatcher : Type := mkWatcher {
  source_ : Song.Source;
  device_name_ : QString;
  watched_dirs_ : gmap Z Directory;
  subdir_mapping_ : gmap string Directory;
  scan_on_startup_ : bool;
  monitor_ : bool;
  live_scanning_ : bool;
  watcher_prevent_delete_ : bool;
  best_image_filters_ : QStringList
}.

Definition set_subdir_mapping (m : gmap string Directory) (w : CollectionWatcher) :=
  {| source_ := source_ w; device_name_ := device_name_ w;
     watched_dirs_ := watched_dirs_ w; subdir_mapping_ := m;
     scan_on_startup_ := scan_on_startup_ w; monitor_ := monitor_ w;
     live_scanning_ := live_scanning_ w;
     watcher_prevent_delete_ := watcher_prevent_delete_ w;
     best_image_filters_ := best_image_filters_ w |}.

Definition sValidImages : QStringList := ["jpg"; "png"; "gif"; "jpeg"].
Definition kNoMediaFile : QString := ".nomedia".
Definition kNoMusicFile : QString := ".nomusic".

Module Txn.

(** [CollectionWatcher::ScanTransaction]. *)
Record t : Type := Build {
  progress_ : Z;
  progress_max_ : Z;
  dir_ : Z;
  incremental_ : bool;
  ignores_mtime_ : bool;
  prevent_delete_ : bool;
  task_id_ : Z;
  cached_songs_ : SongList;
  cached_songs_dirty_ : bool;
  known_subdirs_ : SubdirectoryList;
  known_subdirs_dirty_ : bool;
  new_songs : SongList;
  touched_songs : SongList;
  deleted_songs : SongList;
  readded_songs : SongList;
  new_subdirs : SubdirectoryList;
  touched_subdirs : SubdirectoryList;
  deleted_subdirs : SubdirectoryList
}.

Definition set_progress (v : Z) (s : t) : t :=
  {| progress_ := v; progress_max_ := progress_max_ s; dir_ := dir_ s; incremental_ :=
     incremental_ s; ignores_mtime_ := ignores_mtime_ s; prevent_delete_ := prevent_delete_ s;
     task_id_ := task_id_ s; cached_songs_ := cached_songs_ s; cached_songs_dirty_ :=
     cached_songs_dirty_ s; known_subdirs_ := known_subdirs_ s; known_subdirs_dirty_ :=
     known_subdirs_dirty_ s; new_songs := new_songs s; touched_songs := touched_songs s;
     deleted_songs := deleted_songs s; readded_songs := readded_songs s; new_subdirs :=
     new_subdirs s; touched_subdirs := touched_subdirs s; deleted_subdirs := deleted_subdirs s |}.

Definition set_progress_max (v : Z) (s : t) : t :=
  {| progress_ := progress_ s; progress_max_ := v; dir_ := dir_ s; incremental_ := incremental_
     s; ignores_mtime_ := ignores_mtime_ s; prevent_delete_ := prevent_delete_ s; task_id_ :=
     task_id_ s; cached_songs_ := cached_songs_ s; cached_songs_dirty_ := cached_songs_dirty_ s;
     known_subdirs_ := known_subdirs_ s; known_subdirs_dirty_ := known_subdirs_dirty_ s;
     new_songs := new_songs s; touched_songs := touched_songs s; deleted_songs := deleted_songs
     s; readded_songs := readded_songs s; new_subdirs := new_subdirs s; touched_subdirs :=
     touched_subdirs s; deleted_subdirs := deleted_subdirs s |}.

Definition set_cached_songs (v : SongList) (s : t) : t :=
  {| progress_ := progress_ s; progress_max_ := progress_max_ s; dir_ := dir_ s; incremental_ :=
     incremental_ s; ignores_mtime_ := ignores_mtime_ s; prevent_delete_ := prevent_delete_ s;
     task_id_ := task_id_ s; cached_songs_ := v; cached_songs_dirty_ := cached_songs_dirty_ s;
     known_subdirs_ := known_subdirs_ s; known_subdirs_dirty_ := known_subdirs_dirty_ s;
     new_songs := new_songs s; touched_songs := touched_songs s; deleted_songs := deleted_songs
     s; readded_songs := readded_songs s; new_subdirs := new_subdirs s; touched_subdirs :=
     touched_subdirs s; deleted_subdirs := deleted_subdirs s |}.

Definition set_cached_songs_dirty (v : bool) (s : t) : t :=
  {| progress_ := progress_ s; progress_max_ := progress_max_ s; dir_ := dir_ s; incremental_ :=
     incremental_ s; ignores_mtime_ := ignores_mtime_ s; prevent_delete_ := prevent_delete_ s;
     task_id_ := task_id_ s; cached_songs_ := cached_songs_ s; cached_songs_dirty_ := v;
     known_subdirs_ := known_subdirs_ s; known_subdirs_dirty_ := known_subdirs_dirty_ s;
     new_songs := new_songs s; touched_songs := touched_songs s; deleted_songs := deleted_songs
     s; readded_songs := readded_songs s; new_subdirs := new_subdirs s; touched_subdirs :=
     touched_subdirs s; deleted_subdirs := deleted_subdirs s |}.

Definition set_known_subdirs (v : SubdirectoryList) (s : t) : t :=
  {| progress_ := progress_ s; progress_max_ := progress_max_ s; dir_ := dir_ s; incremental_ :=
     incremental_ s; ignores_mtime_ := ignores_mtime_ s; prevent_delete_ := prevent_delete_ s;
     task_id_ := task_id_ s; cached_songs_ := cached_songs_ s; cached_songs_dirty_ :=
     cached_songs_dirty_ s; known_subdirs_ := v; known_subdirs_dirty_ := known_subdirs_dirty_ s;
     new_songs := new_songs s; touched_songs := touched_songs s; deleted_songs := deleted_songs
     s; readded_songs := readded_songs s; new_subdirs := new_subdirs s; touched_subdirs :=
     touched_subdirs s; deleted_subdirs := deleted_subdirs s |}.

Definition set_known_subdirs_dirty (v : bool) (s : t) : t :=
  {| progress_ := progress_ s; progress_max_ := progress_max_ s; dir_ := dir_ s; incremental_ :=
     incremental_ s; ignores_mtime_ := ignores_mtime_ s; prevent_delete_ := prevent_delete_ s;
     task_id_ := task_id_ s; cached_songs_ := cached_songs_ s; cached_songs_dirty_ :=
     cached_songs_dirty_ s; known_subdirs_ := known_subdirs_ s; known_subdirs_dirty_ := v;
     new_songs := new_songs s; touched_songs := touched_songs s; deleted_songs := deleted_songs
     s; readded_songs := readded_songs s; new_subdirs := new_subdirs s; touched_subdirs :=
     touched_subdirs s; deleted_subdirs := deleted_subdirs s |}.

Definition set_new_songs (v : SongList) (s : t) : t :=
  {| progress_ := progress_ s; progress_max_ := progress_max_ s; dir_ := dir_ s; incremental_ :=
     incremental_ s; ignores_mtime_ := ignores_mtime_ s; prevent_delete_ := prevent_delete_ s;
     task_id_ := task_id_ s; cached_songs_ := cached_songs_ s; cached_songs_dirty_ :=
     cached_songs_dirty_ s; known_subdirs_ := known_subdirs_ s; known_subdirs_dirty_ :=
     known_subdirs_dirty_ s; new_songs := v; touched_songs := touched_songs s; deleted_songs :=
     deleted_songs s; readded_songs := readded_songs s; new_subdirs := new_subdirs s;
     touched_subdirs := touched_subdirs s; deleted_subdirs := deleted_subdirs s |}.

Definition set_touched_songs (v : SongList) (s : t) : t :=
  {| progress_ := progress_ s; progress_max_ := progress_max_ s; dir_ := dir_ s; incremental_ :=
     incremental_ s; ignores_mtime_ := ignores_mtime_ s; prevent_delete_ := prevent_delete_ s;
     task_id_ := task_id_ s; cached_songs_ := cached_songs_ s; cached_songs_dirty_ :=
     cached_songs_dirty_ s; known_subdirs_ := known_subdirs_ s; known_subdirs_dirty_ :=
     known_subdirs_dirty_ s; new_songs := new_songs s; touched_songs := v; deleted_songs :=
     deleted_songs s; readded_songs := readded_songs s; new_subdirs := new_subdirs s;
     touched_subdirs := touched_subdirs s; deleted_subdirs := deleted_subdirs s |}.

Definition set_deleted_songs (v : SongList) (s : t) : t :=
  {| progress_ := progress_ s; progress_max_ := progress_max_ s; dir_ := dir_ s; incremental_ :=
     incremental_ s; ignores_mtime_ := ignores_mtime_ s; prevent_delete_ := prevent_delete_ s;
     task_id_ := task_id_ s; cached_songs_ := cached_songs_ s; cached_songs_dirty_ :=
     cached_songs_dirty_ s; known_subdirs_ := known_subdirs_ s; known_subdirs_dirty_ :=
     known_subdirs_dirty_ s; new_songs := new_songs s; touched_songs := touched_songs s;
     deleted_songs := v; readded_songs := readded_songs s; new_subdirs := new_subdirs s;
     touched_subdirs := touched_subdirs s; deleted_subdirs := deleted_subdirs s |}.

Definition set_readded_songs (v : SongList) (s : t) : t :=
  {| progress_ := progress_ s; progress_max_ := progress_max_ s; dir_ := dir_ s; incremental_ :=
     incremental_ s; ignores_mtime_ := ignores_mtime_ s; prevent_delete_ := prevent_delete_ s;
     task_id_ := task_id_ s; cached_songs_ := cached_songs_ s; cached_songs_dirty_ :=
     cached_songs_dirty_ s; known_subdirs_ := known_subdirs_ s; known_subdirs_dirty_ :=
     known_subdirs_dirty_ s; new_songs := new_songs s; touched_songs := touched_songs s;
     deleted_songs := deleted_songs s; readded_songs := v; new_subdirs := new_subdirs s;
     touched_subdirs := touched_subdirs s; deleted_subdirs := deleted_subdirs s |}.

Definition set_new_subdirs (v : SubdirectoryList) (s : t) : t :=
  {| progress_ := progress_ s; progress_max_ := progress_max_ s; dir_ := dir_ s; incremental_ :=
     incremental_ s; ignores_mtime_ := ignores_mtime_ s; prevent_delete_ := prevent_delete_ s;
     task_id_ := task_id_ s; cached_songs_ := cached_songs_ s; cached_songs_dirty_ :=
     cached_songs_dirty_ s; known_subdirs_ := known_subdirs_ s; known_subdirs_dirty_ :=
     known_subdirs_dirty_ s; new_songs := new_songs s; touched_songs := touched_songs s;
     deleted_songs := deleted_songs s; readded_songs := readded_songs s; new_subdirs := v;
     touched_subdirs := touched_subdirs s; deleted_subdirs := deleted_subdirs s |}.

Definition set_touched_subdirs (v : SubdirectoryList) (s : t) : t :=
  {| progress_ := progress_ s; progress_max_ := progress_max_ s; dir_ := dir_ s; incremental_ :=
     incremental_ s; ignores_mtime_ := ignores_mtime_ s; prevent_delete_ := prevent_delete_ s;
     task_id_ := task_id_ s; cached_songs_ := cached_songs_ s; cached_songs_dirty_ :=
     cached_songs_dirty_ s; known_subdirs_ := known_subdirs_ s; known_subdirs_dirty_ :=
     known_subdirs_dirty_ s; new_songs := new_songs s; touched_songs := touched_songs s;
     deleted_songs := deleted_songs s; readded_songs := readded_songs s; new_subdirs :=
     new_subdirs s; touched_subdirs := v; deleted_subdirs := deleted_subdirs s |}.

Definition set_deleted_subdirs (v : SubdirectoryList) (s : t) : t :=
  {| progress_ := progress_ s; progress_max_ := progress_max_ s; dir_ := dir_ s; incremental_ :=
     incremental_ s; ignores_mtime_ := ignores_mtime_ s; prevent_delete_ := prevent_delete_ s;
     task_id_ := task_id_ s; cached_songs_ := cached_songs_ s; cached_songs_dirty_ :=
     cached_songs_dirty_ s; known_subdirs_ := known_subdirs_ s; known_subdirs_dirty_ :=
     known_subdirs_dirty_ s; new_songs := new_songs s; touched_songs := touched_songs s;
     deleted_songs := deleted_songs s; readded_songs := readded_songs s; new_subdirs :=
     new_subdirs s; touched_subdirs := touched_subdirs s; deleted_subdirs := v |}.

End Txn.

(** The part of the state that outlives a transaction: the watcher, the
    effects so far and the number of reads of [stop_requested_] so far. *)
Record Env : Type := mkEnv {
  watcher : CollectionWatcher;
  trace : list Effect;
  polls : nat
}.

Record St : Type := mkSt { env : Env; txn : Txn.t }.

(** Code that runs inside a transaction. *)
Definition M (A : Type) : Type := St -> A * St.

Definition ret {A} (a : A) : M A := fun st => (a, st).

Definition bind {A B} (m : M A) (k : A -> M B) : M B :=
  fun st => let (a, st') := m st in k a st'.

Notation "'do' x <- m ; k" := (bind m (fun x => k))
  (at level 10, x name, m at level 100, k at level 200).
Notation "'do_' m ; k" := (bind m (fun _ => k))
  (at level 10, m at level 100, k at level 200).

Definition when (b : bool) (m : M unit) : M unit := if b then m else ret tt.

Definition emit (e : Effect) : M unit := fun st =>
  (tt, {| env := {| watcher := watcher (env st); trace := trace (env st) ++ [e];
                    polls := polls (env st) |};
          txn := txn st |}).

Definition get_txn : M Txn.t := fun st => (txn st, st).
Definition get_watcher : M CollectionWatcher := fun st => (watcher (env st), st).

Definition modify_txn (f : Txn.t -> Txn.t) : M unit := fun st =>
  (tt, {| env := env st; txn := f (txn st) |}).

Definition modify_watcher (f : CollectionWatcher -> CollectionWatcher) : M unit := fun st =>
  (tt, {| env := {| watcher := f (watcher (env st)); trace := trace (env st);
                    polls := polls (env st) |};
          txn := txn st |}).

(** A range-for loop whose body neither breaks nor returns. *)
Fixpoint for_each {A} (l : list A) (body : A -> M unit) : M unit :=
  match l with
  | [] => ret tt
  | x :: l' => do_ body x; for_each l' body
  end.

Definition is_nil {A} (l : list A) : bool :=
  match l with [] => true | _ => false end.

Section Scanner.

Variable W : World.

(** One read of [stop_requested_]. *)
Definition read_stop_requested : M bool := fun st =>
  (stop_requested_ W (polls (env st)),
   {| env := {| watcher := watcher (env st); trace := trace (env st);
                polls := S (polls (env st)) |};
      txn := txn st |}).

(* --------------------------------------------------------------------- *)
(** *** Watches *)

Definition AddWatch (dir : Directory) (p : QString) : M unit :=
  if negb (exists_ W p) then ret tt
  else
    do_ emit (AddPath p);
    modify_watcher (fun w => set_subdir_mapping (<[p := dir]> (subdir_mapping_ w)) w).

(** [subdir_mapping_.keys(dir)] holds the paths mapped to a directory equal
    to [dir]; the loop acts on the one equal to [subdir.path], if any. *)
Definition RemoveWatch (dir : Directory) (subdir : Subdirectory) : M unit :=
  do w <- get_watcher;
  match subdir_mapping_ w !! path subdir with
  | Some d =>
      if Directory_eqb d dir then
        do_ emit (RemovePath (path subdir));
        modify_watcher (fun w => set_subdir_mapping (delete (path subdir) (subdir_mapping_ w)) w)
      else ret tt
  | None => ret tt
  end.

(* --------------------------------------------------------------------- *)
(** *** ScanTransaction *)

Definition description_of (w : CollectionWatcher) : QString :=
  if isEmpty (device_name_ w) then "Updating collection"
  else "Updating " +:+ device_name_ w.

(** The constructor: opens a transaction in the watcher state [e]. *)
Definition ScanTransaction_ctor (e : Env) (dir : Z) (incremental ignores_mtime prevent_delete : bool)
  : St :=
  let description := description_of (watcher e) in
  let task_id := StartTask W description in
  {| env := {| watcher := watcher e;
               trace := trace e ++ [StartTask_called description; ScanStarted task_id];
               polls := polls e |};
     txn := {| Txn.progress_ := 0; Txn.progress_max_ := 0; Txn.dir_ := dir;
               Txn.incremental_ := incremental; Txn.ignores_mtime_ := ignores_mtime;
               Txn.prevent_delete_ := prevent_delete; Txn.task_id_ := task_id;
               Txn.cached_songs_ := []; Txn.cached_songs_dirty_ := true;
               Txn.known_subdirs_ := []; Txn.known_subdirs_dirty_ := true;
               Txn.new_songs := []; Txn.touched_songs := []; Txn.deleted_songs := [];
               Txn.readded_songs := []; Txn.new_subdirs := []; Txn.touched_subdirs := [];
               Txn.deleted_subdirs := [] |} |}.

Definition AddToProgress (n : Z) : M unit :=
  do_ modify_txn (fun t => Txn.set_progress (wrap_int (Txn.progress_ t + n)) t);
  do t <- get_txn;
  emit (SetTaskProgress (Txn.task_id_ t) (Txn.progress_ t) (Txn.progress_max_ t)).

Definition AddToProgressMax (n : Z) : M unit :=
  do_ modify_txn (fun t => Txn.set_progress_max (wrap_int (Txn.progress_max_ t + n)) t);
  do t <- get_txn;
  emit (SetTaskProgress (Txn.task_id_ t) (Txn.progress_ t) (Txn.progress_max_ t)).

Definition remove_deleted_watch (subdir : Subdirectory) : M unit :=
  do t <- get_txn;
  do w <- get_watcher;
  match watched_dirs_ w !! Txn.dir_ t with
  | Some d => RemoveWatch d subdir
  | None => ret tt
  end.

Definition add_new_watch (subdir : Subdirectory) : M unit :=
  do t <- get_txn;
  do w <- get_watcher;
  match watched_dirs_ w !! Txn.dir_ t with
  | Some d => AddWatch d (path subdir)
  | None => ret tt
  end.

Definition CommitNewOrUpdatedSongs : M unit :=
  do t <- get_txn;
  do_ when (negb (is_nil (Txn.new_songs t)))
        (do_ emit (NewOrUpdatedSongs (Txn.new_songs t));
         modify_txn (Txn.set_new_songs []));
  do_ when (negb (is_nil (Txn.touched_songs t)))
        (do_ emit (SongsMTimeUpdated (Txn.touched_songs t));
         modify_txn (Txn.set_touched_songs []));
  do_ when (negb (is_nil (Txn.deleted_songs t)) && negb (Txn.prevent_delete_ t))
        (do_ emit (SongsDeleted (Txn.deleted_songs t));
         modify_txn (Txn.set_deleted_songs []));
  do_ when (negb (is_nil (Txn.readded_songs t)))
        (do_ emit (SongsReadded (Txn.readded_songs t));
         modify_txn (Txn.set_readded_songs []));
  do_ when (negb (is_nil (Txn.new_subdirs t)))
        (emit (SubdirsDiscovered (Txn.new_subdirs t)));
  do_ when (negb (is_nil (Txn.touched_subdirs t)))
        (do_ emit (SubdirsMTimeUpdated (Txn.touched_subdirs t));
         modify_txn (Txn.set_touched_subdirs []));
  do_ for_each (Txn.deleted_subdirs t) remove_deleted_watch;
  do_ modify_txn (Txn.set_deleted_subdirs []);
  do w <- get_watcher;
  do_ when (monitor_ w) (for_each (Txn.new_subdirs t) add_new_watch);
  modify_txn (Txn.set_new_subdirs []).

(** The destructor: the transaction ends and only the watcher state is left. *)
Definition ScanTransaction_dtor (st : St) : Env :=
  let body : M unit :=
    (* If we're stopping then don't commit the transaction *)
    do stop <- read_stop_requested;
    do_ when (negb stop) CommitNewOrUpdatedSongs;
    do t <- get_txn;
    emit (SetTaskFinished (Txn.task_id_ t)) in
  env (snd (body st)).

Definition FindSongsInSubdirectory (p : QString) : M SongList :=
  do t <- get_txn;
  do_ when (Txn.cached_songs_dirty_ t)
        (do_ emit (Queried_FindSongsInDirectory (Txn.dir_ t));
         do_ modify_txn (Txn.set_cached_songs (FindSongsInDirectory W (Txn.dir_ t)));
         modify_txn (Txn.set_cached_songs_dirty false));
  do t <- get_txn;
  ret (filter (fun song => String.eqb (section_dir (toLocalFile (Song.url song))) p)
         (Txn.cached_songs_ t)).

Definition SetKnownSubdirs (subdirs : SubdirectoryList) : M unit :=
  do_ modify_txn (Txn.set_known_subdirs subdirs);
  modify_txn (Txn.set_known_subdirs_dirty false).

Definition fetch_known_subdirs : M unit :=
  do t <- get_txn;
  when (Txn.known_subdirs_dirty_ t)
    (do_ emit (Queried_SubdirsInDirectory (Txn.dir_ t));
     SetKnownSubdirs (SubdirsInDirectory W (Txn.dir_ t))).

Definition HasSeenSubdir (p : QString) : M bool :=
  do_ fetch_known_subdirs;
  do t <- get_txn;
  ret (existsb (fun subdir => String.eqb (path subdir) p && negb (mtime subdir =? 0))
         (Txn.known_subdirs_ t)).

Definition GetImmediateSubdirs (p : QString) : M SubdirectoryList :=
  do_ fetch_known_subdirs;
  do t <- get_txn;
  ret (filter (fun subdir =>
                 String.eqb (left (lastIndexOf "/" (path subdir)) (path subdir)) p
                 && negb (mtime subdir =? 0))
         (Txn.known_subdirs_ t)).

Definition GetAllSubdirs : M SubdirectoryList :=
  do_ fetch_known_subdirs;
  do t <- get_txn;
  ret (Txn.known_subdirs_ t).


(* --------------------------------------------------------------------- *)
(** *** Helpers of the walker *)

Definition push_new_song (s : Song.t) : M unit :=
  modify_txn (fun t => Txn.set_new_songs (Txn.new_songs t ++ [s]) t).
Definition push_touched_song (s : Song.t) : M unit :=
  modify_txn (fun t => Txn.set_touched_songs (Txn.touched_songs t ++ [s]) t).
Definition push_deleted_song (s : Song.t) : M unit :=
  modify_txn (fun t => Txn.set_deleted_songs (Txn.deleted_songs t ++ [s]) t).
Definition push_readded_song (s : Song.t) : M unit :=
  modify_txn (fun t => Txn.set_readded_songs (Txn.readded_songs t ++ [s]) t).

Definition GetMtimeForCue (cue_path : QString) : Z :=
  (* Slight optimisation *)
  if isEmpty cue_path then 0
  else if negb (exists_ W cue_path) then 0
  else match lastModified W cue_path with
       | Some _ => toTime_t (lastModified W cue_path)
       | None => 0
       end.

Definition FindSongByPath (l : SongList) (p : QString) : option Song.t :=
  find (fun song => String.eqb (toLocalFile (Song.url song)) p) l.

Definition PreserveUserSetData (file : QString) (image : QUrl) (matching_song out : Song.t)
  : M unit :=
  let out := Song.set_id (Song.id matching_song) out in
  let out := if negb (Song.has_embedded_cover out) then Song.set_art_automatic image out
             else out in
  let out := Song.MergeUserSetData matching_song out in
  (* The song was deleted from the database, but has been restored. *)
  if Song.is_unavailable matching_song then push_new_song out
  else if negb (Song.IsMetadataEqual matching_song out) then
    (* Update the song in the DB *)
    push_new_song out
  else
    (* Only the mtime's changed *)
    push_touched_song out.

(** Key of [QHash<quint64, Song>]. *)
Definition to_quint64 (z : Z) : Z := z mod 2 ^ 64.

Fixpoint cue_sections_loop (file : QString) (image : QUrl) (sections_map : gmap Z Song.t)
    (cue_songs : SongList) (used_ids : gset Z) : M (gset Z) :=
  match cue_songs with
  | [] => ret used_ids
  | cue_song :: rest =>
      do w <- get_watcher;
      do t <- get_txn;
      let cue_song := Song.set_directory_id (Txn.dir_ t) (Song.set_source (source_ w) cue_song) in
      let matching :=
        default (Song.Song Song.Source_Unknown)
                (sections_map !! to_quint64 (Song.beginning_nanosec cue_song)) in
      if negb (Song.is_valid matching) then
        (* a new section *)
        do_ push_new_song cue_song;
        cue_sections_loop file image sections_map rest used_ids
      else
        (* changed section *)
        do_ PreserveUserSetData file image matching cue_song;
        cue_sections_loop file image sections_map rest ({[Song.id matching]} ∪ used_ids)
  end.

Definition UpdateCueAssociatedSongs (file path matching_cue : QString) (image : QUrl) : M unit :=
  do_ emit (Queried_GetSongsByUrl (fromLocalFile file));
  let old_sections := GetSongsByUrl W (fromLocalFile file) in
  let sections_map : gmap Z Song.t :=
    fold_left (fun m song => <[to_quint64 (Song.beginning_nanosec song) := song]> m)
              old_sections ∅ in
  (* Update every song that's in the cue and collection *)
  do_ emit (CueLoaded matching_cue path);
  do used_ids <- cue_sections_loop file image sections_map
                   (CueParser_Load W matching_cue path) ∅;
  (* sections that are now missing *)
  for_each old_sections (fun matching =>
    when (negb (bool_decide (Song.id matching ∈ used_ids))) (push_deleted_song matching)).

Definition UpdateNonCueAssociatedSong (file : QString) (matching_song : Song.t) (image : QUrl)
    (cue_deleted : bool) : M unit :=
  (* If a cue got deleted, we turn it's first section into the new 'raw'
     (cueless) song and we just remove the rest of the sections from the
     collection *)
  do_ when cue_deleted
        (do_ emit (Queried_GetSongsByUrl (fromLocalFile file));
         for_each (GetSongsByUrl W (fromLocalFile file)) (fun song =>
           when (negb (Song.IsMetadataEqual song matching_song)) (push_deleted_song song)));
  do w <- get_watcher;
  do t <- get_txn;
  let song_on_disk := Song.set_directory_id (Txn.dir_ t) (Song.Song (source_ w)) in
  do_ emit (TagRead file);
  let song_on_disk := ReadFileBlocking W file song_on_disk in
  when (Song.is_valid song_on_disk)
    (PreserveUserSetData file image matching_song song_on_disk).

(** The loop over the sections of a cue sheet in [ScanNewFile]. *)
Fixpoint accept_cue_songs (file file_nfd : QString) (cue_songs : SongList) (song_list : SongList)
  : M SongList :=
  match cue_songs with
  | [] => ret song_list
  | cue_song :: rest =>
      if String.eqb (normalized_D W (toLocalFile (Song.url cue_song))) file_nfd then
        do_ emit (MediaFileChecked file);
        if IsMediaFileBlocking W file then
          accept_cue_songs file file_nfd rest (song_list ++ [cue_song])
        else accept_cue_songs file file_nfd rest song_list
      else accept_cue_songs file file_nfd rest song_list
  end.

Definition ScanNewFile (file path matching_cue : QString) (cues_processed : gset string)
  : M (SongList * gset string) :=
  let matching_cue_mtime := GetMtimeForCue matching_cue in
  (* If it's a cue - create virtual tracks *)
  if negb (matching_cue_mtime =? 0) then
    (* don't process the same cue many times *)
    if bool_decide (matching_cue ∈ cues_processed) then ret ([], cues_processed)
    else
      do_ emit (CueLoaded matching_cue path);
      (* Ignore FILEs pointing to other media files.  Also, watch out for
         incorrect media files. *)
      let file_nfd := normalized_D W file in
      do song_list <- accept_cue_songs file file_nfd (CueParser_Load W matching_cue path) [];
      if negb (is_nil song_list) then ret (song_list, {[matching_cue]} ∪ cues_processed)
      else ret (song_list, cues_processed)
  else
    (* it's a normal media file *)
    do w <- get_watcher;
    do_ emit (TagRead file);
    let song := ReadFileBlocking W file (Song.Song (source_ w)) in
    if Song.is_valid song then ret ([Song.set_source (source_ w) song], cues_processed)
    else ret ([], cues_processed).

(* --------------------------------------------------------------------- *)
(** *** Album art *)

(** The loop over [best_image_filters_] in [PickBestImage]. *)
Fixpoint filter_images (filters : QStringList) (images : QStringList) (filtered : QStringList)
  : QStringList :=
  match filters with
  | [] => filtered
  | filter_text :: rest =>
      let filtered :=
        filtered ++ filter (fun image => contains_ci W (fileName image) filter_text) images in
      (* We assume the filters are give in the order best to worst, so if
         we've got a result, we go with it. *)
      if negb (is_nil filtered) then filtered else filter_images rest images filtered
  end.

(** The loop over the filtered images in [PickBestImage]. *)
Fixpoint biggest_image (paths : QStringList) (biggest_size : Z) (biggest_path : QString)
  : M QString :=
  match paths with
  | [] => ret biggest_path
  | p :: rest =>
      do stop <- read_stop_requested;
      if stop then ret biggest_path
      else
        do_ emit (ImageLoaded p);
        match QImage W p with
        | None => biggest_image rest biggest_size biggest_path
        | Some (width, height) =>
            let size := wrap_int (width * height) in
            if biggest_size <? size then biggest_image rest size p
            else biggest_image rest biggest_size biggest_path
        end
  end.

Definition PickBestImage (images : QStringList) : M QString :=
  do w <- get_watcher;
  let filtered := filter_images (best_image_filters_ w) images [] in
  (* The filter was too restrictive, just use the original list *)
  let filtered := if is_nil filtered then images else filtered in
  biggest_image filtered 0 EmptyString.

Definition ImageForSong (p : QString) (album_art : gmap string (list string))
  : M (QUrl * gmap string (list string)) :=
  let dir := DirectoryPart W p in
  match album_art !! dir with
  | Some images =>
      if (length images =? 1)%nat then ret (fromLocalFile (nth 0 images EmptyString), album_art)
      else
        do best_image <- PickBestImage images;
        ret (fromLocalFile best_image, <[dir := [best_image]]> album_art)
  | None => ret (QUrl_empty, album_art)
  end.

(* --------------------------------------------------------------------- *)
(** *** ScanSubdirectory: the disk listing pass *)

(** What the listing pass collects. *)
Record Listing : Type := mkListing {
  album_art : gmap string (list string);
  files_on_disk : QStringList;
  my_new_subdirs : SubdirectoryList
}.

(** The body of [while (it.hasNext())] for one child.  [None] stands for the
    [return] taken when a stop was requested. *)
Definition list_child (child : QString) (acc : Listing) : M (option Listing) :=
  do stop <- read_stop_requested;
  if stop then ret None
  else if isDir W child then
    if negb (isHidden W child) then
      do seen <- HasSeenSubdir child;
      if negb seen then
        (* We haven't seen this subdirectory before *)
        let new_subdir := {| directory_id := -1; path := child;
                             mtime := toTime_t (lastModified W child) |} in
        ret (Some {| album_art := album_art acc; files_on_disk := files_on_disk acc;
                     my_new_subdirs := my_new_subdirs acc ++ [new_subdir] |})
      else ret (Some acc)
    else ret (Some acc)
  else
    let ext_part := ExtensionPart W child in
    let dir_part := DirectoryPart W child in
    if list_contains sValidImages ext_part then
      ret (Some {| album_art := <[dir_part := default [] (album_art acc !! dir_part) ++ [child]]>
                                  (album_art acc);
                   files_on_disk := files_on_disk acc;
                   my_new_subdirs := my_new_subdirs acc |})
    else if negb (isHidden W child) then
      ret (Some {| album_art := album_art acc; files_on_disk := files_on_disk acc ++ [child];
                   my_new_subdirs := my_new_subdirs acc |})
    else ret (Some acc).

Fixpoint list_children (children : QStringList) (acc : Listing) : M (option Listing) :=
  match children with
  | [] => ret (Some acc)
  | child :: rest =>
      do r <- list_child child acc;
      match r with
      | None => ret None
      | Some acc' => list_children rest acc'
      end
  end.

(* --------------------------------------------------------------------- *)
(** *** ScanSubdirectory: the loop over the files on disk *)

(** [files_on_disk] while the range-for loop over it runs.  The loop takes
    [begin()] and [end()] once, and its body may call
    [files_on_disk.removeAll(file)].  [QList<QString>] keeps its elements in
    place in one array; [removeAll] moves the later elements down over the
    removed ones and lowers the end of the list, and leaves the array slots
    past the new end as they were.  [slots] is that array, [used] the number
    of slots that belong to the list. *)
Record FileList : Type := mkFileList { slots : QStringList; used : nat }.

Definition contents (fl : FileList) : QStringList := firstn (used fl) (slots fl).

Definition FileList_of (l : QStringList) : FileList := {| slots := l; used := length l |}.

Definition removeAll (x : QString) (fl : FileList) : FileList :=
  let kept := filter (fun y => negb (String.eqb y x)) (contents fl) in
  {| slots := kept ++ skipn (length kept) (slots fl); used := length kept |}.

(** What the loop over the files carries from one file to the next. *)
Record FileLoop : Type := mkFileLoop {
  loop_album_art : gmap string (list string);
  loop_files_on_disk : FileList;
  cues_processed : gset string
}.

Definition art_changed (matching_song : Song.t) (image : QUrl) : bool :=
  (QUrl_isEmpty (Song.art_automatic matching_song) && negb (QUrl_isEmpty image))
  || (negb (QUrl_isEmpty (Song.art_automatic matching_song))
      && negb (Song.has_embedded_cover matching_song)
      && negb (exists_ W (toLocalFile (Song.art_automatic matching_song)))).

(** The body of [for (const QString &file : files_on_disk)] for one file.
    [None] stands for the [return] taken when a stop was requested. *)
Definition scan_file (p : QString) (songs_in_db : SongList) (file : QString) (ls : FileLoop)
  : M (option FileLoop) :=
  do stop <- read_stop_requested;
  if stop then ret None
  else
    (* associated cue *)
    let matching_cue := NoExtensionPart W file +:+ ".cue" in
    match FindSongByPath songs_in_db file with
    | Some matching_song =>
        let matching_cue_mtime := GetMtimeForCue matching_cue in
        (* The song is in the database and still on disk. *)
        if negb (exists_ W file) then
          (* Partially fixes race condition - if file was removed between
             being added to the list and now. *)
          ret (Some {| loop_album_art := loop_album_art ls;
                       loop_files_on_disk := removeAll file (loop_files_on_disk ls);
                       cues_processed := cues_processed ls |})
        else
          (* cue sheet's path from collection (if any) *)
          let song_cue := Song.cue_path matching_song in
          let song_cue_mtime := GetMtimeForCue song_cue in
          let cue_deleted := (song_cue_mtime =? 0) && Song.has_cue matching_song in
          let cue_added := negb (matching_cue_mtime =? 0) && negb (Song.has_cue matching_song) in
          let changed :=
            negb (Song.mtime matching_song
                  =? qMax (toTime_t (lastModified W file)) song_cue_mtime)
            || cue_deleted || cue_added in
          (* Also want to look to see whether the album art has changed *)
          do ia <- ImageForSong file (loop_album_art ls);
          let image := fst ia in
          let changed := if art_changed matching_song image then true else changed in
          do t <- get_txn;
          (* the song's changed - reread the metadata from file *)
          do_ when (Txn.ignores_mtime_ t || changed)
                (if negb cue_deleted && (Song.has_cue matching_song || cue_added) then
                   UpdateCueAssociatedSongs file p matching_cue image
                 else
                   UpdateNonCueAssociatedSong file matching_song image cue_deleted);
          (* nothing has changed - mark the song available without re-scanning *)
          do_ when (Song.is_unavailable matching_song) (push_readded_song matching_song);
          ret (Some {| loop_album_art := snd ia;
                       loop_files_on_disk := loop_files_on_disk ls;
                       cues_processed := cues_processed ls |})
    | None =>
        (* The song is on disk but not in the DB *)
        do r <- ScanNewFile file p matching_cue (cues_processed ls);
        let song_list := fst r in
        if is_nil song_list then
          ret (Some {| loop_album_art := loop_album_art ls;
                       loop_files_on_disk := loop_files_on_disk ls;
                       cues_processed := snd r |})
        else
          (* choose an image for the song(s) *)
          do ia <- ImageForSong file (loop_album_art ls);
          let image := fst ia in
          do_ for_each song_list (fun song =>
                do t <- get_txn;
                let song := Song.set_directory_id (Txn.dir_ t) song in
                let song := if QUrl_isEmpty (Song.art_automatic song)
                            then Song.set_art_automatic image song else song in
                push_new_song song);
          ret (Some {| loop_album_art := snd ia;
                       loop_files_on_disk := loop_files_on_disk ls;
                       cues_processed := snd r |})
    end.

(** The loop itself: [n] iterations are left and the iterator stands on
    slot [i] of the array as it is now. *)
Fixpoint scan_files (n : nat) (i : nat) (p : QString) (songs_in_db : SongList) (ls : FileLoop)
  : M (option FileLoop) :=
  match n with
  | O => ret (Some ls)
  | S n' =>
      match slots (loop_files_on_disk ls) !! i with
      | None => ret (Some ls)
      | Some file =>
          do r <- scan_file p songs_in_db file ls;
          match r with
          | None => ret None
          | Some ls' => scan_files n' (S i) p songs_in_db ls'
          end
      end
  end.

(** Look for deleted songs. *)
Definition look_for_deleted_songs (songs_in_db : SongList) (files : FileList) : M unit :=
  for_each songs_in_db (fun song =>
    when (negb (Song.is_unavailable song)
          && negb (list_contains (contents files) (toLocalFile (Song.url song))))
      (push_deleted_song song)).

(** Add this subdir to the new or touched list. *)
Definition record_subdir (p : QString) (subdir : Subdirectory) : M unit :=
  do t <- get_txn;
  let updated_subdir :=
    {| directory_id := Txn.dir_ t;
       path := p;
       mtime := if exists_ W p then toTime_t (lastModified W p) else 0 |} in
  do_ (if directory_id subdir =? -1 then
         modify_txn (fun t => Txn.set_new_subdirs (Txn.new_subdirs t ++ [updated_subdir]) t)
       else
         modify_txn (fun t => Txn.set_touched_subdirs
                                (Txn.touched_subdirs t ++ [updated_subdir]) t));
  (* Subdirectory deleted, mark it for removal from the watcher. *)
  when (mtime updated_subdir =? 0)
    (modify_txn (fun t => Txn.set_deleted_subdirs (Txn.deleted_subdirs t ++ [updated_subdir]) t)).

(** From the disk listing to the search for deleted songs: the part of one
    visit that reconciles the files on disk with the stored songs.  The
    result is [None] when a stop request made the visit return, and else the
    new subdirectories found by the listing. *)
Definition reconcile_files (p : QString) : M (option SubdirectoryList) :=
  do_ emit (DirListed p);
  do r <- list_children (QDirIterator W p)
            {| album_art := ∅; files_on_disk := []; my_new_subdirs := [] |};
  match r with
  | None => ret None
  | Some l =>
      do stop <- read_stop_requested;
      if stop then ret None
      else
        (* Ask the database for a list of files in this directory *)
        do songs_in_db <- FindSongsInSubdirectory p;
        (* Now compare the list from the database with the list of files on disk *)
        do r <- scan_files (length (files_on_disk l)) 0 p songs_in_db
                  {| loop_album_art := album_art l;
                     loop_files_on_disk := FileList_of (files_on_disk l);
                     cues_processed := ∅ |};
        match r with
        | None => ret None
        | Some ls =>
            do_ look_for_deleted_songs songs_in_db (loop_files_on_disk ls);
            ret (Some (my_new_subdirs l))
        end
  end.

(** One visit without its recursive calls: the listing, the reconciliation,
    the record of the subdirectory itself, the progress unit and the commit
    of live scanning. *)
Definition visit_subdirectory (p : QString) (subdir : Subdirectory)
  : M (option SubdirectoryList) :=
  do r <- reconcile_files p;
  match r with
  | None => ret None
  | Some new_subdirs =>
      do_ record_subdir p subdir;
      do_ AddToProgress 1;
      do w <- get_watcher;
      do_ when (live_scanning_ w) CommitNewOrUpdatedSongs;
      ret (Some new_subdirs)
  end.

(* --------------------------------------------------------------------- *)
(** *** ScanSubdirectory *)

(** Do not scan symlinked dirs that are already in collection. *)
Definition symlink_in_collection (w : CollectionWatcher) (p : QString) : bool :=
  isSymLink W p
  && existsb (fun d => startsWith (symLinkTarget W p) (dir_path (snd d)))
             (map_to_list (watched_dirs_ w)).

(** Do not scan directories containing a .nomedia or .nomusic file. *)
Definition has_marker_file (p : QString) : bool :=
  QDir_exists W p kNoMediaFile || QDir_exists W p kNoMusicFile.

(** The directory hasn't changed since last time. *)
Definition unchanged_since_last_time (t : Txn.t) (p : QString) (subdir : Subdirectory)
    (force_noincremental : bool) : bool :=
  negb (Txn.ignores_mtime_ t) && negb force_noincremental && Txn.incremental_ t
  && (to_uint (mtime subdir) =? toTime_t (lastModified W p)).

(** A loop whose body is a call that may run out of fuel. *)
Fixpoint for_each_call {A} (l : list A) (body : A -> St -> option St) (st : St) : option St :=
  match l with
  | [] => Some st
  | x :: l' =>
      match body x st with
      | None => None
      | Some st' => for_each_call l' body st'
      end
  end.

(** The loop that recurses into the new subdirectories; it returns at the
    first stop request it reads. *)
Fixpoint for_each_until_stop {A} (l : list A) (body : A -> St -> option St) (st : St)
  : option St :=
  match l with
  | [] => Some st
  | x :: l' =>
      let (stop, st1) := read_stop_requested st in
      if stop then Some st1
      else match body x st1 with
           | None => None
           | Some st2 => for_each_until_stop l' body st2
           end
  end.

(** [ScanSubdirectory(path, subdir, t, force_noincremental)].  The walk need
    not end (a symlink may lead back into the tree), so the recursion is
    bounded by [fuel]; [None] is the answer when the fuel runs out. *)
Fixpoint ScanSubdirectory (fuel : nat) (p : QString) (subdir : Subdirectory)
    (force_noincremental : bool) (st : St) : option St :=
  match fuel with
  | O => None
  | S fuel' =>
      let st := snd (emit (ScanSubdirectory_entered p) st) in
      if symlink_in_collection (watcher (env st)) p then Some (snd (AddToProgress 1 st))
      else if has_marker_file p then Some (snd (AddToProgress 1 st))
      else if unchanged_since_last_time (txn st) p subdir force_noincremental then
        Some (snd (AddToProgress 1 st))
      else
        (* If a directory is moved then only its parent gets a changed
           notification, so we need to look and see if any of our children
           don't exist any more. *)
        let (previous_subdirs, st) := GetImmediateSubdirs p st in
        match for_each_call previous_subdirs
                (fun prev_subdir st =>
                   if negb (exists_ W (path prev_subdir))
                      && negb (String.eqb (path prev_subdir) p)
                   then ScanSubdirectory fuel' (path prev_subdir) prev_subdir true
                          (snd (AddToProgressMax 1 st))
                   else Some st)
                st with
        | None => None
        | Some st =>
            let (r, st) := visit_subdirectory p subdir st in
            match r with
            | None => Some st
            | Some new_subdirs =>
                (* Recurse into the new subdirs that we found *)
                let st := snd (AddToProgressMax (wrap_int (Z.of_nat (length new_subdirs))) st) in
                for_each_until_stop new_subdirs
                  (fun my_new_subdir st =>
                     ScanSubdirectory fuel' (path my_new_subdir) my_new_subdir true st)
                  st
            end
        end
  end.

End Scanner.

(* ===================================================================== *)
(** ** The live monitor and the entry points of the watcher *)

(** The members of [CollectionWatcher] that queue rescans: the queue of
    changed subdirectories per directory id, the pause flag, and whether the
    single-shot rescan timer has been started. *)
Record LiveMonitor : Type := mkLiveMonitor {
  rescan_queue_ : gmap Z (list string);
  rescan_paused_ : bool;
  rescan_timer_started : bool
}.

Definition set_watched_dirs (d : gmap Z Directory) (w : CollectionWatcher) :=
  {| source_ := source_ w; device_name_ := device_name_ w;
     watched_dirs_ := d; subdir_mapping_ := subdir_mapping_ w;
     scan_on_startup_ := scan_on_startup_ w; monitor_ := monitor_ w;
     live_scanning_ := live_scanning_ w;
     watcher_prevent_delete_ := watcher_prevent_delete_ w;
     best_image_filters_ := best_image_filters_ w |}.

(** An effect outside any transaction. *)
Definition emit_env (eff : Effect) (e : Env) : Env :=
  {| watcher := watcher e; trace := trace e ++ [eff]; polls := polls e |}.


(** The paths [subdir_mapping_.keys(dir)]: those mapped to a directory equal
    to [dir].  A [QHash] yields them in no particular order; here they come
    in the order of [map_to_list]. *)
Definition keys_of (dir : Directory) (mapping : gmap string Directory) : list QString :=
  map fst (filter (fun kv => Directory_eqb (snd kv) dir) (map_to_list mapping)).

(** [RemoveDirectory(dir)]. *)
Definition RemoveDirectory (dir : Directory) (em : Env * LiveMonitor) : Env * LiveMonitor :=
  let (e, m) := em in
  let w := watcher e in
  (* Stop watching the directory's subdirectories *)
  let paths := keys_of dir (subdir_mapping_ w) in
  ({| watcher :=
        set_subdir_mapping (fold_left (fun mapping p => delete p mapping) paths
                                      (subdir_mapping_ w))
          (set_watched_dirs (delete (dir_id dir) (watched_dirs_ w)) w);
      trace := trace e ++ map RemovePath paths;
      polls := polls e |},
   {| rescan_queue_ := delete (dir_id dir) (rescan_queue_ m);
      rescan_paused_ := rescan_paused_ m;
      rescan_timer_started := rescan_timer_started m |}).

Section EntryPoints.

Variable W : World.

(** One read of [stop_requested_] outside a transaction. *)
Definition read_stop_requested_env (e : Env) : bool * Env :=
  (stop_requested_ W (polls e),
   {| watcher := watcher e; trace := trace e; polls := S (polls e) |}).

(** [AddDirectory(dir, subdirs)]; [None] when the walk runs out of fuel. *)
Definition AddDirectory (fuel : nat) (dir : Directory) (subdirs : SubdirectoryList) (e : Env)
  : option Env :=
  let e := {| watcher := set_watched_dirs (<[dir_id dir := dir]> (watched_dirs_ (watcher e)))
                           (watcher e);
              trace := trace e; polls := polls e |} in
  let scanned :=
    if is_nil subdirs then
      (* This is a new directory that we've never seen before. Scan it fully. *)
      let st := ScanTransaction_ctor W e (dir_id dir) false false
                  (watcher_prevent_delete_ (watcher e)) in
      let st := snd (SetKnownSubdirs subdirs st) in
      let st := snd (AddToProgressMax 1 st) in
      match ScanSubdirectory W fuel (dir_path dir) Subdirectory_default false st with
      | Some st => Some (ScanTransaction_dtor W st)
      | None => None
      end
    else
      (* We can do an incremental scan - looking at the mtimes of each
         subdirectory and only rescan if the directory has changed. *)
      let st := ScanTransaction_ctor W e (dir_id dir) true false
                  (watcher_prevent_delete_ (watcher e)) in
      let st := snd (SetKnownSubdirs subdirs st) in
      let st := snd (AddToProgressMax (wrap_int (Z.of_nat (length subdirs))) st) in
      match for_each_until_stop W subdirs
              (fun subdir st =>
                 match (if scan_on_startup_ (watcher (env st))
                        then ScanSubdirectory W fuel (path subdir) subdir false st
                        else Some st) with
                 | Some st =>
                     Some (if monitor_ (watcher (env st))
                           then snd (AddWatch W dir (path subdir) st) else st)
                 | None => None
                 end)
              st with
      | Some st => Some (ScanTransaction_dtor W st)
      | None => None
      end in
  match scanned with
  | Some e => Some (emit_env CompilationsNeedUpdating e)
  | None => None
  end.

(** The loop of [RescanPathsNow] over the directory ids of the queue. *)
Fixpoint rescan_directories (fuel : nat) (queue : gmap Z (list string)) (dirs : list Z)
    (e : Env) : option Env :=
  match dirs with
  | [] => Some e
  | dir :: rest =>
      let (stop, e) := read_stop_requested_env e in
      if stop then Some e
      else
        let st := ScanTransaction_ctor W e dir false false
                    (watcher_prevent_delete_ (watcher e)) in
        let paths := default [] (queue !! dir) in
        let st := snd (AddToProgressMax (wrap_int (Z.of_nat (length paths))) st) in
        match for_each_until_stop W paths
                (fun p st =>
                   ScanSubdirectory W fuel p {| directory_id := dir; path := p; mtime := 0 |}
                     false st)
                st with
        | Some st => rescan_directories fuel queue rest (ScanTransaction_dtor W st)
        | None => None
        end
  end.

(** [RescanPathsNow()]: [rescan_queue_.keys()] of a [QMap] are in ascending
    order. *)
Definition RescanPathsNow (fuel : nat) (em : Env * LiveMonitor) : option (Env * LiveMonitor) :=
  let (e, m) := em in
  match rescan_directories fuel (rescan_queue_ m)
          (merge_sort Z.le (map fst (map_to_list (rescan_queue_ m)))) e with
  | Some e =>
      Some (emit_env CompilationsNeedUpdating e,
            {| rescan_queue_ := ∅; rescan_paused_ := rescan_paused_ m;
               rescan_timer_started := rescan_timer_started m |})
  | None => None
  end.

(** [SetRescanPaused(pause)]. *)
Definition SetRescanPaused (fuel : nat) (pause : bool) (em : Env * LiveMonitor)
  : option (Env * LiveMonitor) :=
  let (e, m) := em in
  let m := {| rescan_queue_ := rescan_queue_ m; rescan_paused_ := pause;
              rescan_timer_started := rescan_timer_started m |} in
  if negb pause && negb (bool_decide (rescan_queue_ m = ∅)) then RescanPathsNow fuel (e, m)
  else Some (e, m).

End EntryPoints.

(* ===================================================================== *)
(** * Vocabulary of the properties *)

(** A signal is emitted for a non-empty batch only. *)
Definition batch {A} (signal : list A -> Effect) (l : list A) : list Effect :=
  if is_nil l then [] else [signal l].

(** State with more effects in its trace, with another transaction, with
    another [subdir_mapping_]. *)
Definition add_effects (es : list Effect) (st : St) : St :=
  {| env := {| watcher := watcher (env st); trace := trace (env st) ++ es;
               polls := polls (env st) |};
     txn := txn st |}.

Definition with_txn (t : Txn.t) (st : St) : St := {| env := env st; txn := t |}.

Definition with_subdir_mapping (m : gmap string Directory) (st : St) : St :=
  {| env := {| watcher := set_subdir_mapping m (watcher (env st)); trace := trace (env st);
               polls := polls (env st) |};
     txn := txn st |}.

Definition with_polls (n : nat) (st : St) : St :=
  {| env := {| watcher := watcher (env st); trace := trace (env st); polls := n |};
     txn := txn st |}.

(** The list of known subdirectories a transaction works with: what it has
    cached, or what the backend holds when it has cached nothing yet. *)
Definition known_subdirs_of (W : World) (st : St) : SubdirectoryList :=
  if Txn.known_subdirs_dirty_ (txn st) then SubdirsInDirectory W (Txn.dir_ (txn st))
  else Txn.known_subdirs_ (txn st).

(** The paths whose watch a commit removes, and the mapping it leaves:
    [dir] is the watched directory of the transaction, if it is watched. *)
Fixpoint removed_paths (dir : option Directory) (m : gmap string Directory)
    (l : SubdirectoryList) : list QString :=
  match l with
  | [] => []
  | subdir :: l' =>
      match dir, m !! path subdir with
      | Some d, Some d' =>
          if Directory_eqb d' d then path subdir :: removed_paths dir (delete (path subdir) m) l'
          else removed_paths dir m l'
      | _, _ => removed_paths dir m l'
      end
  end.

Fixpoint mapping_after_remove (dir : option Directory) (m : gmap string Directory)
    (l : SubdirectoryList) : gmap string Directory :=
  match l with
  | [] => m
  | subdir :: l' =>
      match dir, m !! path subdir with
      | Some d, Some d' =>
          if Directory_eqb d' d then mapping_after_remove dir (delete (path subdir) m) l'
          else mapping_after_remove dir m l'
      | _, _ => mapping_after_remove dir m l'
      end
  end.

(** The paths a commit starts to watch. *)
Definition added_paths (W : World) (dir : option Directory) (l : SubdirectoryList)
  : list QString :=
  match dir with
  | Some _ => filter (fun p => exists_ W p = true) (map path l)
  | None => []
  end.

Definition mapping_after_add (dir : option Directory) (m : gmap string Directory)
    (added : list QString) : gmap string Directory :=
  match dir with
  | Some d => fold_left (fun m p => <[p := d]> m) added m
  | None => m
  end.

(** The signals of a commit, in the order of emission. *)
Definition commit_signals (t : Txn.t) : list Effect :=
  batch NewOrUpdatedSongs (Txn.new_songs t)
  ++ batch SongsMTimeUpdated (Txn.touched_songs t)
  ++ (if Txn.prevent_delete_ t then [] else batch SongsDeleted (Txn.deleted_songs t))
  ++ batch SongsReadded (Txn.readded_songs t)
  ++ batch SubdirsDiscovered (Txn.new_subdirs t)
  ++ batch SubdirsMTimeUpdated (Txn.touched_subdirs t).

(** The transaction a commit leaves. *)
Definition committed (t : Txn.t) : Txn.t :=
  {| Txn.progress_ := Txn.progress_ t; Txn.progress_max_ := Txn.progress_max_ t;
     Txn.dir_ := Txn.dir_ t; Txn.incremental_ := Txn.incremental_ t;
     Txn.ignores_mtime_ := Txn.ignores_mtime_ t; Txn.prevent_delete_ := Txn.prevent_delete_ t;
     Txn.task_id_ := Txn.task_id_ t;
     Txn.cached_songs_ := Txn.cached_songs_ t;
     Txn.cached_songs_dirty_ := Txn.cached_songs_dirty_ t;
     Txn.known_subdirs_ := Txn.known_subdirs_ t;
     Txn.known_subdirs_dirty_ := Txn.known_subdirs_dirty_ t;
     Txn.new_songs := []; Txn.touched_songs := [];
     Txn.deleted_songs := if Txn.prevent_delete_ t then Txn.deleted_songs t else [];
     Txn.readded_songs := []; Txn.new_subdirs := []; Txn.touched_subdirs := [];
     Txn.deleted_subdirs := [] |}.

Definition is_commit_signal (e : Effect) : bool :=
  match e with
  | NewOrUpdatedSongs _ | SongsMTimeUpdated _ | SongsDeleted _ | SongsReadded _
  | SubdirsDiscovered _ | SubdirsMTimeUpdated _ => true
  | _ => false
  end.

(* ===================================================================== *)
(** * Worlds and states for examples *)

(** The bodies of the static helpers as the scanner uses them on slash
    separated paths: the text before the last dot, the lower-cased text after
    it, and the text before the last slash. *)
Definition example_NoExtensionPart (fileName : QString) : QString :=
  if contains_char "." fileName then left (lastIndexOf "." fileName) fileName else EmptyString.

Definition example_ExtensionPart (fileName : QString) : QString :=
  if contains_char "." fileName then toLower (mid (lastIndexOf "." fileName + 1) fileName)
  else EmptyString.

(** A world with an empty disk and an empty collection, in which nobody asks
    the scanner to stop. *)
Definition empty_world : World :=
  {| isSymLink := fun _ => false;
     symLinkTarget := fun _ => EmptyString;
     exists_ := fun _ => false;
     lastModified := fun _ => None;
     isDir := fun _ => false;
     isHidden := fun _ => false;
     QDir_exists := fun _ _ => false;
     QDirIterator := fun _ => [];
     QImage := fun _ => None;
     ReadFileBlocking := fun _ song => song;
     IsMediaFileBlocking := fun _ => false;
     CueParser_Load := fun _ _ => [];
     FindSongsInDirectory := fun _ => [];
     SubdirsInDirectory := fun _ => [];
     GetSongsByUrl := fun _ => [];
     StartTask := fun _ => 1;
     stop_requested_ := fun _ => false;
     ExtensionPart := example_ExtensionPart;
     DirectoryPart := section_dir;
     NoExtensionPart := example_NoExtensionPart;
     normalized_D := fun s => s;
     toCaseFolded := toLower |}.

(** The same world when a stop has been requested. *)
Definition with_stop_requested (stop : nat -> bool) (W : World) : World :=
  {| isSymLink := isSymLink W; symLinkTarget := symLinkTarget W; exists_ := exists_ W;
     lastModified := lastModified W; isDir := isDir W; isHidden := isHidden W;
     QDir_exists := QDir_exists W; QDirIterator := QDirIterator W; QImage := QImage W;
     ReadFileBlocking := ReadFileBlocking W; IsMediaFileBlocking := IsMediaFileBlocking W;
     CueParser_Load := CueParser_Load W; FindSongsInDirectory := FindSongsInDirectory W;
     SubdirsInDirectory := SubdirsInDirectory W; GetSongsByUrl := GetSongsByUrl W;
     StartTask := StartTask W; stop_requested_ := stop;
     ExtensionPart := ExtensionPart W; DirectoryPart := DirectoryPart W;
     NoExtensionPart := NoExtensionPart W; normalized_D := normalized_D W;
     toCaseFolded := toCaseFolded W |}.

Definition example_watcher : CollectionWatcher :=
  {| source_ := Song.Source_Collection; device_name_ := EmptyString;
     watched_dirs_ := {[ 1 := {| dir_id := 1; dir_path := "/music" |} ]};
     subdir_mapping_ := ∅;
     scan_on_startup_ := true; monitor_ := true; live_scanning_ := false;
     watcher_prevent_delete_ := false;
     best_image_filters_ := ["front"; "cover"] |}.

Definition example_env : Env := {| watcher := example_watcher; trace := []; polls := 0 |}.

(** A song of the collection stored for [file]. *)
Definition stored_song (id : Z) (file : QString) (mtime : Z) : Song.t :=
  {| Song.valid_ := true; Song.id_ := id; Song.title_ := "title"; Song.album_ := "album";
     Song.artist_ := "artist"; Song.albumartist_ := EmptyString; Song.track_ := 1;
     Song.disc_ := -1; Song.year_ := -1; Song.originalyear_ := -1; Song.genre_ := EmptyString;
     Song.compilation_ := false; Song.composer_ := EmptyString;
     Song.performer_ := EmptyString; Song.grouping_ := EmptyString;
     Song.comment_ := EmptyString; Song.lyrics_ := EmptyString; Song.artist_id_ := -1;
     Song.album_id_ := EmptyString; Song.song_id_ := -1; Song.beginning_ := 0;
     Song.end_ := 1000; Song.bitrate_ := 320; Song.samplerate_ := 44100;
     Song.bitdepth_ := 16; Song.source_ := Song.Source_Collection; Song.directory_id_ := 1;
     Song.url_ := fromLocalFile file; Song.mtime_ := mtime; Song.unavailable_ := false;
     Song.playcount_ := 3; Song.skipcount_ := 0; Song.lastplayed_ := -1;
     Song.art_automatic_ := QUrl_empty; Song.art_manual_ := QUrl_empty;
     Song.cue_path_ := EmptyString |}.

(** An open, full-scan transaction of directory 1 with a deleted song and a
    new subdirectory pending. *)
Definition example_pending : St :=
  let st := ScanTransaction_ctor empty_world example_env 1 false false false in
  {| env := env st;
     txn := Txn.set_new_subdirs [ {| directory_id := 1; path := "/music/new"; mtime := 5 |} ]
              (Txn.set_deleted_songs [stored_song 7 "/music/a.mp3" 10] (txn st)) |}.

(** A collection in which "/music/old" was known once and has been deleted,
    and a disk on which a directory of that name is back. *)
Definition world_with_deleted_subdir : World :=
  {| isSymLink := fun _ => false;
     symLinkTarget := fun _ => EmptyString;
     exists_ := fun p => String.eqb p "/music/old";
     lastModified := fun p => if String.eqb p "/music/old" then Some 1700 else None;
     isDir := fun p => String.eqb p "/music/old";
     isHidden := fun _ => false;
     QDir_exists := fun _ _ => false;
     QDirIterator := fun p => if String.eqb p "/music" then ["/music/old"] else [];
     QImage := fun _ => None;
     ReadFileBlocking := fun _ song => song;
     IsMediaFileBlocking := fun _ => false;
     CueParser_Load := fun _ _ => [];
     FindSongsInDirectory := fun _ => [];
     SubdirsInDirectory := fun _ => [ {| directory_id := 1; path := "/music/old"; mtime := 0 |} ];
     GetSongsByUrl := fun _ => [];
     StartTask := fun _ => 1;
     stop_requested_ := fun _ => false;
     ExtensionPart := example_ExtensionPart;
     DirectoryPart := section_dir;
     NoExtensionPart := example_NoExtensionPart;
     normalized_D := fun s => s;
     toCaseFolded := toLower |}.

Definition empty_listing : Listing :=
  {| album_art := ∅; files_on_disk := []; my_new_subdirs := [] |}.

(** A disk on which the directory "/music/a" was last modified at second
    1700 and holds one file. *)
Definition world_with_unchanged_subdir : World :=
  {| isSymLink := fun _ => false;
     symLinkTarget := fun _ => EmptyString;
     exists_ := fun _ => true;
     lastModified := fun p => if String.eqb p "/music/a" then Some 1700 else Some 1800;
     isDir := fun _ => false;
     isHidden := fun _ => false;
     QDir_exists := fun _ _ => false;
     QDirIterator := fun p => if String.eqb p "/music/a" then ["/music/a/1.mp3"] else [];
     QImage := fun _ => None;
     ReadFileBlocking := fun _ song => song;
     IsMediaFileBlocking := fun _ => false;
     CueParser_Load := fun _ _ => [];
     FindSongsInDirectory := fun _ => [];
     SubdirsInDirectory := fun _ => [ {| directory_id := 1; path := "/music/a"; mtime := 1700 |} ];
     GetSongsByUrl := fun _ => [];
     StartTask := fun _ => 1;
     stop_requested_ := fun _ => false;
     ExtensionPart := example_ExtensionPart;
     DirectoryPart := section_dir;
     NoExtensionPart := example_NoExtensionPart;
     normalized_D := fun s => s;
     toCaseFolded := toLower |}.

(** The pixel area of an image as [PickBestImage] computes it, in [int]. *)
Definition area (W : World) (p : QString) : option Z :=
  match QImage W p with
  | Some (width, height) => Some (wrap_int (width * height))
  | None => None
  end.

(** The images whose file name contains the filter text. *)
Definition matches (W : World) (filter_text : QString) (images : QStringList) : QStringList :=
  filter (fun image => contains_ci W (fileName image) filter_text) images.

(** The images the size comparison runs over: the matches of the first
    filter that matches any image, and all images when no filter does. *)
Definition candidates (W : World) (filters images : QStringList) : QStringList :=
  match find (fun filter_text => negb (is_nil (matches W filter_text images))) filters with
  | Some filter_text => matches W filter_text images
  | None => images
  end.

(** A directory with a cover.jpg of 300x300 pixels, a larger folder.jpg and
    one readable music file. *)
Definition world_with_art (cover : option (Z * Z)) : World :=
  {| isSymLink := fun _ => false;
     symLinkTarget := fun _ => EmptyString;
     exists_ := fun p =>
       list_contains ["/music/a"; "/music/a/cover.jpg"; "/music/a/folder.jpg";
                      "/music/a/1.mp3"] p;
     lastModified := fun _ => Some 1700;
     isDir := fun _ => false;
     isHidden := fun _ => false;
     QDir_exists := fun _ _ => false;
     QDirIterator := fun p =>
       if String.eqb p "/music/a"
       then ["/music/a/1.mp3"; "/music/a/cover.jpg"; "/music/a/folder.jpg"] else [];
     QImage := fun p =>
       if String.eqb p "/music/a/cover.jpg" then cover
       else if String.eqb p "/music/a/folder.jpg" then Some (500, 500) else None;
     ReadFileBlocking := fun file song =>
       Song.set_source (Song.source_ song)
         (Song.set_directory_id (Song.directory_id_ song) (stored_song (-1) file 1700));
     IsMediaFileBlocking := fun _ => true;
     CueParser_Load := fun _ _ => [];
     FindSongsInDirectory := fun _ => [];
     SubdirsInDirectory := fun _ => [];
     GetSongsByUrl := fun _ => [];
     StartTask := fun _ => 1;
     stop_requested_ := fun _ => false;
     ExtensionPart := example_ExtensionPart;
     DirectoryPart := section_dir;
     NoExtensionPart := example_NoExtensionPart;
     normalized_D := fun s => s;
     toCaseFolded := toLower |}.

(** How the walker files a song of a new file: under the directory of the
    transaction, with the chosen image when the song brings no art. *)
Definition filed_as_new (dir : Z) (image : QUrl) (song : Song.t) : Song.t :=
  let song := Song.set_directory_id dir song in
  if QUrl_isEmpty (Song.art_automatic song) then Song.set_art_automatic image song else song.

(** The sections of a cue sheet that refer to [file]. *)
Definition sections_referring_to (W : World) (file : QString) (cue_songs : SongList) : SongList :=
  filter (fun cue_song =>
            String.eqb (normalized_D W (toLocalFile (Song.url cue_song))) (normalized_D W file))
         cue_songs.

Definition is_TagRead (e : Effect) : bool :=
  match e with TagRead _ => true | _ => false end.

Definition is_CueLoaded (e : Effect) : bool :=
  match e with CueLoaded _ _ => true | _ => false end.

(** A section of a cue sheet stored for [file], starting at [beginning]. *)
Definition cue_section (id : Z) (file cue : QString) (beginning : Z) : Song.t :=
  {| Song.valid_ := true; Song.id_ := id; Song.title_ := "section"; Song.album_ := "album";
     Song.artist_ := "artist"; Song.albumartist_ := EmptyString; Song.track_ := id;
     Song.disc_ := -1; Song.year_ := -1; Song.originalyear_ := -1; Song.genre_ := EmptyString;
     Song.compilation_ := false; Song.composer_ := EmptyString;
     Song.performer_ := EmptyString; Song.grouping_ := EmptyString;
     Song.comment_ := EmptyString; Song.lyrics_ := EmptyString; Song.artist_id_ := -1;
     Song.album_id_ := EmptyString; Song.song_id_ := -1; Song.beginning_ := beginning;
     Song.end_ := beginning + 1000; Song.bitrate_ := 320; Song.samplerate_ := 44100;
     Song.bitdepth_ := 16; Song.source_ := Song.Source_Collection; Song.directory_id_ := 1;
     Song.url_ := fromLocalFile file; Song.mtime_ := 1700; Song.unavailable_ := false;
     Song.playcount_ := 0; Song.skipcount_ := 0; Song.lastplayed_ := -1;
     Song.art_automatic_ := QUrl_empty; Song.art_manual_ := QUrl_empty;
     Song.cue_path_ := cue |}.

(** A directory with one media file and its cue sheet of two sections, the
    second of which refers to another file. *)
Definition world_with_cue : World :=
  {| isSymLink := fun _ => false;
     symLinkTarget := fun _ => EmptyString;
     exists_ := fun p => list_contains ["/music/a"; "/music/a/1.flac"; "/music/a/1.cue"] p;
     lastModified := fun _ => Some 1700;
     isDir := fun _ => false;
     isHidden := fun _ => false;
     QDir_exists := fun _ _ => false;
     QDirIterator := fun p =>
       if String.eqb p "/music/a" then ["/music/a/1.cue"; "/music/a/1.flac"] else [];
     QImage := fun _ => None;
     ReadFileBlocking := fun file song =>
       Song.set_source (Song.source_ song)
         (Song.set_directory_id (Song.directory_id_ song) (stored_song (-1) file 1700));
     IsMediaFileBlocking := fun p => String.eqb p "/music/a/1.flac";
     CueParser_Load := fun cue _ =>
       if String.eqb cue "/music/a/1.cue"
       then [cue_section (-1) "/music/a/1.flac" cue 0;
             cue_section (-1) "/music/a/2.flac" cue 5000]
       else [];
     FindSongsInDirectory := fun _ => [];
     SubdirsInDirectory := fun _ => [];
     GetSongsByUrl := fun _ => [];
     StartTask := fun _ => 1;
     stop_requested_ := fun _ => false;
     ExtensionPart := example_ExtensionPart;
     DirectoryPart := section_dir;
     NoExtensionPart := example_NoExtensionPart;
     normalized_D := fun s => s;
     toCaseFolded := toLower |}.

(** The song [PreserveUserSetData] files for a re-read song [out] that
    replaces the stored song [matching_song]. *)
Definition preserved (image : QUrl) (matching_song out : Song.t) : Song.t :=
  let out := Song.set_id (Song.id matching_song) out in
  let out := if negb (Song.has_embedded_cover out) then Song.set_art_automatic image out
             else out in
  Song.MergeUserSetData matching_song out.

(** The song the tag reader yields for [file] in [UpdateNonCueAssociatedSong]. *)
Definition read_from_disk (W : World) (file : QString) (st : St) : Song.t :=
  ReadFileBlocking W file
    (Song.set_directory_id (Txn.dir_ (txn st)) (Song.Song (source_ (watcher (env st))))).


(** The children of a directory that the listing pass takes for music
    files: not directories, not images by extension, not hidden. *)
Definition listed_files (W : World) (p : QString) : QStringList :=
  filter (fun child => negb (isDir W child)
                       && negb (list_contains sValidImages (ExtensionPart W child))
                       && negb (isHidden W child))
         (QDirIterator W p).

(** The stored songs of a subdirectory as a transaction sees them: from its
    cache, or from the backend when it has cached nothing yet. *)
Definition stored_songs (W : World) (p : QString) (st : St) : SongList :=
  filter (fun song => String.eqb (section_dir (toLocalFile (Song.url song))) p)
         (if Txn.cached_songs_dirty_ (txn st) then FindSongsInDirectory W (Txn.dir_ (txn st))
          else Txn.cached_songs_ (txn st)).

(** A stored song is gone when it is marked available and its file is not
    among [files]. *)
Definition gone_from (files : QStringList) (song : Song.t) : bool :=
  negb (Song.is_unavailable song) && negb (list_contains files (toLocalFile (Song.url song))).

(** The image the walker picks for a stored song while it scans [file]. *)
Definition image_for_stored_song (W : World) (file : QString) (ls : FileLoop) (st : St) : QUrl :=
  fst (fst (ImageForSong W file (loop_album_art ls) (with_polls (S (polls (env st))) st))).

(** A directory with one music file, stored in the collection as [stored],
    which is on disk or not. *)
Definition world_with_song (stored : Song.t) (on_disk : bool) (listed : bool) : World :=
  {| isSymLink := fun _ => false;
     symLinkTarget := fun _ => EmptyString;
     exists_ := fun p =>
       String.eqb p "/music/a" || (on_disk && String.eqb p "/music/a/1.mp3");
     lastModified := fun _ => Some 1700;
     isDir := fun _ => false;
     isHidden := fun _ => false;
     QDir_exists := fun _ _ => false;
     QDirIterator := fun p =>
       if listed && String.eqb p "/music/a" then ["/music/a/1.mp3"] else [];
     QImage := fun _ => None;
     ReadFileBlocking := fun file song =>
       Song.set_source (Song.source_ song)
         (Song.set_directory_id (Song.directory_id_ song) (stored_song (-1) file 1700));
     IsMediaFileBlocking := fun _ => true;
     CueParser_Load := fun _ _ => [];
     FindSongsInDirectory := fun _ => [stored];
     SubdirsInDirectory := fun _ => [];
     GetSongsByUrl := fun _ => [stored];
     StartTask := fun _ => 1;
     stop_requested_ := fun _ => false;
     ExtensionPart := example_ExtensionPart;
     DirectoryPart := section_dir;
     NoExtensionPart := example_NoExtensionPart;
     normalized_D := fun s => s;
     toCaseFolded := toLower |}.

(** Two states whose transactions agree on the directory and on the cache
    of stored songs. *)
Definition same_song_cache (st st' : St) : Prop :=
  Txn.dir_ (txn st') = Txn.dir_ (txn st)
  /\ Txn.cached_songs_ (txn st') = Txn.cached_songs_ (txn st)
  /\ Txn.cached_songs_dirty_ (txn st') = Txn.cached_songs_dirty_ (txn st).

(** A watched collection at "/music" and, next to it, a directory
    "/music2" to which the symlink "/music/link" points. *)
Definition world_with_symlink : World :=
  {| isSymLink := fun p => String.eqb p "/music/link";
     symLinkTarget := fun p => if String.eqb p "/music/link" then "/music2" else EmptyString;
     exists_ := fun _ => true;
     lastModified := fun _ => Some 1700;
     isDir := fun _ => false;
     isHidden := fun _ => false;
     QDir_exists := fun p name => String.eqb p "/music/private" && String.eqb name ".nomusic";
     QDirIterator := fun _ => ["/x/1.mp3"];
     QImage := fun _ => None;
     ReadFileBlocking := fun _ song => song;
     IsMediaFileBlocking := fun _ => false;
     CueParser_Load := fun _ _ => [];
     FindSongsInDirectory := fun _ => [];
     SubdirsInDirectory := fun _ => [];
     GetSongsByUrl := fun _ => [];
     StartTask := fun _ => 1;
     stop_requested_ := fun _ => false;
     ExtensionPart := example_ExtensionPart;
     DirectoryPart := section_dir;
     NoExtensionPart := example_NoExtensionPart;
     normalized_D := fun s => s;
     toCaseFolded := toLower |}.

(** The state a skip rule leaves: one more progress unit and its report. *)
Definition skipped (p : QString) (st : St) : St :=
  let progress := wrap_int (Txn.progress_ (txn st) + 1) in
  with_txn (Txn.set_progress progress (txn st))
    (add_effects [ScanSubdirectory_entered p;
                  SetTaskProgress (Txn.task_id_ (txn st)) progress
                    (Txn.progress_max_ (txn st))]
       st).

(** [st'] comes from [st] by appending songs to the buffers of new, touched
    and deleted songs and effects to the trace, and by nothing else. *)
Definition queues_songs (st st' : St) : Prop :=
  exists new touched deleted effects,
    txn st' =
      Txn.set_deleted_songs (Txn.deleted_songs (txn st) ++ deleted)
        (Txn.set_touched_songs (Txn.touched_songs (txn st) ++ touched)
           (Txn.set_new_songs (Txn.new_songs (txn st) ++ new) (txn st)))
    /\ env st' = {| watcher := watcher (env st); trace := trace (env st) ++ effects;
                    polls := polls (env st) |}.

(** The stored section a cue section falls on in [UpdateCueAssociatedSongs]:
    the last stored section with the same start offset, and the default
    song when there is none. *)
Definition stored_section_at (old_sections : SongList) (cue_song : Song.t) : Song.t :=
  default (Song.Song Song.Source_Unknown)
    (find (fun s => to_quint64 (Song.beginning_nanosec s)
                    =? to_quint64 (Song.beginning_nanosec cue_song))
          (rev old_sections)).

(** Does a section of the cue sheet start where the stored section does? *)
Definition still_in_cue (cue_songs : SongList) (s : Song.t) : bool :=
  existsb (fun c => to_quint64 (Song.beginning_nanosec c)
                    =? to_quint64 (Song.beginning_nanosec s)) cue_songs.

(** The same world over a collection that stores the songs [by_url]. *)
Definition with_stored_songs (by_url : QUrl -> SongList) (W : World) : World :=
  {| isSymLink := isSymLink W; symLinkTarget := symLinkTarget W; exists_ := exists_ W;
     lastModified := lastModified W; isDir := isDir W; isHidden := isHidden W;
     QDir_exists := QDir_exists W; QDirIterator := QDirIterator W; QImage := QImage W;
     ReadFileBlocking := ReadFileBlocking W; IsMediaFileBlocking := IsMediaFileBlocking W;
     CueParser_Load := CueParser_Load W; FindSongsInDirectory := FindSongsInDirectory W;
     SubdirsInDirectory := SubdirsInDirectory W; GetSongsByUrl := by_url;
     StartTask := StartTask W; stop_requested_ := stop_requested_ W;
     ExtensionPart := ExtensionPart W; DirectoryPart := DirectoryPart W;
     NoExtensionPart := NoExtensionPart W; normalized_D := normalized_D W;
     toCaseFolded := toCaseFolded W |}.

(** [world_with_cue] over a collection that stores, for the media file, the
    two sections of an older version of its cue sheet, starting at 0 and at
    9000. *)
Definition world_with_stored_cue : World :=
  with_stored_songs
    (fun url =>
       if String.eqb (toLocalFile url) "/music/a/1.flac"
       then [cue_section 11 "/music/a/1.flac" "/music/a/1.cue" 0;
             cue_section 12 "/music/a/1.flac" "/music/a/1.cue" 9000]
       else [])
    world_with_cue.

(** [st'] comes from [st] by steps that leave alone the batches of
    subdirectories, the directory and the progress of the transaction, and
    the watcher. *)
Definition same_subdir_batches (st st' : St) : Prop :=
  Txn.new_subdirs (txn st') = Txn.new_subdirs (txn st)
  /\ Txn.touched_subdirs (txn st') = Txn.touched_subdirs (txn st)
  /\ Txn.deleted_subdirs (txn st') = Txn.deleted_subdirs (txn st)
  /\ Txn.dir_ (txn st') = Txn.dir_ (txn st)
  /\ Txn.progress_ (txn st') = Txn.progress_ (txn st)
  /\ watcher (env st') = watcher (env st).

(** The entry a completed visit of [p] records for the subdirectory. *)
Definition recorded_subdir (W : World) (p : QString) (st : St) : Subdirectory :=
  {| directory_id := Txn.dir_ (txn st);
     path := p;
     mtime := if exists_ W p then toTime_t (lastModified W p) else 0 |}.

(** Has the transaction seen the subdirectory [p] before?  The answer of
    [HasSeenSubdir] in terms of the known subdirectories. *)
Definition seen_before (W : World) (st : St) (p : QString) : bool :=
  existsb (fun subdir => String.eqb (path subdir) p && negb (mtime subdir =? 0))
          (known_subdirs_of W st).

(** The entry the listing makes for a subdirectory it has not seen. *)
Definition unseen_subdir (W : World) (child : QString) : Subdirectory :=
  {| directory_id := -1; path := child; mtime := toTime_t (lastModified W child) |}.

(** The children of a listing that are image files of directory [d]. *)
Definition image_files_in (W : World) (d : QString) (children : QStringList) : QStringList :=
  filter (fun child => negb (isDir W child)
                       && list_contains sValidImages (ExtensionPart W child)
                       && String.eqb (DirectoryPart W child) d)
         children.

(** A directory with a music file, a hidden music file, a cover image, a
    hidden image, a subdirectory and a hidden subdirectory. *)
Definition world_with_hidden_children : World :=
  {| isSymLink := fun _ => false;
     symLinkTarget := fun _ => EmptyString;
     exists_ := fun _ => true;
     lastModified := fun _ => Some 1700;
     isDir := fun p => list_contains ["/music/a/sub"; "/music/a/.git"] p;
     isHidden := fun p => list_contains ["/music/a/.2.mp3"; "/music/a/.thumb.jpg";
                                         "/music/a/.git"] p;
     QDir_exists := fun _ _ => false;
     QDirIterator := fun p =>
       if String.eqb p "/music/a"
       then ["/music/a/1.mp3"; "/music/a/.2.mp3"; "/music/a/cover.jpg";
             "/music/a/.thumb.jpg"; "/music/a/sub"; "/music/a/.git"]
       else [];
     QImage := fun _ => None;
     ReadFileBlocking := fun file song => song;
     IsMediaFileBlocking := fun _ => true;
     CueParser_Load := fun _ _ => [];
     FindSongsInDirectory := fun _ => [];
     SubdirsInDirectory := fun _ => [];
     GetSongsByUrl := fun _ => [];
     StartTask := fun _ => 1;
     stop_requested_ := fun _ => false;
     ExtensionPart := example_ExtensionPart;
     DirectoryPart := section_dir;
     NoExtensionPart := example_NoExtensionPart;
     normalized_D := fun s => s;
     toCaseFolded := toLower |}.

(** A section of a cue sheet as the walker takes it up: with the source of
    the collection and under the directory of the transaction. *)
Definition section_as_read (dir : Z) (source : Song.Source) (c : Song.t) : Song.t :=
  Song.set_directory_id dir (Song.set_source source c).

(** The song [UpdateCueAssociatedSongs] files for the section [c] of the
    sheet: the section itself when no valid section is stored at its start
    offset, and else the section with the user data of the stored one. *)
Definition refiled_section (old_sections : SongList) (image : QUrl) (dir : Z)
    (source : Song.Source) (c : Song.t) : Song.t :=
  let stored := stored_section_at old_sections c in
  if Song.is_valid stored then preserved image stored (section_as_read dir source c)
  else section_as_read dir source c.

(** Is the section [c] of the sheet filed among the new or updated songs
    (and not among the touched ones)? *)
Definition refiled_as_new (old_sections : SongList) (image : QUrl) (dir : Z)
    (source : Song.Source) (c : Song.t) : bool :=
  let stored := stored_section_at old_sections c in
  negb (Song.is_valid stored)
  || Song.is_unavailable stored
  || negb (Song.IsMetadataEqual stored
             (preserved image stored (section_as_read dir source c))).

(** A cue sheet beside two media files of the same base name, with one
    section for each of them. *)
Definition world_with_shared_cue : World :=
  {| isSymLink := fun _ => false;
     symLinkTarget := fun _ => EmptyString;
     exists_ := fun p =>
       list_contains ["/music/a"; "/music/a/1.flac"; "/music/a/1.wav"; "/music/a/1.cue"] p;
     lastModified := fun _ => Some 1700;
     isDir := fun _ => false;
     isHidden := fun _ => false;
     QDir_exists := fun _ _ => false;
     QDirIterator := fun p =>
       if String.eqb p "/music/a" then ["/music/a/1.flac"; "/music/a/1.wav"] else [];
     QImage := fun _ => None;
     ReadFileBlocking := fun file song =>
       Song.set_source (Song.source_ song)
         (Song.set_directory_id (Song.directory_id_ song) (stored_song (-1) file 1700));
     IsMediaFileBlocking := fun p => list_contains ["/music/a/1.flac"; "/music/a/1.wav"] p;
     CueParser_Load := fun cue _ =>
       if String.eqb cue "/music/a/1.cue"
       then [cue_section (-1) "/music/a/1.flac" cue 0;
             cue_section (-1) "/music/a/1.wav" cue 5000]
       else [];
     FindSongsInDirectory := fun _ => [];
     SubdirsInDirectory := fun _ => [];
     GetSongsByUrl := fun _ => [];
     StartTask := fun _ => 1;
     stop_requested_ := fun _ => false;
     ExtensionPart := example_ExtensionPart;
     DirectoryPart := section_dir;
     NoExtensionPart := example_NoExtensionPart;
     normalized_D := fun s => s;
     toCaseFolded := toLower |}.

(** The image the walker picks for a new file it has just read the tags of. *)
Definition image_for_new_file (W : World) (file : QString) (ls : FileLoop) (st : St) : QUrl :=
  fst (fst (ImageForSong W file (loop_album_art ls)
              (add_effects [TagRead file] (with_polls (S (polls (env st))) st)))).


(* ===================================================================== *)
(** * Properties *)

Ltac unfold_monad :=
  unfold bind, ret, when, emit, get_txn, get_watcher, modify_txn, modify_watcher,
    read_stop_requested in *.

(* --------------------------------------------------------------------- *)
(** ** The commit of a transaction *)

Section Commit.

Variable W : World.

Lemma St_eta (st : St) :
  {| env := {| watcher := watcher (env st); trace := trace (env st); polls := polls (env st) |};
     txn := txn st |} = st.
Proof. destruct st as [[] ?]. reflexivity. Qed.

Lemma set_subdir_mapping_id (w : CollectionWatcher) :
  set_subdir_mapping (subdir_mapping_ w) w = w.
Proof. destruct w. reflexivity. Qed.

Lemma for_each_remove_watches (l : SubdirectoryList) (st : St) :
  let dir := watched_dirs_ (watcher (env st)) !! Txn.dir_ (txn st) in
  let m := subdir_mapping_ (watcher (env st)) in
  for_each l remove_deleted_watch st =
  (tt, with_subdir_mapping (mapping_after_remove dir m l)
         (add_effects (map RemovePath (removed_paths dir m l)) st)).
Proof.
  revert st. induction l as [|s l IH]; intros st; simpl.
  - unfold ret, with_subdir_mapping, add_effects. simpl.
    rewrite app_nil_r, set_subdir_mapping_id, St_eta. reflexivity.
  - unfold bind at 1. unfold remove_deleted_watch at 1. unfold_monad. simpl.
    destruct (watched_dirs_ (watcher (env st)) !! Txn.dir_ (txn st)) as [d|] eqn:Hd.
    + unfold RemoveWatch. unfold_monad. simpl.
      destruct (subdir_mapping_ (watcher (env st)) !! path s) as [d'|] eqn:Hm.
      * destruct (Directory_eqb d' d) eqn:He; simpl.
        -- rewrite IH. simpl. rewrite Hd. unfold with_subdir_mapping, add_effects. simpl.
           rewrite <- app_assoc. reflexivity.
        -- rewrite IH. simpl. rewrite Hd. reflexivity.
      * rewrite IH. simpl. rewrite Hd. reflexivity.
    + rewrite IH. simpl. rewrite Hd. reflexivity.
Qed.

Lemma for_each_add_watches (l : SubdirectoryList) (st : St) :
  let dir := watched_dirs_ (watcher (env st)) !! Txn.dir_ (txn st) in
  let m := subdir_mapping_ (watcher (env st)) in
  for_each l (add_new_watch W) st =
  (tt, with_subdir_mapping (mapping_after_add dir m (added_paths W dir l))
         (add_effects (map AddPath (added_paths W dir l)) st)).
Proof.
  revert st. induction l as [|s l IH]; intros st; simpl.
  - unfold ret, with_subdir_mapping, add_effects, added_paths, mapping_after_add. simpl.
    destruct (watched_dirs_ (watcher (env st)) !! Txn.dir_ (txn st));
      simpl; rewrite app_nil_r, set_subdir_mapping_id, St_eta; reflexivity.
  - unfold bind at 1. unfold add_new_watch at 1. unfold_monad. simpl.
    destruct (watched_dirs_ (watcher (env st)) !! Txn.dir_ (txn st)) as [d|] eqn:Hd.
    + unfold AddWatch. unfold_monad. unfold added_paths. simpl.
      destruct (exists_ W (path s)) eqn:He; simpl.
      * rewrite IH. simpl. rewrite Hd. unfold with_subdir_mapping, add_effects, added_paths.
        simpl. rewrite filter_cons_True by done. simpl.
        rewrite <- app_assoc. reflexivity.
      * rewrite IH. simpl. rewrite Hd. unfold added_paths.
        rewrite filter_cons_False; [reflexivity|]. rewrite He. done.
    + rewrite IH. simpl. rewrite Hd. reflexivity.
Qed.
Lemma CommitNewOrUpdatedSongs_eq (st : St) :
  let t := txn st in
  let w := watcher (env st) in
  let dir := watched_dirs_ w !! Txn.dir_ t in
  let removed := removed_paths dir (subdir_mapping_ w) (Txn.deleted_subdirs t) in
  let m1 := mapping_after_remove dir (subdir_mapping_ w) (Txn.deleted_subdirs t) in
  let added := if monitor_ w then added_paths W dir (Txn.new_subdirs t) else [] in
  CommitNewOrUpdatedSongs W st =
  (tt, with_txn (committed t)
         (with_subdir_mapping (mapping_after_add dir m1 added)
            (add_effects (commit_signals t ++ map RemovePath removed ++ map AddPath added) st))).
Proof.
  destruct st as [[w tr po] t].
  destruct t as [p pm d inc ign pd tid cs csd ks ksd ns ts ds rs nsd tsd dsd].
  destruct w as [src dev wd sm sos mon live wpd bif].
  unfold CommitNewOrUpdatedSongs, commit_signals, committed, batch.
  destruct ns, ts, ds, rs, nsd, tsd, pd, mon; unfold_monad;
    cbn -[for_each added_paths removed_paths mapping_after_remove mapping_after_add];
    rewrite for_each_remove_watches;
    cbn -[for_each added_paths removed_paths mapping_after_remove mapping_after_add];
    try rewrite for_each_add_watches;
    unfold with_txn, with_subdir_mapping, add_effects, set_subdir_mapping;
    cbn -[for_each added_paths removed_paths mapping_after_remove mapping_after_add];
    rewrite ?app_nil_r, <- ?app_assoc; try reflexivity.
  all: destruct (wd !! d); unfold added_paths; simpl; rewrite ?app_nil_r; reflexivity.
Qed.

Lemma removed_paths_spec (dir : option Directory) (l : SubdirectoryList) :
  forall (m : gmap string Directory) (p : QString),
    p ∈ removed_paths dir m l <->
    exists subdir d d',
      subdir ∈ l /\ path subdir = p /\ dir = Some d /\ m !! p = Some d'
      /\ Directory_eqb d' d = true.
Proof.
  induction l as [|s l IH]; intros m p; simpl.
  - split; [intros H; inversion H | intros (? & ? & ? & H & _); inversion H].
  - destruct dir as [d|].
    + destruct (m !! path s) as [d'|] eqn:Hm; [destruct (Directory_eqb d' d) eqn:He|].
      * rewrite elem_of_cons, IH. split.
        -- intros [-> | (subdir & d1 & d1' & Hin & Hp & Hd & Hl & Hb)].
           ++ exists s, d, d'. rewrite elem_of_cons. auto.
           ++ exists subdir, d1, d1'. rewrite elem_of_cons.
              destruct (decide (path s = p)) as [Heq|Hne].
              ** rewrite <- Heq, lookup_delete_eq in Hl. discriminate.
              ** rewrite lookup_delete_ne in Hl by done. auto 10.
        -- intros (subdir & d1 & d1' & Hin & Hp & Hd & Hl & Hb).
           destruct (decide (path s = p)) as [Heq|Hne]; [left; done|right].
           apply elem_of_cons in Hin as [-> | Hin]; [done|].
           exists subdir, d1, d1'. rewrite lookup_delete_ne by done. auto 10.
      * rewrite IH. split.
        -- intros (subdir & d1 & d1' & Hin & Hr). exists subdir, d1, d1'.
           rewrite elem_of_cons. auto.
        -- intros (subdir & d1 & d1' & Hin & Hp & Hd & Hl & Hb).
           apply elem_of_cons in Hin as [-> | Hin]; [|by exists subdir, d1, d1'].
           rewrite Hp in Hm. congruence.
      * rewrite IH. split.
        -- intros (subdir & d1 & d1' & Hin & Hr). exists subdir, d1, d1'.
           rewrite elem_of_cons. auto.
        -- intros (subdir & d1 & d1' & Hin & Hp & Hd & Hl & Hb).
           apply elem_of_cons in Hin as [-> | Hin]; [|by exists subdir, d1, d1'].
           rewrite Hp in Hm. congruence.
    + rewrite IH. split; intros (? & ? & ? & _ & _ & H & _); discriminate.
Qed.

Lemma added_paths_spec (dir : option Directory) (l : SubdirectoryList) (p : QString) :
  p ∈ added_paths W dir l <->
  exists subdir d, subdir ∈ l /\ path subdir = p /\ dir = Some d /\ exists_ W p = true.
Proof.
  unfold added_paths. destruct dir as [d|].
  - rewrite list_elem_of_filter, list_elem_of_fmap. split.
    + intros (He & subdir & -> & Hin). by exists subdir, d.
    + intros (subdir & d1 & Hin & <- & _ & He). split; [done|]. by exists subdir.
  - split; [intros H; inversion H | intros (? & ? & _ & _ & H & _); discriminate].
Qed.

(** C6.  A commit emits its batches in one fixed order: new songs, touched
    songs, deleted songs (only without prevent-delete), readded songs, new
    subdirectories, touched subdirectories, each only when it is not empty;
    after these signals it removes the watches of the deleted subdirectories
    that are watched under the directory of the transaction, and last, only
    when monitoring is enabled, it adds watches for the new subdirectories
    that exist. *)
Theorem commit_flushes_in_fixed_order (st : St) :
  let t := txn st in
  let w := watcher (env st) in
  exists removed added,
    trace (env (snd (CommitNewOrUpdatedSongs W st))) =
      trace (env st)
      ++ batch NewOrUpdatedSongs (Txn.new_songs t)
      ++ batch SongsMTimeUpdated (Txn.touched_songs t)
      ++ (if Txn.prevent_delete_ t then [] else batch SongsDeleted (Txn.deleted_songs t))
      ++ batch SongsReadded (Txn.readded_songs t)
      ++ batch SubdirsDiscovered (Txn.new_subdirs t)
      ++ batch SubdirsMTimeUpdated (Txn.touched_subdirs t)
      ++ map RemovePath removed
      ++ map AddPath added
    /\ (forall p, p ∈ removed <->
          exists subdir d d',
            subdir ∈ Txn.deleted_subdirs t /\ path subdir = p
            /\ watched_dirs_ w !! Txn.dir_ t = Some d
            /\ subdir_mapping_ w !! p = Some d' /\ Directory_eqb d' d = true)
    /\ (forall p, p ∈ added <->
          monitor_ w = true /\
          exists subdir d,
            subdir ∈ Txn.new_subdirs t /\ path subdir = p
            /\ watched_dirs_ w !! Txn.dir_ t = Some d /\ exists_ W p = true).
Proof.
  intros t w. rewrite CommitNewOrUpdatedSongs_eq. fold t w.
  eexists _, _. split; [|split].
  - simpl. unfold commit_signals. rewrite <- !app_assoc. reflexivity.
  - apply removed_paths_spec.
  - intros p. destruct (monitor_ w).
    + rewrite added_paths_spec. tauto.
    + split; [intros H; inversion H | intros [H _]; discriminate].
Qed.

(** C10.  After a commit the buffers of new, touched and readded songs and
    of new, touched and deleted subdirectories are empty.  The buffer of
    deleted songs is emptied only without prevent-delete; with prevent-delete
    it is left as it was, no SongsDeleted signal is emitted, and the next
    commit finds it unchanged. *)
Theorem commit_clears_buffers (st : St) :
  let t := txn st in
  let st' := snd (CommitNewOrUpdatedSongs W st) in
  let t' := txn st' in
  Txn.new_songs t' = [] /\ Txn.touched_songs t' = [] /\ Txn.readded_songs t' = []
  /\ Txn.new_subdirs t' = [] /\ Txn.touched_subdirs t' = [] /\ Txn.deleted_subdirs t' = []
  /\ Txn.deleted_songs t' = (if Txn.prevent_delete_ t then Txn.deleted_songs t else [])
  /\ exists suffix,
       trace (env st') = trace (env st) ++ suffix
       /\ (if Txn.prevent_delete_ t
           then (forall l, SongsDeleted l ∉ suffix)
                /\ Txn.deleted_songs (txn (snd (CommitNewOrUpdatedSongs W st')))
                   = Txn.deleted_songs t
           else Txn.deleted_songs t <> [] -> SongsDeleted (Txn.deleted_songs t) ∈ suffix).
Proof.
  intros t st' t'. subst st' t'. rewrite !CommitNewOrUpdatedSongs_eq. fold t.
  simpl. repeat (split; [reflexivity|]).
  eexists. split; [reflexivity|].
  destruct (Txn.prevent_delete_ t) eqn:Hpd.
  - split; [|reflexivity].
    intros l. unfold commit_signals, batch. rewrite Hpd.
    rewrite !elem_of_app, !list_elem_of_fmap.
    intros H.
    repeat match goal with
           | H : _ \/ _ |- _ => destruct H as [H|H]
           | H : _ ∈ (if ?b then _ else _) |- _ => destruct b
           | H : _ ∈ [] |- _ => inversion H
           | H : _ ∈ [_] |- _ => apply list_elem_of_singleton in H; discriminate H
           | H : exists _, _ |- _ => destruct H as (? & H & _); discriminate H
           end.
  - intros Hne. unfold commit_signals, batch. rewrite Hpd.
    destruct (Txn.deleted_songs t) as [|s l] eqn:Hd; [done|]. simpl.
    apply elem_of_app; left. apply elem_of_app; right. apply elem_of_app; right. left.
Qed.

Lemma dtor_stopped (st : St) :
  stop_requested_ W (polls (env st)) = true ->
  ScanTransaction_dtor W st =
  {| watcher := watcher (env st);
     trace := trace (env st) ++ [SetTaskFinished (Txn.task_id_ (txn st))];
     polls := S (polls (env st)) |}.
Proof.
  intros Hstop. unfold ScanTransaction_dtor, bind, read_stop_requested.
  rewrite Hstop. reflexivity.
Qed.

Lemma dtor_not_stopped (st : St) :
  stop_requested_ W (polls (env st)) = false ->
  ScanTransaction_dtor W st =
  env (add_effects [SetTaskFinished (Txn.task_id_ (txn st))]
         (snd (CommitNewOrUpdatedSongs W (with_polls (S (polls (env st))) st)))).
Proof.
  intros Hstop. unfold ScanTransaction_dtor, bind, read_stop_requested.
  rewrite Hstop. cbn [negb when]. unfold with_polls.
  rewrite CommitNewOrUpdatedSongs_eq. reflexivity.
Qed.

(** C1.  When the transaction ends its task is always marked finished, as
    the last effect.  When the stop flag is set at that time nothing is
    committed: the only effect is the end of the task, the watcher is left as
    it was, and the outcome does not depend on what the buffers held. *)
Theorem dtor_skips_commit_when_stopped (st : St) :
  (exists effects,
     trace (ScanTransaction_dtor W st)
       = trace (env st) ++ effects ++ [SetTaskFinished (Txn.task_id_ (txn st))])
  /\ (stop_requested_ W (polls (env st)) = true ->
      trace (ScanTransaction_dtor W st)
        = trace (env st) ++ [SetTaskFinished (Txn.task_id_ (txn st))]
      /\ watcher (ScanTransaction_dtor W st) = watcher (env st)
      /\ (forall e, is_commit_signal e = true -> e ∉ trace (env st) ->
                    e ∉ trace (ScanTransaction_dtor W st))
      /\ (forall t, Txn.task_id_ t = Txn.task_id_ (txn st) ->
                    ScanTransaction_dtor W (with_txn t st) = ScanTransaction_dtor W st)).
Proof.
  split.
  - destruct (stop_requested_ W (polls (env st))) eqn:Hstop.
    + exists []. rewrite dtor_stopped by done. reflexivity.
    + rewrite dtor_not_stopped by done. rewrite CommitNewOrUpdatedSongs_eq.
      eexists. cbn [snd env trace add_effects with_txn with_subdir_mapping with_polls].
      rewrite <- app_assoc. reflexivity.
  - intros Hstop. rewrite dtor_stopped by done. cbn [trace watcher]. repeat split.
    + intros e He Hnot. rewrite elem_of_app, list_elem_of_singleton.
      intros [H | ->]; [done | discriminate].
    + intros t Ht. rewrite dtor_stopped by done. cbn. rewrite Ht. reflexivity.
Qed.

End Commit.

Lemma dtor_skips_commit_when_stopped_witness :
  let W := with_stop_requested (fun _ => true) empty_world in
  stop_requested_ W (polls (env example_pending)) = true
  /\ trace (ScanTransaction_dtor W example_pending)
       = trace (env example_pending) ++ [SetTaskFinished 1]
  /\ watcher (ScanTransaction_dtor W example_pending) = example_watcher.
Proof.
  intros W. split; [reflexivity|].
  destruct (proj2 (dtor_skips_commit_when_stopped W example_pending) eq_refl)
    as (Htrace & Hwatcher & _).
  split; [exact Htrace | exact Hwatcher].
Defined.

(* --------------------------------------------------------------------- *)
(** ** Known subdirectories *)

Section KnownSubdirs.

Variable W : World.

Lemma fetch_known_subdirs_eq (st : St) :
  fetch_known_subdirs W st =
  (tt, with_txn (Txn.set_known_subdirs_dirty false
                   (Txn.set_known_subdirs (known_subdirs_of W st) (txn st)))
         (add_effects (if Txn.known_subdirs_dirty_ (txn st)
                       then [Queried_SubdirsInDirectory (Txn.dir_ (txn st))] else [])
            st)).
Proof.
  unfold fetch_known_subdirs, SetKnownSubdirs, known_subdirs_of. unfold_monad.
  destruct st as [[w tr po] t]. destruct t. simpl.
  destruct known_subdirs_dirty_; simpl.
  - reflexivity.
  - unfold with_txn, add_effects. simpl. rewrite app_nil_r. reflexivity.
Qed.

Lemma HasSeenSubdir_eq (p : QString) (st : St) :
  HasSeenSubdir W p st =
  (existsb (fun subdir => String.eqb (path subdir) p && negb (mtime subdir =? 0))
     (known_subdirs_of W st),
   snd (fetch_known_subdirs W st)).
Proof.
  unfold HasSeenSubdir. unfold bind at 1. rewrite fetch_known_subdirs_eq.
  unfold_monad. destruct st as [[w tr po] t]. destruct t. reflexivity.
Qed.

Lemma seen_iff (p : QString) (known : SubdirectoryList) :
  existsb (fun subdir => String.eqb (path subdir) p && negb (mtime subdir =? 0)) known = true
  <-> exists subdir, subdir ∈ known /\ path subdir = p /\ mtime subdir <> 0.
Proof.
  rewrite existsb_exists. split.
  - intros (subdir & Hin & H). apply andb_true_iff in H as [Hp Hm].
    exists subdir. rewrite list_elem_of_In. split; [done|]. split.
    + by apply String.eqb_eq.
    + apply negb_true_iff, Z.eqb_neq in Hm. done.
  - intros (subdir & Hin & Hp & Hm). exists subdir. rewrite <- list_elem_of_In.
    split; [done|]. apply andb_true_iff. split.
    + by apply String.eqb_eq.
    + by apply negb_true_iff, Z.eqb_neq.
Qed.

(** C7.  [HasSeenSubdir(path)] is true exactly when the known subdirectories
    of the transaction, fetched from the backend on first use and cached
    from then on, hold an entry with that path and a nonzero mtime.  Entries
    with mtime 0 never make it true: a directory of that path found by the
    listing, not hidden, is put among the new subdirectories with directory
    id -1, and the visit of a subdirectory with that id files it as newly
    discovered. *)
Theorem HasSeenSubdir_true_iff (p : QString) (st : St) :
  let known := known_subdirs_of W st in
  let r := HasSeenSubdir W p st in
  (fst r = true <-> exists subdir, subdir ∈ known /\ path subdir = p /\ mtime subdir <> 0)
  /\ Txn.known_subdirs_ (txn (snd r)) = known
  /\ Txn.known_subdirs_dirty_ (txn (snd r)) = false
  /\ trace (env (snd r)) =
       trace (env st) ++ (if Txn.known_subdirs_dirty_ (txn st)
                          then [Queried_SubdirsInDirectory (Txn.dir_ (txn st))] else [])
  /\ ((forall subdir, subdir ∈ known -> path subdir = p -> mtime subdir = 0) ->
      fst r = false
      /\ (isDir W p = true -> isHidden W p = false ->
          stop_requested_ W (polls (env st)) = false ->
          forall acc,
            fst (list_child W p acc st) =
            Some {| album_art := album_art acc; files_on_disk := files_on_disk acc;
                    my_new_subdirs :=
                      my_new_subdirs acc
                      ++ [ {| directory_id := -1; path := p;
                              mtime := toTime_t (lastModified W p) |} ] |})
      /\ (forall subdir st0,
            directory_id subdir = -1 ->
            Txn.new_subdirs (txn (snd (record_subdir W p subdir st0))) =
            Txn.new_subdirs (txn st0)
            ++ [ {| directory_id := Txn.dir_ (txn st0); path := p;
                    mtime := if exists_ W p then toTime_t (lastModified W p) else 0 |} ])).
Proof.
  intros known r. subst r. rewrite HasSeenSubdir_eq, fetch_known_subdirs_eq.
  cbn [fst snd]. fold known.
  split; [apply seen_iff|]. split; [reflexivity|]. split; [reflexivity|].
  split; [reflexivity|].
  intros Hzero.
  assert (Hfalse : existsb (fun subdir => String.eqb (path subdir) p && negb (mtime subdir =? 0))
                     known = false).
  { apply not_true_iff_false. rewrite seen_iff. intros (subdir & Hin & Hp & Hm).
    apply Hm. by apply Hzero. }
  split; [exact Hfalse|]. split.
  - intros Hdir Hhid Hstop acc. unfold list_child.
    unfold bind at 1. unfold read_stop_requested at 1. rewrite Hstop, Hdir, Hhid.
    cbn [negb]. unfold bind at 1. rewrite HasSeenSubdir_eq.
    unfold known_subdirs_of. cbn [txn env].
    fold (known_subdirs_of W st). fold known. rewrite Hfalse. reflexivity.
  - intros subdir st0 Hid. unfold record_subdir. unfold_monad. rewrite Hid.
    destruct st0 as [e t]. destruct t. simpl.
    destruct (exists_ W p); simpl; [|reflexivity].
    destruct (toTime_t (lastModified W p) =? 0); reflexivity.
Qed.

End KnownSubdirs.

Lemma HasSeenSubdir_true_iff_witness :
  let W := world_with_deleted_subdir in
  let st := ScanTransaction_ctor W example_env 1 true false false in
  (forall subdir, subdir ∈ known_subdirs_of W st -> path subdir = "/music/old" ->
                  mtime subdir = 0)
  /\ fst (HasSeenSubdir W "/music/old" st) = false
  /\ fst (list_child W "/music/old" empty_listing st) =
     Some {| album_art := ∅; files_on_disk := [];
             my_new_subdirs := [ {| directory_id := -1; path := "/music/old"; mtime := 1700 |} ] |}.
Proof.
  intros W st.
  assert (Hzero : forall subdir, subdir ∈ known_subdirs_of W st ->
                                 path subdir = "/music/old" -> mtime subdir = 0).
  { intros subdir Hin _. apply list_elem_of_singleton in Hin. subst subdir. reflexivity. }
  split; [exact Hzero|].
  destruct (HasSeenSubdir_true_iff W "/music/old" st) as (_ & _ & _ & _ & H).
  destruct (H Hzero) as (Hfalse & Hnew & _).
  split; [exact Hfalse|].
  exact (Hnew eq_refl eq_refl eq_refl empty_listing).
Defined.

(* --------------------------------------------------------------------- *)
(** ** The incremental short-circuit *)

Section ShortCircuit.

Variable W : World.

Lemma AddToProgress_eq (n : Z) (st : St) :
  AddToProgress n st =
  (tt, add_effects [SetTaskProgress (Txn.task_id_ (txn st))
                      (wrap_int (Txn.progress_ (txn st) + n)) (Txn.progress_max_ (txn st))]
         (with_txn (Txn.set_progress (wrap_int (Txn.progress_ (txn st) + n)) (txn st)) st)).
Proof. reflexivity. Qed.

(** C2.  A visit of a subdirectory that no skip rule excludes, in an
    incremental transaction that does not ignore mtimes, without the
    force-full flag and with a stored mtime equal to the mtime on disk in
    whole seconds, returns after one progress unit: the progress counter
    goes up by one, the progress update is the only effect of the call, the
    directory is not listed, no file is read and no subdirectory is
    visited. *)
Theorem unchanged_subdirectory_is_skipped (fuel : nat) (p : QString) (subdir : Subdirectory)
    (st : St) :
  Txn.ignores_mtime_ (txn st) = false ->
  Txn.incremental_ (txn st) = true ->
  symlink_in_collection W (watcher (env st)) p = false ->
  has_marker_file W p = false ->
  to_uint (mtime subdir) = toTime_t (lastModified W p) ->
  let progress := wrap_int (Txn.progress_ (txn st) + 1) in
  ScanSubdirectory W (S fuel) p subdir false st =
  Some (with_txn (Txn.set_progress progress (txn st))
          (add_effects [ScanSubdirectory_entered p;
                        SetTaskProgress (Txn.task_id_ (txn st)) progress
                          (Txn.progress_max_ (txn st))]
             st)).
Proof.
  intros Hign Hinc Hsym Hmark Hmtime progress.
  cbn [ScanSubdirectory]. cbn [emit snd env txn watcher].
  rewrite Hsym, Hmark. unfold unchanged_since_last_time.
  rewrite Hign, Hinc, Hmtime, Z.eqb_refl. cbn [negb andb].
  rewrite AddToProgress_eq. unfold add_effects, with_txn. cbn.
  rewrite <- app_assoc. reflexivity.
Qed.

End ShortCircuit.

Lemma unchanged_subdirectory_is_skipped_witness :
  let W := world_with_unchanged_subdir in
  let st := ScanTransaction_ctor W example_env 1 true false false in
  let subdir := {| directory_id := 1; path := "/music/a"; mtime := 1700 |} in
  to_uint (mtime subdir) = toTime_t (lastModified W "/music/a")
  /\ ScanSubdirectory W 1 "/music/a" subdir false st =
     Some (with_txn (Txn.set_progress 1 (txn st))
             (add_effects [ScanSubdirectory_entered "/music/a"; SetTaskProgress 1 1 0] st)).
Proof.
  intros W st subdir. split; [reflexivity|].
  exact (unchanged_subdirectory_is_skipped W 0 "/music/a" subdir st
           eq_refl eq_refl eq_refl eq_refl eq_refl).
Defined.

(* --------------------------------------------------------------------- *)
(** ** Album art *)

Section AlbumArt.

Variable W : World.

Hypothesis never_stopped : forall n, stop_requested_ W n = false.

Lemma filter_images_candidates (filters images : QStringList) :
  filter_images W filters images [] =
  match find (fun filter_text => negb (is_nil (matches W filter_text images))) filters with
  | Some filter_text => matches W filter_text images
  | None => []
  end.
Proof.
  induction filters as [|f filters IH]; [reflexivity|].
  cbn [filter_images find app]. fold (matches W f images).
  destruct (matches W f images) eqn:Hm; cbn [is_nil negb]; [exact IH | by rewrite Hm].
Qed.

Lemma picked_candidates (filters images : QStringList) :
  (if is_nil (filter_images W filters images []) then images
   else filter_images W filters images [])
  = candidates W filters images.
Proof.
  rewrite filter_images_candidates. unfold candidates.
  destruct (find _ filters) as [f|] eqn:Hf; [|reflexivity].
  apply find_some in Hf as [_ Hf]. destruct (matches W f images); [discriminate|reflexivity].
Qed.

Lemma biggest_image_cons (p : QString) (paths : QStringList) (biggest_size : Z)
    (biggest_path : QString) (st : St) :
  let st1 := add_effects [ImageLoaded p] (with_polls (S (polls (env st))) st) in
  biggest_image W (p :: paths) biggest_size biggest_path st =
  match area W p with
  | None => biggest_image W paths biggest_size biggest_path st1
  | Some size =>
      if biggest_size <? size then biggest_image W paths size p st1
      else biggest_image W paths biggest_size biggest_path st1
  end.
Proof.
  cbn [biggest_image]. unfold bind, read_stop_requested, emit, area.
  rewrite never_stopped. destruct (QImage W p) as [[width height]|]; [|reflexivity].
  destruct (biggest_size <? wrap_int (width * height)); reflexivity.
Qed.

(** The loop over the candidates keeps the first image of the largest area
    above the area it started with. *)
Lemma biggest_image_spec (paths : QStringList) :
  forall (biggest_size : Z) (biggest_path : QString) (st : St),
    (forall p a, p ∈ paths -> area W p = Some a -> a <= biggest_size)
    /\ fst (biggest_image W paths biggest_size biggest_path st) = biggest_path
    \/ exists a,
         biggest_size < a
         /\ fst (biggest_image W paths biggest_size biggest_path st) ∈ paths
         /\ area W (fst (biggest_image W paths biggest_size biggest_path st)) = Some a
         /\ forall p' a', p' ∈ paths -> area W p' = Some a' -> a' <= a.
Proof.
  induction paths as [|p paths IH]; intros bs bp st.
  - left. split; [|reflexivity]. intros p a Hin. inversion Hin.
  - rewrite biggest_image_cons. cbv zeta.
    set (st1 := add_effects [ImageLoaded p] (with_polls (S (polls (env st))) st)).
    destruct (area W p) as [size|] eqn:Harea_p.
    + destruct (bs <? size) eqn:Hlt.
      * apply Z.ltb_lt in Hlt.
        destruct (IH size p st1) as [[Hall Hr] | (a & Ha & Hin & Harea & Hmax)].
        -- right. exists size. rewrite Hr.
           split; [done|]. split; [left|]. split; [done|].
           intros p' a' Hin' Ha'. apply elem_of_cons in Hin' as [-> | Hin'].
           ++ rewrite Harea_p in Ha'. injection Ha' as <-. lia.
           ++ eauto.
        -- right. exists a. split; [lia|]. split; [by right|]. split; [done|].
           intros p' a' Hin' Ha'. apply elem_of_cons in Hin' as [-> | Hin'].
           ++ rewrite Harea_p in Ha'. injection Ha' as <-. lia.
           ++ eauto.
      * apply Z.ltb_ge in Hlt.
        destruct (IH bs bp st1) as [[Hall Hr] | (a & Ha & Hin & Harea & Hmax)].
        -- left. split; [|exact Hr].
           intros p' a' Hin' Ha'. apply elem_of_cons in Hin' as [-> | Hin'].
           ++ rewrite Harea_p in Ha'. injection Ha' as <-. lia.
           ++ eauto.
        -- right. exists a. split; [done|]. split; [by right|]. split; [done|].
           intros p' a' Hin' Ha'. apply elem_of_cons in Hin' as [-> | Hin'].
           ++ rewrite Harea_p in Ha'. injection Ha' as <-. lia.
           ++ eauto.
    + destruct (IH bs bp st1) as [[Hall Hr] | (a & Ha & Hin & Harea & Hmax)].
      * left. split; [|exact Hr].
        intros p' a' Hin' Ha'. apply elem_of_cons in Hin' as [-> | Hin'].
        -- rewrite Harea_p in Ha'. discriminate.
        -- eauto.
      * right. exists a. split; [done|]. split; [by right|]. split; [done|].
        intros p' a' Hin' Ha'. apply elem_of_cons in Hin' as [-> | Hin'].
        -- rewrite Harea_p in Ha'. discriminate.
        -- eauto.
Qed.

Lemma PickBestImage_eq (images : QStringList) (st : St) :
  PickBestImage W images st =
  biggest_image W (candidates W (best_image_filters_ (watcher (env st))) images) 0 EmptyString st.
Proof.
  unfold PickBestImage. unfold bind, get_watcher. rewrite picked_candidates. reflexivity.
Qed.

Lemma candidates_first_match (pre post : QStringList) (f : QString) (images : QStringList) :
  (forall g, g ∈ pre -> matches W g images = []) ->
  matches W f images <> [] ->
  candidates W (pre ++ f :: post) images = matches W f images.
Proof.
  intros Hpre Hf. unfold candidates.
  induction pre as [|g pre IH]; cbn [app find].
  - destruct (matches W f images) eqn:Hm; [done | cbn [is_nil negb]; by rewrite Hm].
  - rewrite (Hpre g) by left. cbn [is_nil negb]. apply IH.
    intros g' Hg'. apply Hpre. by right.
Qed.

Lemma candidates_no_match (filters images : QStringList) :
  (forall g, g ∈ filters -> matches W g images = []) ->
  candidates W filters images = images.
Proof.
  intros Hnone. unfold candidates.
  induction filters as [|g filters IH]; cbn [find]; [reflexivity|].
  rewrite (Hnone g) by left. cbn [is_nil negb]. apply IH.
  intros g' Hg'. apply Hnone. by right.
Qed.

Lemma PickBestImage_spec (images : QStringList) (st : St) :
  let c := candidates W (best_image_filters_ (watcher (env st))) images in
  let r := fst (PickBestImage W images st) in
  ((exists p a, p ∈ c /\ area W p = Some a /\ 0 < a) ->
   r ∈ c /\ exists a, area W r = Some a /\ 0 < a
                     /\ forall p' a', p' ∈ c -> area W p' = Some a' -> a' <= a)
  /\ ((forall p a, p ∈ c -> area W p = Some a -> a <= 0) -> r = EmptyString).
Proof.
  intros c r. subst r. rewrite PickBestImage_eq. fold c.
  destruct (biggest_image_spec c 0 EmptyString st)
    as [[Hall Hr] | (a & Ha & Hin & Harea & Hmax)].
  - split; [|done]. intros (p & a & Hin & Harea & Hpos).
    specialize (Hall p a Hin Harea). lia.
  - split.
    + intros _. split; [done|]. by exists a.
    + intros Hnone. specialize (Hnone _ _ Hin Harea). lia.
Qed.

(** The loop over the candidates picks the first image of the largest area:
    every candidate before the one picked has a smaller area or does not
    load, and no candidate after it has a larger one. *)
Lemma biggest_image_first (paths : QStringList) :
  forall (biggest_size : Z) (biggest_path : QString) (st : St),
    let r := fst (biggest_image W paths biggest_size biggest_path st) in
    (forall p a, p ∈ paths -> area W p = Some a -> a <= biggest_size) /\ r = biggest_path
    \/ exists pre post a,
         biggest_size < a
         /\ paths = pre ++ r :: post
         /\ area W r = Some a
         /\ (forall q a', q ∈ pre -> area W q = Some a' -> a' < a)
         /\ (forall q a', q ∈ post -> area W q = Some a' -> a' <= a).
Proof.
  induction paths as [|p paths IH]; intros bs bp st; cbv zeta.
  - left. split; [|reflexivity]. intros p a Hin. inversion Hin.
  - rewrite biggest_image_cons. cbv zeta.
    set (st1 := add_effects [ImageLoaded p] (with_polls (S (polls (env st))) st)).
    assert (Hlater : forall bs' bp' (bound : Z),
              (forall a', area W p = Some a' -> a' <= bound) ->
              (exists pre post a,
                 bound < a
                 /\ paths = pre ++ fst (biggest_image W paths bs' bp' st1) :: post
                 /\ area W (fst (biggest_image W paths bs' bp' st1)) = Some a
                 /\ (forall q a', q ∈ pre -> area W q = Some a' -> a' < a)
                 /\ (forall q a', q ∈ post -> area W q = Some a' -> a' <= a)) ->
              exists pre post a,
                bound < a
                /\ p :: paths = pre ++ fst (biggest_image W paths bs' bp' st1) :: post
                /\ area W (fst (biggest_image W paths bs' bp' st1)) = Some a
                /\ (forall q a', q ∈ pre -> area W q = Some a' -> a' < a)
                /\ (forall q a', q ∈ post -> area W q = Some a' -> a' <= a)).
    { intros bs' bp' bound Hp (pre & post & a & Ha & Heq & Harea & Hpre & Hpost).
      exists (p :: pre), post, a. split; [exact Ha|].
      split; [cbn [app]; by rewrite <- Heq|]. split; [exact Harea|].
      split; [|exact Hpost].
      intros q a' Hq Ha'. apply elem_of_cons in Hq as [-> | Hq]; [|eauto].
      specialize (Hp a' Ha'). lia. }
    destruct (area W p) as [size|] eqn:Harea_p.
    + destruct (bs <? size) eqn:Hlt.
      * apply Z.ltb_lt in Hlt. right.
        destruct (IH size p st1) as [[Hall Hr] | Hright]; cbv zeta in *.
        -- exists [], paths, size. rewrite Hr. split; [exact Hlt|].
           split; [reflexivity|]. split; [exact Harea_p|].
           split; [intros q a' Hq; inversion Hq | exact Hall].
        -- destruct (Hlater size p size) as (pre & post & a & Ha & Hrest);
             [intros a' Ha'; injection Ha' as <-; lia | exact Hright |].
           exists pre, post, a. split; [lia | exact Hrest].
      * apply Z.ltb_ge in Hlt.
        destruct (IH bs bp st1) as [[Hall Hr] | Hright]; cbv zeta in *.
        -- left. split; [|exact Hr].
           intros p' a' Hin' Ha'. apply elem_of_cons in Hin' as [-> | Hin']; [|eauto].
           rewrite Harea_p in Ha'. injection Ha' as <-. lia.
        -- right. apply (Hlater bs bp bs); [|exact Hright].
           intros a' Ha'. injection Ha' as <-. lia.
    + destruct (IH bs bp st1) as [[Hall Hr] | Hright]; cbv zeta in *.
      * left. split; [|exact Hr].
        intros p' a' Hin' Ha'. apply elem_of_cons in Hin' as [-> | Hin']; [|eauto].
        rewrite Harea_p in Ha'. discriminate.
      * right. apply (Hlater bs bp bs); [|exact Hright].
        intros a' Ha'. discriminate Ha'.
Qed.

Lemma PickBestImage_first (images : QStringList) (st : St) :
  let c := candidates W (best_image_filters_ (watcher (env st))) images in
  let r := fst (PickBestImage W images st) in
  (exists p a, p ∈ c /\ area W p = Some a /\ 0 < a) ->
  exists pre post a,
    c = pre ++ r :: post
    /\ area W r = Some a /\ 0 < a
    /\ (forall q a', q ∈ pre -> area W q = Some a' -> a' < a)
    /\ (forall q a', q ∈ post -> area W q = Some a' -> a' <= a).
Proof.
  intros c r (p & a & Hin & Harea & Hpos). subst r. rewrite PickBestImage_eq. fold c.
  destruct (biggest_image_first c 0 EmptyString st)
    as [[Hall _] | (pre & post & a0 & Ha0 & Hrest)].
  - specialize (Hall p a Hin Harea). lia.
  - exists pre, post, a0. tauto.
Qed.

(** C8, as amended.  While no stop is requested: in a directory whose image
    candidates are cover.jpg and folder.jpg, in whichever order the listing
    gave them, with the filter order front, cover, the art chosen for a song
    of that directory is cover.jpg provided cover.jpg loads as an image of
    nonzero area, whatever the size of folder.jpg; case folding leaves these
    lower-case names and filters as they are.  In general the filters are
    tried in order and the matches of the first filter that matches any file
    name, without regard to case, are the candidates; all images are the
    candidates when no filter matches.  The candidate chosen is the first,
    in the order of the listing, among the loadable candidates of the
    largest area, the area being computed in [int] and nonzero: every
    candidate before it has a smaller area or does not load, and no
    candidate after it has a larger one.  The empty path is chosen when no
    candidate loads with a nonzero area. *)
Theorem art_by_first_filter_then_largest_area (st : St) :
  (forall file album_art cover folder images a,
     fileName cover = "cover.jpg" -> fileName folder = "folder.jpg" ->
     (forall s, s ∈ ["cover.jpg"; "folder.jpg"; "front"; "cover"] -> toCaseFolded W s = s) ->
     images = [cover; folder] \/ images = [folder; cover] ->
     album_art !! DirectoryPart W file = Some images ->
     best_image_filters_ (watcher (env st)) = ["front"; "cover"] ->
     area W cover = Some a -> 0 < a ->
     fst (ImageForSong W file album_art st)
       = (fromLocalFile cover, <[DirectoryPart W file := [cover]]> album_art))
  /\ (forall images,
        let c := candidates W (best_image_filters_ (watcher (env st))) images in
        let r := fst (PickBestImage W images st) in
        ((exists p a, p ∈ c /\ area W p = Some a /\ 0 < a) ->
         r ∈ c
         /\ (exists a, area W r = Some a /\ 0 < a
                       /\ forall p' a', p' ∈ c -> area W p' = Some a' -> a' <= a)
         /\ exists pre post a,
              c = pre ++ r :: post
              /\ area W r = Some a
              /\ (forall q a', q ∈ pre -> area W q = Some a' -> a' < a)
              /\ (forall q a', q ∈ post -> area W q = Some a' -> a' <= a))
        /\ ((forall p a, p ∈ c -> area W p = Some a -> a <= 0) -> r = EmptyString))
  /\ (forall pre f post images,
        (forall g, g ∈ pre -> matches W g images = []) -> matches W f images <> [] ->
        candidates W (pre ++ f :: post) images = matches W f images)
  /\ (forall filters images,
        (forall g, g ∈ filters -> matches W g images = []) ->
        candidates W filters images = images).
Proof.
  split; [|split; [|split]].
  - intros file album_art cover folder images a Hc Hf Hfold Himages Hart Hfilters Harea Hpos.
    assert (Hmatches : matches W "front" images = [] /\ matches W "cover" images = [cover]).
    { unfold matches, contains_ci.
      destruct Himages as [-> | ->]; rewrite !filter_cons, !filter_nil, ?Hc, ?Hf;
        rewrite !(Hfold "cover.jpg"), !(Hfold "folder.jpg"), !(Hfold "front"),
          !(Hfold "cover") by set_solver;
        split; reflexivity. }
    destruct Hmatches as [Hfront Hcover].
    assert (Hcand : candidates W ["front"; "cover"] images = [cover]).
    { change ["front"; "cover"] with (["front"] ++ "cover" :: []).
      rewrite candidates_first_match; [exact Hcover | | rewrite Hcover; discriminate].
      intros g Hg. apply list_elem_of_singleton in Hg. subst g. exact Hfront. }
    unfold ImageForSong. rewrite Hart.
    assert (Hlen : (length images =? 1)%nat = false) by (destruct Himages as [-> | ->]; done).
    rewrite Hlen. unfold bind at 1.
    destruct (PickBestImage W images st) as [best st'] eqn:Hpick.
    destruct (PickBestImage_spec images st) as [Hbest _].
    rewrite Hfilters, Hcand, Hpick in Hbest. cbn [fst] in Hbest.
    destruct Hbest as [Hin _]; [exists cover, a; split; [left|done]|].
    apply list_elem_of_singleton in Hin. subst best. reflexivity.
  - intros images. cbv zeta. destruct (PickBestImage_spec images st) as [Hbest Hnone].
    split; [|exact Hnone]. intros Hsome.
    destruct (Hbest Hsome) as [Hin Hmax]. split; [exact Hin|]. split; [exact Hmax|].
    destruct (PickBestImage_first images st Hsome) as (pre & post & a & Heq & Ha & _ & Hpre & Hpost).
    exists pre, post, a. auto.
  - intros pre f post images. apply candidates_first_match.
  - intros filters images. apply candidates_no_match.
Qed.

End AlbumArt.

Lemma art_by_first_filter_then_largest_area_witness :
  let W := world_with_art (Some (300, 300)) in
  let st := ScanTransaction_ctor W example_env 1 false false false in
  let images := ["/music/a/cover.jpg"; "/music/a/folder.jpg"] in
  (forall n, stop_requested_ W n = false)
  /\ area W "/music/a/cover.jpg" = Some 90000
  /\ fst (ImageForSong W "/music/a/1.mp3" {[ "/music/a" := images ]} st)
     = (fromLocalFile "/music/a/cover.jpg",
        <[ "/music/a" := ["/music/a/cover.jpg"] ]> {[ "/music/a" := images ]}).
Proof.
  intros W st images.
  split; [intros n; reflexivity|]. split; [reflexivity|].
  refine (proj1 (art_by_first_filter_then_largest_area W (fun n => eq_refl) st)
            "/music/a/1.mp3" {[ "/music/a" := images ]}
            "/music/a/cover.jpg" "/music/a/folder.jpg" images 90000
            eq_refl eq_refl _ (or_introl eq_refl) _ eq_refl eq_refl _).
  - intros s Hs. repeat (apply elem_of_cons in Hs as [-> | Hs]; [reflexivity|]).
    inversion Hs.
  - reflexivity.
  - lia.
Defined.

(** C8 as stated fails: with a cover.jpg that does not load as an image, the
    song found next to cover.jpg and folder.jpg gets no art at all, although
    folder.jpg loads. *)
Lemma art_selection_counterexample :
  let W := world_with_art None in
  let st := ScanTransaction_ctor W example_env 1 false false false in
  best_image_filters_ (watcher (env st)) = ["front"; "cover"]
  /\ map Song.art_automatic (Txn.new_songs (txn (snd (reconcile_files W "/music/a" st))))
     = [QUrl_empty]
  /\ QUrl_empty <> fromLocalFile "/music/a/cover.jpg".
Proof.
  intros W st. split; [reflexivity|]. split; [vm_compute; reflexivity | discriminate].
Qed.

(* --------------------------------------------------------------------- *)
(** ** New files and cue sheets *)

Section NewFile.

Variable W : World.

Lemma accept_cue_songs_eq (file : QString) (cue_songs : SongList) :
  forall (song_list : SongList) (st : St),
    let referring := sections_referring_to W file cue_songs in
    accept_cue_songs W file (normalized_D W file) cue_songs song_list st =
    (song_list ++ (if IsMediaFileBlocking W file then referring else []),
     add_effects (map (fun _ => MediaFileChecked file) referring) st).
Proof.
  unfold sections_referring_to.
  induction cue_songs as [|cue_song rest IH]; intros song_list st; cbn [accept_cue_songs].
  - rewrite filter_nil. unfold ret, add_effects. cbn [map].
    destruct (IsMediaFileBlocking W file); rewrite !app_nil_r, St_eta; reflexivity.
  - destruct (String.eqb (normalized_D W (toLocalFile (Song.url cue_song)))
                         (normalized_D W file)) eqn:Heq.
    + rewrite filter_cons_True by (rewrite Heq; done).
      unfold bind, emit. destruct (IsMediaFileBlocking W file) eqn:Hmedia.
      * rewrite IH. cbv zeta. rewrite ?Hmedia. unfold add_effects. cbn.
        rewrite <- !app_assoc. reflexivity.
      * rewrite IH. cbv zeta. rewrite ?Hmedia. unfold add_effects. cbn.
        rewrite <- !app_assoc. reflexivity.
    + rewrite filter_cons_False by (rewrite Heq; exact id). apply IH.
Qed.

Lemma ScanNewFile_cue_eq (file p : QString) (cues_processed : gset string) (st : St) :
  let matching_cue := NoExtensionPart W file +:+ ".cue" in
  let referring := sections_referring_to W file (CueParser_Load W matching_cue p) in
  let accepted := if IsMediaFileBlocking W file then referring else [] in
  GetMtimeForCue W matching_cue <> 0 ->
  ScanNewFile W file p matching_cue cues_processed st =
  if bool_decide (matching_cue ∈ cues_processed) then (([], cues_processed), st)
  else ((accepted,
         if is_nil accepted then cues_processed else {[matching_cue]} ∪ cues_processed),
        add_effects (CueLoaded matching_cue p
                     :: map (fun _ => MediaFileChecked file) referring) st).
Proof.
  intros matching_cue referring accepted Hmtime. unfold ScanNewFile.
  apply Z.eqb_neq in Hmtime. rewrite Hmtime. cbn [negb].
  destruct (bool_decide (matching_cue ∈ cues_processed)); [reflexivity|].
  unfold bind at 1. unfold emit at 1. unfold bind at 1.
  rewrite accept_cue_songs_eq. cbv zeta. cbn [app].
  fold referring. fold accepted. unfold add_effects. cbn.
  rewrite <- app_assoc. cbn [app].
  destruct accepted; reflexivity.
Qed.

Lemma biggest_image_frame (paths : QStringList) :
  forall (biggest_size : Z) (biggest_path : QString) (st : St),
    exists loaded k,
      snd (biggest_image W paths biggest_size biggest_path st)
      = add_effects (map ImageLoaded loaded) (with_polls k st).
Proof.
  induction paths as [|p paths IH]; intros bs bp st; cbn [biggest_image].
  - exists [], (polls (env st)). unfold ret, add_effects, with_polls. cbn.
    rewrite app_nil_r, St_eta. reflexivity.
  - unfold bind at 1. unfold read_stop_requested at 1.
    destruct (stop_requested_ W (polls (env st))).
    + exists [], (S (polls (env st))). unfold ret, add_effects, with_polls. cbn.
      rewrite app_nil_r. reflexivity.
    + unfold bind at 1. unfold emit at 1.
      assert (Hstep : forall bs' bp',
                exists loaded k,
                  snd (biggest_image W paths bs' bp'
                         (add_effects [ImageLoaded p] (with_polls (S (polls (env st))) st)))
                  = add_effects (map ImageLoaded loaded) (with_polls k st)).
      { intros bs' bp'. destruct (IH bs' bp'
          (add_effects [ImageLoaded p] (with_polls (S (polls (env st))) st)))
          as (loaded & k & Heq).
        exists (p :: loaded), k. rewrite Heq. unfold add_effects, with_polls. cbn.
        rewrite <- app_assoc. reflexivity. }
      destruct (QImage W p) as [[width height]|]; [|apply Hstep].
      destruct (bs <? wrap_int (width * height)); apply Hstep.
Qed.

Lemma ImageForSong_frame (file : QString) (album_art : gmap string (list string)) (st : St) :
  exists loaded k,
    snd (ImageForSong W file album_art st)
    = add_effects (map ImageLoaded loaded) (with_polls k st).
Proof.
  assert (Hid : exists loaded k, st = add_effects (map ImageLoaded loaded) (with_polls k st)).
  { exists [], (polls (env st)). unfold add_effects, with_polls. cbn.
    rewrite app_nil_r, St_eta. reflexivity. }
  unfold ImageForSong. destruct (album_art !! DirectoryPart W file) as [images|]; [|exact Hid].
  destruct (length images =? 1)%nat; [exact Hid|].
  unfold bind.
  replace (PickBestImage W images st) with
    (biggest_image W
       (if is_nil (filter_images W (best_image_filters_ (watcher (env st))) images [])
        then images
        else filter_images W (best_image_filters_ (watcher (env st))) images [])
       0 EmptyString st) by reflexivity.
  match goal with |- context [biggest_image W ?l ?s ?q ?st0] =>
    destruct (biggest_image_frame l s q st0) as (loaded & k & Heq);
    destruct (biggest_image W l s q st0) as [best st'] end.
  cbn [snd] in *. exists loaded, k. exact Heq.
Qed.

Lemma set_new_songs_twice (a b : SongList) (t : Txn.t) :
  Txn.set_new_songs a (Txn.set_new_songs b t) = Txn.set_new_songs a t.
Proof. destruct t. reflexivity. Qed.

Lemma set_new_songs_same (t : Txn.t) : Txn.set_new_songs (Txn.new_songs t) t = t.
Proof. destruct t. reflexivity. Qed.

Lemma for_each_file_new_songs (image : QUrl) (l : SongList) :
  forall st : St,
    for_each l (fun song =>
      do t <- get_txn;
      let song := Song.set_directory_id (Txn.dir_ t) song in
      let song := if QUrl_isEmpty (Song.art_automatic song)
                  then Song.set_art_automatic image song else song in
      push_new_song song) st
    = (tt, with_txn (Txn.set_new_songs
                       (Txn.new_songs (txn st)
                        ++ map (filed_as_new (Txn.dir_ (txn st)) image) l) (txn st)) st).
Proof.
  induction l as [|song l IH]; intros st; cbn [for_each map].
  - unfold ret, with_txn. rewrite app_nil_r, set_new_songs_same.
    destruct st. reflexivity.
  - unfold bind at 1. unfold bind at 1. unfold get_txn at 1. unfold push_new_song at 1.
    unfold modify_txn at 1. rewrite IH. destruct st as [e t]. destruct t.
    unfold with_txn, filed_as_new. cbn. rewrite <- app_assoc. reflexivity.
Qed.

(** C4, as amended.  A file with no stored song whose sibling cue sheet
    exists with a nonzero mtime is scanned through the cue sheet.  When the cue sheet has
    not been processed before in this visit, the songs found are exactly the
    sections of the sheet whose media file, compared in normalization form D,
    is the file, and all of them only if the file passes the media-file
    check; the cue sheet is marked as processed when at least one was found.
    When it has been processed before, nothing is found and the sheet is not
    loaded again.  In both cases no tag read of the file takes place, and in
    the loop over the files the songs filed as new for that file are exactly
    these sections. *)
Theorem new_file_expands_its_cue_sheet (file p : QString) (st : St) :
  let matching_cue := NoExtensionPart W file +:+ ".cue" in
  let referring := sections_referring_to W file (CueParser_Load W matching_cue p) in
  let accepted := if IsMediaFileBlocking W file then referring else [] in
  GetMtimeForCue W matching_cue <> 0 ->
  (forall cues_processed,
     let r := ScanNewFile W file p matching_cue cues_processed st in
     (matching_cue ∉ cues_processed ->
      fst (fst r) = accepted
      /\ snd (fst r) = (if is_nil accepted then cues_processed
                        else {[matching_cue]} ∪ cues_processed)
      /\ trace (env (snd r)) =
           trace (env st) ++ CueLoaded matching_cue p
                             :: map (fun _ => MediaFileChecked file) referring)
     /\ (matching_cue ∈ cues_processed -> r = (([], cues_processed), st))
     /\ (accepted <> [] -> matching_cue ∈ snd (fst r))
     /\ cues_processed ⊆ snd (fst r)
     /\ txn (snd r) = txn st)
  /\ (forall songs_in_db ls,
        FindSongByPath songs_in_db file = None ->
        stop_requested_ W (polls (env st)) = false ->
        let r := scan_file W p songs_in_db file ls st in
        (forall e, is_TagRead e = true -> e ∈ trace (env (snd r)) -> e ∈ trace (env st))
        /\ (matching_cue ∈ cues_processed ls ->
            Txn.new_songs (txn (snd r)) = Txn.new_songs (txn st)
            /\ forall e, is_CueLoaded e = true -> e ∈ trace (env (snd r)) ->
                         e ∈ trace (env st))
        /\ (matching_cue ∉ cues_processed ls ->
            exists image ls',
              fst r = Some ls'
              /\ (accepted <> [] -> matching_cue ∈ cues_processed ls')
              /\ Txn.new_songs (txn (snd r))
                 = Txn.new_songs (txn st)
                   ++ map (filed_as_new (Txn.dir_ (txn st)) image) accepted)).
Proof.
  intros matching_cue referring accepted Hmtime. split.
  - intros cues_processed r. subst r. rewrite ScanNewFile_cue_eq by exact Hmtime.
    fold matching_cue. fold referring. fold accepted.
    destruct (bool_decide (matching_cue ∈ cues_processed)) eqn:Hdec.
    + apply bool_decide_eq_true in Hdec. cbn [fst snd].
      split; [intros Hnot; contradiction|]. split; [reflexivity|].
      split; [intros _; exact Hdec|]. split; reflexivity.
    + apply bool_decide_eq_false in Hdec. cbn [fst snd].
      split; [intros _; split; [reflexivity|]; split; reflexivity|].
      split; [intros Hin; contradiction|].
      split; [|split; [|reflexivity]].
      * intros Hne. destruct accepted; [done|]. cbn [is_nil]. set_solver.
      * destruct (is_nil accepted); set_solver.
  - intros songs_in_db ls Hnone Hstop r.
    assert (Hr : r = scan_file W p songs_in_db file ls st) by reflexivity. clearbody r.
    unfold scan_file in Hr.
    unfold bind at 1 in Hr. unfold read_stop_requested at 1 in Hr. rewrite Hstop, Hnone in Hr.
    unfold bind at 1 in Hr. fold matching_cue in Hr.
    rewrite ScanNewFile_cue_eq in Hr by exact Hmtime.
    fold matching_cue in Hr. fold referring in Hr. fold accepted in Hr.
    destruct (bool_decide (matching_cue ∈ cues_processed ls)) eqn:Hdec.
    + apply bool_decide_eq_true in Hdec. cbn [fst snd is_nil] in Hr. unfold ret in Hr.
      subst r. cbn [fst snd env txn trace].
      split; [intros e _ He; exact He|].
      split; [intros _; split; [reflexivity | intros e _ He; exact He]|].
      intros Hnot. contradiction.
    + apply bool_decide_eq_false in Hdec. cbn [fst snd] in Hr.
      destruct accepted as [|song accepted'] eqn:Hacc.
      * cbn [is_nil] in Hr. unfold ret in Hr. subst r. cbn [fst snd].
        split; [|split].
        -- intros e He. unfold add_effects. cbn [env trace].
           rewrite elem_of_app, elem_of_cons, list_elem_of_fmap.
           intros [Hin | [-> | (x & -> & _)]]; [exact Hin | discriminate | discriminate].
        -- intros Hin. contradiction.
        -- intros _. exists QUrl_empty. eexists. split; [reflexivity|].
           split; [done|]. cbn [map]. rewrite app_nil_r. reflexivity.
      * cbn [is_nil] in Hr. unfold bind at 1 in Hr.
        match type of Hr with context [ImageForSong W file ?aa ?st0] =>
          destruct (ImageForSong_frame file aa st0) as (loaded & k & Hframe);
          destruct (ImageForSong W file aa st0) as [ia st2] end.
        cbn [snd] in Hframe. subst st2. unfold bind at 1 in Hr.
        rewrite for_each_file_new_songs in Hr. unfold ret in Hr. subst r. cbn [fst snd].
        split; [|split].
        -- intros e He. unfold with_txn, add_effects, with_polls. cbn [env trace].
           rewrite !elem_of_app, elem_of_cons, !list_elem_of_fmap.
           intros [[Hin | [-> | (x & -> & _)]] | (x & -> & _)];
             [exact Hin | discriminate | discriminate | discriminate].
        -- intros Hin. contradiction.
        -- intros _. exists (fst ia). eexists. split; [reflexivity|].
           cbn [cues_processed]. split; [intros _; set_solver|]. reflexivity.
Qed.

End NewFile.

Lemma new_file_expands_its_cue_sheet_witness :
  let W := world_with_cue in
  let st := ScanTransaction_ctor W example_env 1 false false false in
  let r := ScanNewFile W "/music/a/1.flac" "/music/a" "/music/a/1.cue" ∅ st in
  GetMtimeForCue W "/music/a/1.cue" <> 0
  /\ fst (fst r) = [cue_section (-1) "/music/a/1.flac" "/music/a/1.cue" 0]
  /\ snd (fst r) = {[ "/music/a/1.cue" ]} ∪ ∅.
Proof.
  intros W st r.
  assert (Hmtime : GetMtimeForCue W "/music/a/1.cue" <> 0) by (vm_compute; discriminate).
  split; [exact Hmtime|].
  destruct (new_file_expands_its_cue_sheet W "/music/a/1.flac" "/music/a" st Hmtime)
    as [Hscan _].
  destruct (Hscan ∅) as (Hfresh & _).
  destruct Hfresh as (Hsongs & Hcues & _); [set_solver|].
  split; [exact Hsongs | exact Hcues].
Defined.

(** C4 as stated fails.  A cue sheet beside two media files of the same base
    name, with a section for each, is marked as processed by the first file:
    the second file yields nothing, although a section of the sheet refers
    to it and it passes the media-file check.  And a cue sheet that the
    listing gives before its media file is loaded for its own path first,
    yields nothing there, is not marked, and is loaded again for the media
    file: twice in one visit. *)
Lemma new_file_cue_counterexample :
  let W := world_with_shared_cue in
  let st := ScanTransaction_ctor W example_env 1 false false false in
  let cue := "/music/a/1.cue" in
  let st' := snd (reconcile_files W "/music/a" st) in
  let t2 := snd (reconcile_files world_with_cue "/music/a"
                   (ScanTransaction_ctor world_with_cue example_env 1 false false false)) in
  GetMtimeForCue W cue <> 0
  /\ NoExtensionPart W "/music/a/1.wav" +:+ ".cue" = cue
  /\ FindSongByPath (stored_songs W "/music/a" st) "/music/a/1.wav" = None
  /\ IsMediaFileBlocking W "/music/a/1.wav" = true
  /\ sections_referring_to W "/music/a/1.wav" (CueParser_Load W cue "/music/a")
     = [cue_section (-1) "/music/a/1.wav" cue 5000]
  /\ map (fun s => toLocalFile (Song.url s)) (Txn.new_songs (txn st')) = ["/music/a/1.flac"]
  /\ List.filter is_TagRead (trace (env st')) = []
  /\ map (fun s => toLocalFile (Song.url s)) (Txn.new_songs (txn t2)) = ["/music/a/1.flac"]
  /\ List.filter is_CueLoaded (trace (env t2))
     = [CueLoaded cue "/music/a"; CueLoaded cue "/music/a"].
Proof. vm_compute. repeat split. discriminate. Qed.

(* --------------------------------------------------------------------- *)
(** ** Stored songs whose file changed *)

Section StoredSongs.

Variable W : World.

Lemma QUrl_eqb_refl (u : QUrl) : QUrl_eqb u u = true.
Proof. unfold QUrl_eqb. apply String.eqb_refl. Qed.

Lemma IsMetadataEqual_refl (s : Song.t) : Song.IsMetadataEqual s s = true.
Proof.
  unfold Song.IsMetadataEqual.
  rewrite !String.eqb_refl, !Z.eqb_refl, !QUrl_eqb_refl, Bool.eqb_reflx. reflexivity.
Qed.



Lemma set_deleted_songs_twice (a b : SongList) (t : Txn.t) :
  Txn.set_deleted_songs a (Txn.set_deleted_songs b t) = Txn.set_deleted_songs a t.
Proof. destruct t. reflexivity. Qed.

Lemma set_deleted_songs_same (t : Txn.t) : Txn.set_deleted_songs (Txn.deleted_songs t) t = t.
Proof. destruct t. reflexivity. Qed.

(** A loop that queues as deleted the songs that pass a test. *)
Lemma for_each_push_deleted (test : Song.t -> bool) (l : SongList) :
  forall st : St,
    for_each l (fun song => when (test song) (push_deleted_song song)) st
    = (tt, with_txn (Txn.set_deleted_songs
                       (Txn.deleted_songs (txn st) ++ filter (fun song => test song) l)
                       (txn st)) st).
Proof.
  induction l as [|song l IH]; intros st; cbn [for_each].
  - rewrite filter_nil, app_nil_r, set_deleted_songs_same. destruct st. reflexivity.
  - unfold bind at 1. destruct (test song) eqn:Htest; cbn [when].
    + rewrite filter_cons_True by (rewrite Htest; done).
      unfold push_deleted_song at 1. unfold modify_txn at 1. rewrite IH.
      destruct st as [e t]. destruct t. unfold with_txn. cbn.
      rewrite <- app_assoc. reflexivity.
    + rewrite filter_cons_False by (rewrite Htest; exact id).
      unfold ret at 1. apply IH.
Qed.

Lemma PreserveUserSetData_eq (file : QString) (image : QUrl) (matching_song out : Song.t)
    (st : St) :
  PreserveUserSetData file image matching_song out st =
  let song := preserved image matching_song out in
  if Song.is_unavailable matching_song || negb (Song.IsMetadataEqual matching_song song)
  then push_new_song song st
  else push_touched_song song st.
Proof.
  unfold PreserveUserSetData, preserved. cbv zeta.
  destruct (Song.is_unavailable matching_song); [reflexivity|].
  cbn [orb]. destruct (negb _); reflexivity.
Qed.

Lemma UpdateNonCueAssociatedSong_cue_deleted (file : QString) (matching_song : Song.t)
    (image : QUrl) (st : St) :
  let sections := GetSongsByUrl W (fromLocalFile file) in
  let others :=
    filter (fun song => negb (Song.IsMetadataEqual song matching_song)) sections in
  let st1 :=
    add_effects [Queried_GetSongsByUrl (fromLocalFile file); TagRead file]
      (with_txn (Txn.set_deleted_songs (Txn.deleted_songs (txn st) ++ others) (txn st)) st) in
  UpdateNonCueAssociatedSong W file matching_song image true st =
  if Song.is_valid (read_from_disk W file st)
  then PreserveUserSetData file image matching_song (read_from_disk W file st) st1
  else (tt, st1).
Proof.
  unfold UpdateNonCueAssociatedSong. cbn [when].
  unfold bind at 1. unfold bind at 1. unfold emit at 1.
  rewrite for_each_push_deleted.
  unfold bind at 1. unfold get_watcher at 1. unfold bind at 1. unfold get_txn at 1.
  unfold bind at 1. unfold emit at 1. unfold read_from_disk.
  destruct st as [[w tr po] t]. destruct t. unfold with_txn, add_effects. cbn.
  rewrite <- app_assoc. cbn [app]. unfold when.
  destruct (Song.is_valid _); reflexivity.
Qed.

Lemma preserved_fields (image : QUrl) (matching_song out : Song.t) :
  let song := preserved image matching_song out in
  Song.id song = Song.id matching_song
  /\ Song.cue_path song = Song.cue_path out
  /\ Song.playcount song = Song.playcount matching_song
  /\ Song.skipcount song = Song.skipcount matching_song
  /\ Song.lastplayed song = Song.lastplayed matching_song
  /\ Song.art_manual song = Song.art_manual matching_song.
Proof.
  unfold preserved. cbv zeta.
  destruct (negb (Song.has_embedded_cover (Song.set_id (Song.id matching_song) out)));
    repeat split.
Qed.


End StoredSongs.



(* --------------------------------------------------------------------- *)
(** ** The loop over the files on disk *)

Section FileLoop.

Variable W : World.

Lemma bind_run {A B} (m : M A) (k : A -> M B) (st : St) :
  bind m k st = k (fst (m st)) (snd (m st)).
Proof. unfold bind. destruct (m st). reflexivity. Qed.

Lemma contents_FileList_of (l : QStringList) : contents (FileList_of l) = l.
Proof. unfold contents, FileList_of. cbn. apply firstn_all. Qed.

Lemma contents_removeAll (x : QString) (fl : FileList) :
  contents (removeAll x fl) = filter (fun y => negb (String.eqb y x)) (contents fl).
Proof. unfold removeAll, contents at 1. cbn [used slots]. apply take_app_length. Qed.


Lemma contents_removeAll_incl (x y : QString) (fl : FileList) :
  y ∈ contents (removeAll x fl) -> y ∈ contents fl.
Proof. rewrite contents_removeAll, list_elem_of_filter. tauto. Qed.

(** What one round of the loop does to the list of files: nothing, unless
    the file has a stored song and is gone, in which case it is removed. *)
Lemma scan_file_files (p : QString) (songs_in_db : SongList) (file : QString) (ls : FileLoop)
    (st : St) :
  match fst (scan_file W p songs_in_db file ls st) with
  | None => stop_requested_ W (polls (env st)) = true
  | Some ls' =>
      stop_requested_ W (polls (env st)) = false
      /\ (loop_files_on_disk ls' = loop_files_on_disk ls
          /\ (FindSongByPath songs_in_db file = None \/ exists_ W file = true)
          \/ loop_files_on_disk ls' = removeAll file (loop_files_on_disk ls)
             /\ FindSongByPath songs_in_db file <> None /\ exists_ W file = false)
  end.
Proof.
  unfold scan_file. rewrite bind_run. unfold read_stop_requested at 1 2. cbn [fst snd].
  destruct (stop_requested_ W (polls (env st))); [reflexivity|].
  destruct (FindSongByPath songs_in_db file) as [m|].
  - destruct (exists_ W file); cbn [negb].
    + rewrite !bind_run. unfold ret. cbn [fst loop_files_on_disk]. auto.
    + unfold ret. cbn [fst loop_files_on_disk]. split; [reflexivity|]. right. auto.
  - rewrite bind_run.
    destruct (is_nil (fst (fst (ScanNewFile W file p _ (cues_processed ls) _)))).
    + unfold ret. cbn [fst loop_files_on_disk]. auto.
    + rewrite !bind_run. unfold ret. cbn [fst loop_files_on_disk]. auto.
Qed.

(** The loop never adds a file to the list. *)
Lemma scan_files_contents (p : QString) (songs_in_db : SongList) (n : nat) :
  forall (i : nat) (ls : FileLoop) (st : St) (ls' : FileLoop),
    fst (scan_files W n i p songs_in_db ls st) = Some ls' ->
    forall y, y ∈ contents (loop_files_on_disk ls') -> y ∈ contents (loop_files_on_disk ls).
Proof.
  induction n as [|n IH]; intros i ls st ls'; cbn [scan_files].
  - unfold ret. cbn [fst]. intros [= <-] y Hy. exact Hy.
  - destruct (slots (loop_files_on_disk ls) !! i) as [file|].
    + rewrite bind_run.
      pose proof (scan_file_files p songs_in_db file ls st) as Hstep.
      destruct (fst (scan_file W p songs_in_db file ls st)) as [ls1|].
      * intros Hrest y Hy. apply (IH _ _ _ _ Hrest) in Hy.
        destruct Hstep as [_ [[Hsame _] | [Hrem _]]].
        -- by rewrite Hsame in Hy.
        -- rewrite Hrem in Hy. by apply contents_removeAll_incl in Hy.
      * unfold ret. cbn [fst]. discriminate.
    + unfold ret. cbn [fst]. intros [= <-] y Hy. exact Hy.
Qed.

Section NeverStopped.

Hypothesis never_stopped : forall n, stop_requested_ W n = false.

Lemma scan_file_some (p : QString) (songs_in_db : SongList) (file : QString) (ls : FileLoop)
    (st : St) :
  exists ls', fst (scan_file W p songs_in_db file ls st) = Some ls'.
Proof.
  pose proof (scan_file_files p songs_in_db file ls st) as Hstep.
  destruct (fst (scan_file W p songs_in_db file ls st)) as [ls'|]; [by exists ls'|].
  rewrite never_stopped in Hstep. discriminate.
Qed.

Lemma scan_files_some (p : QString) (songs_in_db : SongList) (n : nat) :
  forall (i : nat) (ls : FileLoop) (st : St),
    exists ls', fst (scan_files W n i p songs_in_db ls st) = Some ls'.
Proof.
  induction n as [|n IH]; intros i ls st; cbn [scan_files].
  - by exists ls.
  - destruct (slots (loop_files_on_disk ls) !! i) as [file|]; [|by exists ls].
    rewrite bind_run. destruct (scan_file_some p songs_in_db file ls st) as [ls1 Hls1].
    rewrite Hls1. apply IH.
Qed.

(** As long as the loop meets no file that has a stored song and is gone,
    it goes through the list as it found it. *)
Lemma scan_files_prefix (p : QString) (songs_in_db : SongList) (pre : QStringList) :
  forall (n i : nat) (ls : FileLoop) (st : St),
    (forall k g, pre !! k = Some g -> slots (loop_files_on_disk ls) !! (i + k)%nat = Some g) ->
    (forall g, g ∈ pre -> FindSongByPath songs_in_db g = None \/ exists_ W g = true) ->
    exists ls' st',
      scan_files W (length pre + n) i p songs_in_db ls st
      = scan_files W n (i + length pre) p songs_in_db ls' st'
      /\ loop_files_on_disk ls' = loop_files_on_disk ls.
Proof.
  induction pre as [|g pre IH]; intros n i ls st Hslots Hpre.
  - exists ls, st. cbn [length Nat.add]. rewrite Nat.add_0_r. done.
  - cbn [length Nat.add scan_files].
    assert (Hg : slots (loop_files_on_disk ls) !! i = Some g).
    { specialize (Hslots 0%nat g eq_refl). by rewrite Nat.add_0_r in Hslots. }
    rewrite Hg, bind_run.
    pose proof (scan_file_files p songs_in_db g ls st) as Hstep.
    destruct (scan_file_some p songs_in_db g ls st) as [ls1 Hls1].
    rewrite Hls1 in Hstep |- *.
    destruct Hstep as [_ [[Hsame _] | [_ [Hfound Hgone]]]].
    + destruct (IH n (S i) ls1 (snd (scan_file W p songs_in_db g ls st))) as (ls' & st' & Heq & Hfiles).
      * intros k g' Hk. rewrite Hsame.
        specialize (Hslots (S k) g' Hk). by rewrite Nat.add_succ_r in Hslots.
      * intros g' Hg'. apply Hpre. by right.
      * exists ls', st'. rewrite Heq, Hfiles, Hsame.
        replace (S i + length pre)%nat with (i + S (length pre))%nat by lia. done.
    + exfalso. destruct (Hpre g) as [Hnone | Hex]; [left | congruence | congruence].
Qed.


End NeverStopped.

End FileLoop.

(* --------------------------------------------------------------------- *)
(** ** One visit: listing, reconciliation, deleted songs *)

Section Visit.

Variable W : World.

Hypothesis never_stopped : forall n, stop_requested_ W n = false.

Lemma same_song_cache_refl (st : St) : same_song_cache st st.
Proof. repeat split. Qed.

Lemma same_song_cache_trans (a b c : St) :
  same_song_cache a b -> same_song_cache b c -> same_song_cache a c.
Proof. unfold same_song_cache. intros (-> & -> & ->) (-> & -> & ->). repeat split. Qed.

Lemma stored_songs_same_cache (p : QString) (st st' : St) :
  same_song_cache st st' -> stored_songs W p st' = stored_songs W p st.
Proof. unfold same_song_cache, stored_songs. intros (-> & -> & ->). reflexivity. Qed.

Lemma list_child_outcome (child : QString) (acc : Listing) (st : St) :
  exists l st',
    list_child W child acc st = (Some l, st')
    /\ same_song_cache st st'
    /\ files_on_disk l =
       files_on_disk acc
       ++ (if negb (isDir W child)
              && negb (list_contains sValidImages (ExtensionPart W child))
              && negb (isHidden W child)
           then [child] else []).
Proof.
  unfold list_child. rewrite bind_run. unfold read_stop_requested at 1 2.
  rewrite never_stopped. cbn [fst snd].
  destruct (isDir W child); cbn [negb andb].
  - destruct (isHidden W child); cbn [negb].
    + eexists _, _. split; [reflexivity|]. rewrite app_nil_r. repeat split.
    + rewrite bind_run, HasSeenSubdir_eq, fetch_known_subdirs_eq. cbn [fst snd].
      match goal with |- context [if negb ?b then _ else _] => destruct b end; cbn [negb].
      * eexists _, _. split; [reflexivity|]. rewrite app_nil_r.
        split; [|reflexivity]. unfold same_song_cache. cbn. destruct (txn st). repeat split.
      * eexists _, _. split; [reflexivity|]. cbn [files_on_disk]. rewrite app_nil_r.
        split; [|reflexivity]. unfold same_song_cache. cbn. destruct (txn st). repeat split.
  - destruct (list_contains sValidImages (ExtensionPart W child)); cbn [negb andb].
    + eexists _, _. split; [reflexivity|]. cbn [files_on_disk]. rewrite app_nil_r.
      repeat split.
    + destruct (isHidden W child); cbn [negb].
      * eexists _, _. split; [reflexivity|]. rewrite app_nil_r. repeat split.
      * eexists _, _. split; [reflexivity|]. repeat split.
Qed.

Lemma list_children_outcome (children : QStringList) :
  forall (acc : Listing) (st : St),
    exists l st',
      list_children W children acc st = (Some l, st')
      /\ same_song_cache st st'
      /\ files_on_disk l =
         files_on_disk acc
         ++ filter (fun child => negb (isDir W child)
                                 && negb (list_contains sValidImages (ExtensionPart W child))
                                 && negb (isHidden W child))
                   children.
Proof.
  induction children as [|child children IH]; intros acc st; cbn [list_children].
  - exists acc, st. rewrite filter_nil, app_nil_r. split; [reflexivity|].
    split; [apply same_song_cache_refl | reflexivity].
  - destruct (list_child_outcome child acc st) as (l1 & st1 & Heq1 & Hc1 & Hf1).
    unfold bind. rewrite Heq1.
    destruct (IH l1 st1) as (l & st' & Heq & Hc & Hf).
    exists l, st'. split; [exact Heq|]. split; [by eapply same_song_cache_trans|].
    rewrite Hf, Hf1, <- app_assoc. f_equal.
    destruct (negb (isDir W child) && _ && _) eqn:Htest.
    + rewrite filter_cons_True by (rewrite Htest; done). reflexivity.
    + rewrite filter_cons_False by (rewrite Htest; exact id). reflexivity.
Qed.

Lemma FindSongsInSubdirectory_fst (p : QString) (st : St) :
  fst (FindSongsInSubdirectory W p st) = stored_songs W p st.
Proof.
  unfold FindSongsInSubdirectory, stored_songs. unfold_monad.
  destruct st as [e t]. destruct t. cbn. destruct cached_songs_dirty_; reflexivity.
Qed.

(** The outcome of the reconciliation when nobody asks to stop: the loop
    over the listed files ends with some list of files, and the stored
    songs that are gone from that list are queued as deleted after whatever
    the loop queued. *)
Lemma reconcile_files_outcome (p : QString) (st : St) :
  let files := listed_files W p in
  let songs_in_db := stored_songs W p st in
  exists aa st3 ls st4 subdirs,
    scan_files W (length files) 0 p songs_in_db
      {| loop_album_art := aa; loop_files_on_disk := FileList_of files;
         cues_processed := ∅ |} st3 = (Some ls, st4)
    /\ reconcile_files W p st =
       (Some subdirs,
        with_txn (Txn.set_deleted_songs
                    (Txn.deleted_songs (txn st4)
                     ++ filter (fun song => gone_from (contents (loop_files_on_disk ls)) song)
                               songs_in_db)
                    (txn st4)) st4).
Proof.
  intros files songs_in_db. unfold reconcile_files.
  rewrite bind_run. unfold emit. cbn [fst snd].
  match goal with |- context [bind _ _ ?st0'] => set (st0 := st0') end.
  destruct (list_children_outcome (QDirIterator W p)
              {| album_art := ∅; files_on_disk := []; my_new_subdirs := [] |} st0)
    as (l & st1 & Heq & Hc & Hf).
  cbn [files_on_disk app] in Hf. fold (listed_files W p) in Hf. fold files in Hf.
  unfold bind at 1. rewrite Heq.
  unfold bind at 1. unfold read_stop_requested at 1. rewrite never_stopped.
  rewrite bind_run, FindSongsInSubdirectory_fst.
  match goal with |- context [snd (FindSongsInSubdirectory W p ?st2)] =>
    assert (Hdb : stored_songs W p st2 = songs_in_db)
      by (apply (stored_songs_same_cache p st st2);
          destruct Hc as (Hd & Hcs & Hcd); repeat split; assumption);
    set (st3 := snd (FindSongsInSubdirectory W p st2)) end.
  rewrite Hdb, Hf.
  destruct (scan_files_some W never_stopped p songs_in_db (length files) 0
              {| loop_album_art := album_art l; loop_files_on_disk := FileList_of files;
                 cues_processed := ∅ |} st3) as [ls Hls].
  destruct (scan_files W (length files) 0 p songs_in_db _ st3) as [r st4] eqn:Hscan.
  cbn [fst] in Hls. subst r.
  exists (album_art l), st3, ls, st4, (my_new_subdirs l).
  split; [exact Hscan|].
  unfold bind at 1. rewrite Hscan.
  unfold bind at 1. unfold look_for_deleted_songs.
  rewrite for_each_push_deleted. reflexivity.
Qed.

Lemma list_contains_false (l : QStringList) (x : QString) :
  x ∉ l -> list_contains l x = false.
Proof.
  intros Hnot. apply not_true_iff_false. unfold list_contains. rewrite existsb_exists.
  intros (y & Hin & Heq). apply String.eqb_eq in Heq. subst y.
  apply Hnot. by apply list_elem_of_In.
Qed.

Lemma deleted_after_reconcile (p : QString) (st : St) (ls : FileLoop) (st4 : St)
    (subdirs : SubdirectoryList) (song : Song.t) :
  reconcile_files W p st =
    (Some subdirs,
     with_txn (Txn.set_deleted_songs
                 (Txn.deleted_songs (txn st4)
                  ++ filter (fun song => gone_from (contents (loop_files_on_disk ls)) song)
                            (stored_songs W p st))
                 (txn st4)) st4) ->
  song ∈ stored_songs W p st ->
  Song.is_unavailable song = false ->
  toLocalFile (Song.url song) ∉ contents (loop_files_on_disk ls) ->
  song ∈ Txn.deleted_songs (txn (snd (reconcile_files W p st))).
Proof.
  intros -> Hin Havail Hnot. cbn [snd with_txn txn].
  replace (Txn.deleted_songs (Txn.set_deleted_songs _ (txn st4))) with
    (Txn.deleted_songs (txn st4)
     ++ filter (fun song => gone_from (contents (loop_files_on_disk ls)) song)
               (stored_songs W p st)) by (destruct (txn st4); reflexivity).
  apply elem_of_app. right. apply list_elem_of_filter. split; [|exact Hin].
  unfold gone_from. rewrite Havail, list_contains_false by exact Hnot. exact I.
Qed.


End Visit.



(* ===================================================================== *)
(** * Further properties of the scanner *)

(* --------------------------------------------------------------------- *)
(** ** Skip rules and stop requests *)

Section SkipRules.

Variable W : World.

Lemma skip_by_progress (p : QString) (st : St) :
  snd (AddToProgress 1 (snd (emit (ScanSubdirectory_entered p) st))) = skipped p st.
Proof.
  rewrite AddToProgress_eq. unfold skipped, emit, add_effects, with_txn. cbn.
  rewrite <- app_assoc. reflexivity.
Qed.

(** X1.  A directory that holds a .nomedia or a .nomusic file is not
    scanned, whatever the transaction and the force-full flag are: the visit
    consumes one progress unit and does nothing else. *)
Theorem marker_file_skips_directory (fuel : nat) (p : QString) (subdir : Subdirectory)
    (force_noincremental : bool) (st : St) :
  QDir_exists W p ".nomedia" = true \/ QDir_exists W p ".nomusic" = true ->
  ScanSubdirectory W (S fuel) p subdir force_noincremental st = Some (skipped p st).
Proof.
  intros Hmarker. cbn [ScanSubdirectory].
  assert (Hm : has_marker_file W p = true).
  { unfold has_marker_file, kNoMediaFile, kNoMusicFile.
    destruct Hmarker as [-> | ->]; [reflexivity | apply orb_true_r]. }
  rewrite Hm. rewrite skip_by_progress.
  destruct (symlink_in_collection W _ p); reflexivity.
Qed.

(** X2.  A symlink whose target path starts with the path of a watched
    directory is not scanned: the visit consumes one progress unit and does
    nothing else.  The test compares path prefixes, so a target next to a
    watched directory whose name merely begins like it is skipped too. *)
Theorem symlink_into_collection_is_skipped (fuel : nat) (p : QString) (subdir : Subdirectory)
    (force_noincremental : bool) (st : St) (id : Z) (dir : Directory) :
  isSymLink W p = true ->
  watched_dirs_ (watcher (env st)) !! id = Some dir ->
  startsWith (symLinkTarget W p) (dir_path dir) = true ->
  ScanSubdirectory W (S fuel) p subdir force_noincremental st = Some (skipped p st).
Proof.
  intros Hlink Hdir Hprefix. cbn [ScanSubdirectory].
  assert (Hs : symlink_in_collection W (watcher (env (snd (emit (ScanSubdirectory_entered p) st)))) p
               = true).
  { unfold symlink_in_collection. rewrite Hlink. cbn [andb emit snd env watcher].
    apply existsb_exists. exists (id, dir). split; [|exact Hprefix].
    apply list_elem_of_In, elem_of_map_to_list. exact Hdir. }
  rewrite Hs. by rewrite skip_by_progress.
Qed.

(** X3.  When the stop flag is set at the first read of a visit, the visit
    returns right after opening the directory: nothing is queued, no file is
    read, the subdirectory is not recorded and no progress unit is
    consumed. *)
Theorem stopped_visit_queues_nothing (p : QString) (subdir : Subdirectory) (st : St) :
  stop_requested_ W (polls (env st)) = true ->
  visit_subdirectory W p subdir st =
  (None, with_polls (S (polls (env st))) (add_effects [DirListed p] st)).
Proof.
  intros Hstop. unfold visit_subdirectory, reconcile_files.
  unfold bind at 1. unfold bind at 1. unfold emit at 1. unfold bind at 1.
  destruct (QDirIterator W p) as [|child children]; cbn [list_children].
  - unfold ret at 1. unfold bind at 1. unfold read_stop_requested at 1.
    cbn [env polls]. rewrite Hstop. reflexivity.
  - unfold bind at 1. unfold list_child. unfold bind at 1.
    unfold read_stop_requested at 1. cbn [env polls]. rewrite Hstop. reflexivity.
Qed.

End SkipRules.

Lemma marker_file_skips_directory_witness :
  let W := world_with_symlink in
  let st := ScanTransaction_ctor W example_env 1 false true false in
  (QDir_exists W "/music/private" ".nomedia" = true
   \/ QDir_exists W "/music/private" ".nomusic" = true)
  /\ ScanSubdirectory W 1 "/music/private" Subdirectory_default true st
     = Some (skipped "/music/private" st).
Proof.
  intros W st.
  assert (H : QDir_exists W "/music/private" ".nomedia" = true
              \/ QDir_exists W "/music/private" ".nomusic" = true) by (right; reflexivity).
  split; [exact H|].
  exact (marker_file_skips_directory W 0 "/music/private" Subdirectory_default true st H).
Defined.

Lemma symlink_into_collection_is_skipped_witness :
  let W := world_with_symlink in
  let st := ScanTransaction_ctor W example_env 1 false true false in
  isSymLink W "/music/link" = true
  /\ symLinkTarget W "/music/link" = "/music2"
  /\ ScanSubdirectory W 1 "/music/link" Subdirectory_default true st
     = Some (skipped "/music/link" st).
Proof.
  intros W st. split; [reflexivity|]. split; [reflexivity|].
  exact (symlink_into_collection_is_skipped W 0 "/music/link" Subdirectory_default true st
           1 {| dir_id := 1; dir_path := "/music" |} eq_refl eq_refl eq_refl).
Defined.

Lemma stopped_visit_queues_nothing_witness :
  let W := with_stop_requested (fun _ => true) world_with_symlink in
  let st := ScanTransaction_ctor W example_env 1 false true false in
  stop_requested_ W (polls (env st)) = true
  /\ visit_subdirectory W "/x" Subdirectory_default st =
     (None, with_polls 1 (add_effects [DirListed "/x"] st)).
Proof.
  intros W st. split; [reflexivity|].
  exact (stopped_visit_queues_nothing W "/x" Subdirectory_default st eq_refl).
Defined.

(* --------------------------------------------------------------------- *)
(** ** More on transactions and watches *)

Section TransactionCaches.

Variable W : World.

Lemma committed_twice (t : Txn.t) : committed (committed t) = committed t.
Proof. destruct t. unfold committed. cbn. destruct prevent_delete_; reflexivity. Qed.

Lemma commit_signals_committed (t : Txn.t) : commit_signals (committed t) = [].
Proof. destruct t. unfold commit_signals, committed, batch. cbn. by destruct prevent_delete_. Qed.

(** X4.  A commit right after a commit does nothing: it emits no signal,
    touches no watch and leaves the transaction as the first commit left
    it, also when prevent-delete holds back deleted songs. *)
Theorem commit_twice_is_commit_once (st : St) :
  let st' := snd (CommitNewOrUpdatedSongs W st) in
  CommitNewOrUpdatedSongs W st' = (tt, st').
Proof.
  intros st'. subst st'. rewrite (CommitNewOrUpdatedSongs_eq W (snd _)).
  rewrite CommitNewOrUpdatedSongs_eq. cbn [snd txn with_txn].
  rewrite committed_twice, commit_signals_committed.
  cbn [committed Txn.deleted_subdirs Txn.new_subdirs removed_paths mapping_after_remove].
  unfold added_paths. cbn [map]. rewrite filter_nil.
  assert (Hadd : forall (b : bool) (d : option Directory),
            (if b then match d with Some _ => [] | None => [] end else @nil QString) = [])
    by (intros [] []; reflexivity).
  rewrite Hadd. unfold mapping_after_add. cbn [fold_left map app].
  match goal with |- context [match ?d with Some _ => ?m | None => ?m end] =>
    replace (match d with Some _ => m | None => m end) with m by (destruct d; reflexivity) end.
  unfold with_subdir_mapping, add_effects, set_subdir_mapping. cbn.
  rewrite app_nil_r. reflexivity.
Qed.

Lemma FindSongsInSubdirectory_snd (p : QString) (st : St) :
  snd (FindSongsInSubdirectory W p st) =
  with_txn (Txn.set_cached_songs_dirty false
              (Txn.set_cached_songs
                 (if Txn.cached_songs_dirty_ (txn st)
                  then FindSongsInDirectory W (Txn.dir_ (txn st))
                  else Txn.cached_songs_ (txn st)) (txn st)))
    (add_effects (if Txn.cached_songs_dirty_ (txn st)
                  then [Queried_FindSongsInDirectory (Txn.dir_ (txn st))] else []) st).
Proof.
  unfold FindSongsInSubdirectory. unfold_monad.
  destruct st as [[w tr po] t]. destruct t. cbn.
  destruct cached_songs_dirty_; cbn; [reflexivity|].
  unfold with_txn, add_effects. cbn. rewrite app_nil_r. reflexivity.
Qed.

(** X5.  The songs of the directory are fetched from the backend at most
    once per transaction: the first call queries the backend only when
    nothing is cached, every later call, for any subdirectory, changes
    nothing and emits nothing, and each answer holds exactly the songs of the
    fetched list that lie directly in the subdirectory asked for. *)
Theorem songs_are_fetched_once (p q : QString) (st : St) :
  let r := FindSongsInSubdirectory W p st in
  let fetched := if Txn.cached_songs_dirty_ (txn st)
                 then FindSongsInDirectory W (Txn.dir_ (txn st))
                 else Txn.cached_songs_ (txn st) in
  trace (env (snd r)) =
    trace (env st) ++ (if Txn.cached_songs_dirty_ (txn st)
                       then [Queried_FindSongsInDirectory (Txn.dir_ (txn st))] else [])
  /\ (forall song, song ∈ fst r <->
                   song ∈ fetched /\ section_dir (toLocalFile (Song.url song)) = p)
  /\ snd (FindSongsInSubdirectory W q (snd r)) = snd r
  /\ (forall song, song ∈ fst (FindSongsInSubdirectory W q (snd r)) <->
                   song ∈ fetched /\ section_dir (toLocalFile (Song.url song)) = q).
Proof.
  intros r fetched. subst r.
  rewrite !FindSongsInSubdirectory_fst, !FindSongsInSubdirectory_snd.
  fold fetched. cbn [txn env trace with_txn add_effects].
  assert (Hd : Txn.cached_songs_dirty_
                 (Txn.set_cached_songs_dirty false (Txn.set_cached_songs fetched (txn st)))
               = false) by (destruct (txn st); reflexivity).
  assert (Hc : Txn.cached_songs_
                 (Txn.set_cached_songs_dirty false (Txn.set_cached_songs fetched (txn st)))
               = fetched) by (destruct (txn st); reflexivity).
  split; [reflexivity|]. split; [|split].
  - intros song. unfold stored_songs. fold fetched.
    rewrite list_elem_of_filter. split.
    + intros [Heq Hin]. split; [exact Hin|]. by apply String.eqb_eq, Is_true_true.
    + intros [Hin Heq]. split; [|exact Hin]. by apply Is_true_true, String.eqb_eq.
  - rewrite Hd. unfold with_txn, add_effects. cbn. rewrite app_nil_r.
    f_equal; try (rewrite Hc; destruct (txn st); reflexivity).
  - intros song. unfold stored_songs. cbn [txn with_txn]. rewrite Hd, Hc.
    rewrite list_elem_of_filter. split.
    + intros [Heq Hin]. split; [exact Hin|]. by apply String.eqb_eq, Is_true_true.
    + intros [Hin Heq]. split; [|exact Hin]. by apply Is_true_true, String.eqb_eq.
Qed.

Lemma GetImmediateSubdirs_eq (p : QString) (st : St) :
  GetImmediateSubdirs W p st =
  (filter (fun subdir =>
             String.eqb (left (lastIndexOf "/" (path subdir)) (path subdir)) p
             && negb (mtime subdir =? 0))
          (known_subdirs_of W st),
   snd (fetch_known_subdirs W st)).
Proof.
  unfold GetImmediateSubdirs. unfold bind at 1. rewrite fetch_known_subdirs_eq.
  unfold_monad. destruct st as [[w tr po] t]. destruct t. reflexivity.
Qed.

(** X6.  The immediate subdirectories of a path are known subdirectories
    with a nonzero mtime whose path up to the last slash is that path; each
    of them has been seen, as [HasSeenSubdir] then tells without another
    query of the backend. *)
Theorem immediate_subdirs_have_been_seen (p : QString) (st : St) :
  let r := GetImmediateSubdirs W p st in
  forall subdir,
    subdir ∈ fst r ->
    subdir ∈ known_subdirs_of W st
    /\ mtime subdir <> 0
    /\ left (lastIndexOf "/" (path subdir)) (path subdir) = p
    /\ HasSeenSubdir W (path subdir) (snd r) = (true, snd r).
Proof.
  intros r subdir. subst r. rewrite GetImmediateSubdirs_eq. cbn [fst snd].
  rewrite list_elem_of_filter. intros [Htest Hin].
  apply Is_true_true, andb_true_iff in Htest as [Hparent Hmtime].
  apply String.eqb_eq in Hparent. apply negb_true_iff, Z.eqb_neq in Hmtime.
  split; [exact Hin|]. split; [exact Hmtime|]. split; [exact Hparent|].
  rewrite HasSeenSubdir_eq, !fetch_known_subdirs_eq. cbn [snd].
  assert (Hknown : known_subdirs_of W
                     (with_txn (Txn.set_known_subdirs_dirty false
                                  (Txn.set_known_subdirs (known_subdirs_of W st) (txn st)))
                        (add_effects (if Txn.known_subdirs_dirty_ (txn st)
                                      then [Queried_SubdirsInDirectory (Txn.dir_ (txn st))]
                                      else []) st))
                   = known_subdirs_of W st).
  { unfold known_subdirs_of at 1. cbn [txn with_txn]. destruct (txn st); reflexivity. }
  rewrite Hknown. f_equal.
  - apply seen_iff. by exists subdir.
  - unfold with_txn, add_effects. cbn [txn env trace watcher polls].
    replace (Txn.known_subdirs_dirty_ (Txn.set_known_subdirs_dirty false _)) with false
      by (destruct (txn st); reflexivity).
    rewrite app_nil_r. f_equal; try (destruct (txn st); reflexivity).
Qed.

(** X7.  A watch is added only for a path that exists, and a watch is
    removed only for a path that is mapped to the very directory given:
    adding a watch for a missing path and removing one that is mapped to
    another directory, or to none, change nothing; adding a watch for an
    existing path and removing it again emits AddPath and RemovePath and
    leaves the path unmapped. *)
Theorem watches_are_added_and_removed_by_path (dir : Directory) (subdir : Subdirectory)
    (st : St) :
  (exists_ W (path subdir) = false -> AddWatch W dir (path subdir) st = (tt, st))
  /\ ((forall d, subdir_mapping_ (watcher (env st)) !! path subdir = Some d ->
                 Directory_eqb d dir = false) ->
      RemoveWatch dir subdir st = (tt, st))
  /\ (exists_ W (path subdir) = true ->
      let st1 := snd (AddWatch W dir (path subdir) st) in
      subdir_mapping_ (watcher (env st1)) !! path subdir = Some dir
      /\ RemoveWatch dir subdir st1 =
         (tt, with_subdir_mapping (delete (path subdir) (subdir_mapping_ (watcher (env st))))
                (add_effects [AddPath (path subdir); RemovePath (path subdir)] st))).
Proof.
  split; [|split].
  - intros Hmissing. unfold AddWatch. rewrite Hmissing. reflexivity.
  - intros Hother. unfold RemoveWatch, bind, get_watcher.
    destruct (subdir_mapping_ (watcher (env st)) !! path subdir) as [d|] eqn:Hm;
      [|reflexivity].
    by rewrite (Hother d eq_refl).
  - intros Hexists st1. subst st1. unfold AddWatch. rewrite Hexists. cbn [negb].
    unfold RemoveWatch. unfold_monad. cbn.
    rewrite lookup_insert_eq.
    assert (Heq : Directory_eqb dir dir = true).
    { unfold Directory_eqb. by rewrite String.eqb_refl, Z.eqb_refl. }
    rewrite Heq. split; [reflexivity|].
    unfold with_subdir_mapping, add_effects, set_subdir_mapping. cbn.
    rewrite delete_insert_eq, <- app_assoc. reflexivity.
Qed.

End TransactionCaches.

Lemma watches_are_added_and_removed_by_path_witness :
  let W := world_with_unchanged_subdir in
  let st := ScanTransaction_ctor W example_env 1 true false false in
  let dir := {| dir_id := 1; dir_path := "/music" |} in
  let subdir := {| directory_id := 1; path := "/music/a"; mtime := 1700 |} in
  exists_ W "/music/a" = true
  /\ RemoveWatch dir subdir (snd (AddWatch W dir "/music/a" st)) =
     (tt, with_subdir_mapping (delete "/music/a" ∅)
            (add_effects [AddPath "/music/a"; RemovePath "/music/a"] st)).
Proof.
  intros W st dir subdir. split; [reflexivity|].
  exact (proj2 (proj2 (proj2 (watches_are_added_and_removed_by_path W dir subdir st))
                  eq_refl)).
Defined.

Lemma immediate_subdirs_have_been_seen_witness :
  let W := world_with_unchanged_subdir in
  let st := ScanTransaction_ctor W example_env 1 true false false in
  let subdir := {| directory_id := 1; path := "/music/a"; mtime := 1700 |} in
  subdir ∈ fst (GetImmediateSubdirs W "/music" st)
  /\ HasSeenSubdir W "/music/a" (snd (GetImmediateSubdirs W "/music" st))
     = (true, snd (GetImmediateSubdirs W "/music" st)).
Proof.
  intros W st subdir.
  assert (Hin : subdir ∈ fst (GetImmediateSubdirs W "/music" st)) by left.
  split; [exact Hin|].
  exact (proj2 (proj2 (proj2 (immediate_subdirs_have_been_seen W "/music" st subdir Hin)))).
Defined.

(* --------------------------------------------------------------------- *)
(** ** More on album art *)

Section MoreAlbumArt.

Variable W : World.

Lemma filter_images_incl (filters images : QStringList) :
  forall filtered x,
    x ∈ filter_images W filters images filtered -> x ∈ filtered \/ x ∈ images.
Proof.
  induction filters as [|f filters IH]; intros filtered x; cbn [filter_images].
  - auto.
  - destruct (negb (is_nil (filtered ++ filter _ images))).
    + rewrite elem_of_app, list_elem_of_filter. tauto.
    + intros Hin. apply IH in Hin. rewrite elem_of_app, list_elem_of_filter in Hin. tauto.
Qed.

Lemma biggest_image_step (p : QString) (paths : QStringList) (biggest_size : Z)
    (biggest_path : QString) (st : St) :
  let st1 := add_effects [ImageLoaded p] (with_polls (S (polls (env st))) st) in
  fst (biggest_image W (p :: paths) biggest_size biggest_path st) =
  if stop_requested_ W (polls (env st)) then biggest_path
  else match area W p with
       | None => fst (biggest_image W paths biggest_size biggest_path st1)
       | Some size =>
           if biggest_size <? size then fst (biggest_image W paths size p st1)
           else fst (biggest_image W paths biggest_size biggest_path st1)
       end.
Proof.
  cbn [biggest_image]. unfold bind, read_stop_requested, emit, area.
  destruct (stop_requested_ W (polls (env st))); [reflexivity|].
  destruct (QImage W p) as [[width height]|]; [|reflexivity].
  destruct (biggest_size <? wrap_int (width * height)); reflexivity.
Qed.

Lemma biggest_image_result (paths : QStringList) :
  forall (biggest_size : Z) (biggest_path : QString) (st : St),
    fst (biggest_image W paths biggest_size biggest_path st) = biggest_path
    \/ fst (biggest_image W paths biggest_size biggest_path st) ∈ paths
       /\ exists a, area W (fst (biggest_image W paths biggest_size biggest_path st)) = Some a
                    /\ biggest_size < a.
Proof.
  induction paths as [|p paths IH]; intros bs bp st.
  - left. reflexivity.
  - rewrite biggest_image_step. cbv zeta.
    set (st1 := add_effects [ImageLoaded p] (with_polls (S (polls (env st))) st)).
    destruct (stop_requested_ W (polls (env st))); [left; reflexivity|].
    destruct (area W p) as [size|] eqn:Harea.
    + destruct (bs <? size) eqn:Hlt.
      * apply Z.ltb_lt in Hlt.
        destruct (IH size p st1) as [-> | (Hin & a & Ha & Hlt')].
        -- right. split; [left|]. exists size. done.
        -- right. split; [by right|]. exists a. split; [exact Ha | lia].
      * destruct (IH bs bp st1) as [-> | (Hin & a & Ha & Hlt')]; [by left|].
        right. split; [by right|]. by exists a.
    + destruct (IH bs bp st1) as [-> | (Hin & a & Ha & Hlt')]; [by left|].
      right. split; [by right|]. by exists a.
Qed.

(** X8.  Whatever the filters are and whenever a stop is requested, the
    best image is either the empty path or one of the images given, and in
    the latter case one that loads as an image of nonzero area. *)
Theorem best_image_is_one_of_the_images (images : QStringList) (st : St) :
  let r := fst (PickBestImage W images st) in
  r = EmptyString \/ r ∈ images /\ exists a, area W r = Some a /\ 0 < a.
Proof.
  intros r. subst r.
  set (c := if is_nil (filter_images W (best_image_filters_ (watcher (env st))) images [])
            then images
            else filter_images W (best_image_filters_ (watcher (env st))) images []).
  replace (PickBestImage W images st) with (biggest_image W c 0 EmptyString st)
    by reflexivity.
  assert (Hc : forall x, x ∈ c -> x ∈ images).
  { intros x. subst c. destruct (is_nil (filter_images W _ images [])); [auto|].
    intros Hx. apply filter_images_incl in Hx as [Hx | Hx]; [inversion Hx | exact Hx]. }
  destruct (biggest_image_result c 0 EmptyString st) as [Hr | [Hin Harea]].
  - left. exact Hr.
  - right. split; [by apply Hc | exact Harea].
Qed.

(** X9.  The art of a directory is picked once: after a song of a directory
    with several images got its art, every other file of that directory gets
    the same art from the cached choice, without any image being loaded and
    without a further read of the stop flag.  A directory with exactly one
    image uses it without loading it, and a directory without images gives
    the empty URL. *)
Theorem art_is_picked_once_per_directory (file : QString)
    (album_art : gmap string (list string)) (st : St) :
  let r := ImageForSong W file album_art st in
  (forall images file',
     album_art !! DirectoryPart W file = Some images -> length images <> 1%nat ->
     DirectoryPart W file' = DirectoryPart W file ->
     ImageForSong W file' (snd (fst r)) (snd r) = r)
  /\ (forall image,
        album_art !! DirectoryPart W file = Some [image] ->
        r = ((fromLocalFile image, album_art), st))
  /\ (album_art !! DirectoryPart W file = None -> r = ((QUrl_empty, album_art), st)).
Proof.
  intros r. subst r. split; [|split].
  - intros images file' Hart Hlen Hdir. unfold ImageForSong at 2 3 4. rewrite Hart.
    apply Nat.eqb_neq in Hlen. rewrite Hlen. rewrite bind_run. unfold ret. cbn [fst snd].
    unfold ImageForSong. rewrite Hdir, lookup_insert_eq. reflexivity.
  - intros image Hart. unfold ImageForSong. rewrite Hart. reflexivity.
  - intros Hnone. unfold ImageForSong. rewrite Hnone. reflexivity.
Qed.

End MoreAlbumArt.

Lemma art_is_picked_once_per_directory_witness :
  let W := world_with_art (Some (300, 300)) in
  let st := ScanTransaction_ctor W example_env 1 false false false in
  let album_art : gmap string (list string) :=
    {[ "/music/a" := ["/music/a/cover.jpg"; "/music/a/folder.jpg"] ]} in
  let r := ImageForSong W "/music/a/1.mp3" album_art st in
  album_art !! DirectoryPart W "/music/a/1.mp3"
    = Some ["/music/a/cover.jpg"; "/music/a/folder.jpg"]
  /\ ImageForSong W "/music/a/2.mp3" (snd (fst r)) (snd r) = r.
Proof.
  intros W st album_art r.
  assert (Hart : album_art !! DirectoryPart W "/music/a/1.mp3"
                 = Some ["/music/a/cover.jpg"; "/music/a/folder.jpg"]) by reflexivity.
  split; [exact Hart|].
  refine (proj1 (art_is_picked_once_per_directory W "/music/a/1.mp3" album_art st)
            _ "/music/a/2.mp3" Hart _ eq_refl).
  discriminate.
Defined.

(* --------------------------------------------------------------------- *)
(** ** Re-reading stored songs *)

Section Rereading.

Variable W : World.

Lemma queues_songs_refl (st : St) : queues_songs st st.
Proof.
  exists [], [], [], []. rewrite !app_nil_r. split.
  - destruct (txn st). reflexivity.
  - destruct (env st). reflexivity.
Qed.

Lemma queues_songs_trans (a b c : St) :
  queues_songs a b -> queues_songs b c -> queues_songs a c.
Proof.
  intros (n1 & t1 & d1 & e1 & Ht1 & He1) (n2 & t2 & d2 & e2 & Ht2 & He2).
  exists (n1 ++ n2), (t1 ++ t2), (d1 ++ d2), (e1 ++ e2).
  rewrite Ht2, He2, Ht1, He1. destruct (txn a). cbn. rewrite !app_assoc. done.
Qed.

Lemma queues_songs_new (s : Song.t) (st : St) : queues_songs st (snd (push_new_song s st)).
Proof.
  exists [s], [], [], []. cbn. rewrite !app_nil_r. split.
  - destruct (txn st). reflexivity.
  - destruct (env st). reflexivity.
Qed.

Lemma queues_songs_touched (s : Song.t) (st : St) :
  queues_songs st (snd (push_touched_song s st)).
Proof.
  exists [], [s], [], []. cbn. rewrite !app_nil_r. split.
  - destruct (txn st). reflexivity.
  - destruct (env st). reflexivity.
Qed.

Lemma queues_songs_deleted (l : SongList) (st : St) :
  queues_songs st
    (with_txn (Txn.set_deleted_songs (Txn.deleted_songs (txn st) ++ l) (txn st)) st).
Proof.
  exists [], [], l, []. cbn. rewrite !app_nil_r. split.
  - destruct (txn st). reflexivity.
  - destruct (env st). reflexivity.
Qed.

Lemma queues_songs_effects (es : list Effect) (st : St) : queues_songs st (add_effects es st).
Proof.
  exists [], [], [], es. cbn. rewrite !app_nil_r. split; [|reflexivity].
  destruct (txn st). reflexivity.
Qed.

Lemma queues_songs_preserve (file : QString) (image : QUrl) (m out : Song.t) (st : St) :
  queues_songs st (snd (PreserveUserSetData file image m out st)).
Proof.
  rewrite PreserveUserSetData_eq. cbv zeta.
  destruct (_ || _); [apply queues_songs_new | apply queues_songs_touched].
Qed.

(** X10.  A re-read song that replaces a stored one is filed exactly once:
    among the new or updated songs when the stored song was unavailable or
    its metadata differs, and among the touched songs otherwise.  It carries
    the row id, play count, skip count, last-played time and manual art of
    the stored song, and its automatic art is the chosen image unless the
    file brought an embedded cover. *)
Theorem reread_song_is_filed_once (file : QString) (image : QUrl) (matching_song out : Song.t)
    (st : St) :
  let song := preserved image matching_song out in
  let changed := Song.is_unavailable matching_song
                 || negb (Song.IsMetadataEqual matching_song song) in
  let st' := snd (PreserveUserSetData file image matching_song out st) in
  Txn.new_songs (txn st') = Txn.new_songs (txn st) ++ (if changed then [song] else [])
  /\ Txn.touched_songs (txn st')
     = Txn.touched_songs (txn st) ++ (if changed then [] else [song])
  /\ queues_songs st st'
  /\ Song.id song = Song.id matching_song
  /\ Song.playcount song = Song.playcount matching_song
  /\ Song.skipcount song = Song.skipcount matching_song
  /\ Song.lastplayed song = Song.lastplayed matching_song
  /\ Song.art_manual song = Song.art_manual matching_song
  /\ Song.art_automatic song
     = (if Song.has_embedded_cover out then Song.art_automatic out else image).
Proof.
  intros song changed st'. subst st'. rewrite PreserveUserSetData_eq. cbv zeta.
  fold song. fold changed.
  destruct (preserved_fields image matching_song out) as (Hid & _ & Hpc & Hsc & Hlp & Ham).
  fold song in Hid, Hpc, Hsc, Hlp, Ham.
  assert (Hart : Song.art_automatic song
                 = (if Song.has_embedded_cover out then Song.art_automatic out else image)).
  { subst song. unfold preserved. cbv zeta.
    replace (Song.has_embedded_cover (Song.set_id (Song.id matching_song) out))
      with (Song.has_embedded_cover out) by reflexivity.
    destruct (Song.has_embedded_cover out); reflexivity. }
  destruct changed.
  - split; [|split; [|split; [apply queues_songs_new | auto 10]]];
      unfold push_new_song, modify_txn; cbn [snd txn]; destruct (txn st); cbn;
      rewrite ?app_nil_r; reflexivity.
  - split; [|split; [|split; [apply queues_songs_touched | auto 10]]];
      unfold push_touched_song, modify_txn; cbn [snd txn]; destruct (txn st); cbn;
      rewrite ?app_nil_r; reflexivity.
Qed.

Lemma queues_songs_frame (st st' : St) :
  queues_songs st st' ->
  Txn.dir_ (txn st') = Txn.dir_ (txn st)
  /\ watcher (env st') = watcher (env st)
  /\ polls (env st') = polls (env st)
  /\ Txn.readded_songs (txn st') = Txn.readded_songs (txn st)
  /\ Txn.ignores_mtime_ (txn st') = Txn.ignores_mtime_ (txn st)
  /\ (forall s, s ∈ Txn.new_songs (txn st) -> s ∈ Txn.new_songs (txn st'))
  /\ (forall s, s ∈ Txn.deleted_songs (txn st) -> s ∈ Txn.deleted_songs (txn st')).
Proof.
  intros (n & t & d & e & Ht & He). rewrite Ht, He. destruct (txn st). cbn.
  repeat split; intros s Hs; apply elem_of_app; by left.
Qed.

Lemma find_app_last {A} (f : A -> bool) (l : list A) (a : A) :
  find f (l ++ [a]) = match find f l with
                      | Some x => Some x
                      | None => if f a then Some a else None
                      end.
Proof.
  induction l as [|x l IH]; cbn [app find]; [reflexivity|].
  destruct (f x); [reflexivity | exact IH].
Qed.

(** The section found in [sections_map] under a start offset. *)
Lemma sections_map_lookup (old_sections : SongList) :
  forall (m0 : gmap Z Song.t) (k : Z),
    fold_left (fun m song => <[to_quint64 (Song.beginning_nanosec song) := song]> m)
              old_sections m0 !! k
    = match find (fun s => to_quint64 (Song.beginning_nanosec s) =? k) (rev old_sections) with
      | Some s => Some s
      | None => m0 !! k
      end.
Proof.
  induction old_sections as [|a l IH]; intros m0 k; cbn [fold_left rev]; [reflexivity|].
  rewrite IH, find_app_last.
  destruct (find _ (rev l)); [reflexivity|].
  destruct (to_quint64 (Song.beginning_nanosec a) =? k) eqn:Hk.
  - apply Z.eqb_eq in Hk. subst k. apply lookup_insert_eq.
  - apply Z.eqb_neq in Hk. by apply lookup_insert_ne.
Qed.

Lemma PreserveUserSetData_frame (file : QString) (image : QUrl) (m out : Song.t) (st : St) :
  let st' := snd (PreserveUserSetData file image m out st) in
  env st' = env st
  /\ Txn.deleted_songs (txn st') = Txn.deleted_songs (txn st)
  /\ (length (Txn.new_songs (txn st')) + length (Txn.touched_songs (txn st'))
      = S (length (Txn.new_songs (txn st)) + length (Txn.touched_songs (txn st))))%nat.
Proof.
  cbv zeta. rewrite PreserveUserSetData_eq. cbv zeta.
  destruct (_ || _); unfold push_new_song, push_touched_song, modify_txn; cbn [snd env txn];
    destruct (txn st); cbn; rewrite length_app; cbn; repeat split; lia.
Qed.

Lemma cue_sections_loop_spec (file : QString) (image : QUrl) (old_sections : SongList)
    (cue_songs : SongList) :
  let sections_map : gmap Z Song.t :=
    fold_left (fun m song => <[to_quint64 (Song.beginning_nanosec song) := song]> m)
              old_sections ∅ in
  forall (used_ids : gset Z) (st : St),
    let r := cue_sections_loop file image sections_map cue_songs used_ids st in
    fst r = used_ids
            ∪ list_to_set (map Song.id (List.filter Song.is_valid
                                          (map (stored_section_at old_sections) cue_songs)))
    /\ queues_songs st (snd r)
    /\ env (snd r) = env st
    /\ Txn.deleted_songs (txn (snd r)) = Txn.deleted_songs (txn st)
    /\ (length (Txn.new_songs (txn (snd r))) + length (Txn.touched_songs (txn (snd r)))
        = length (Txn.new_songs (txn st)) + length (Txn.touched_songs (txn st))
          + length cue_songs)%nat
    /\ (forall c, c ∈ cue_songs ->
                  Song.is_valid (stored_section_at old_sections c) = false ->
                  Song.set_directory_id (Txn.dir_ (txn st))
                    (Song.set_source (source_ (watcher (env st))) c)
                  ∈ Txn.new_songs (txn (snd r))).
Proof.
  intros sections_map.
  assert (Hlookup : forall c d src,
            default (Song.Song Song.Source_Unknown)
              (sections_map !! to_quint64 (Song.beginning_nanosec
                                             (Song.set_directory_id d (Song.set_source src c))))
            = stored_section_at old_sections c).
  { intros c d src. subst sections_map. rewrite sections_map_lookup.
    unfold stored_section_at.
    replace (Song.beginning_nanosec (Song.set_directory_id d (Song.set_source src c)))
      with (Song.beginning_nanosec c) by reflexivity.
    destruct (find _ (rev old_sections)); [reflexivity|]. by rewrite lookup_empty. }
  induction cue_songs as [|c cue IH]; intros used st.
  - cbn [cue_sections_loop map List.filter list_to_set]. unfold ret. cbn [fst snd length].
    split; [set_solver|]. split; [apply queues_songs_refl|].
    split; [reflexivity|]. split; [reflexivity|]. split; [lia|].
    intros c Hc. inversion Hc.
  - set (c' := Song.set_directory_id (Txn.dir_ (txn st))
                 (Song.set_source (source_ (watcher (env st))) c)).
    set (m := stored_section_at old_sections c).
    assert (Hstep :
      cue_sections_loop file image sections_map (c :: cue) used st =
      if Song.is_valid m
      then cue_sections_loop file image sections_map cue ({[Song.id m]} ∪ used)
             (snd (PreserveUserSetData file image m c' st))
      else cue_sections_loop file image sections_map cue used (snd (push_new_song c' st))).
    { cbn [cue_sections_loop]. unfold bind at 1. unfold get_watcher at 1.
      unfold bind at 1. unfold get_txn at 1. rewrite Hlookup. fold m. fold c'.
      destruct (Song.is_valid m); cbn [negb]; unfold bind.
      - destruct (PreserveUserSetData file image m c' st). reflexivity.
      - destruct (push_new_song c' st). reflexivity. }
    cbv zeta. rewrite Hstep. cbn [map List.filter]. fold m.
    destruct (Song.is_valid m) eqn:Hvalid.
    + destruct (PreserveUserSetData_frame file image m c' st) as (He1 & Hd1 & Hlen1).
      pose proof (queues_songs_preserve file image m c' st) as Hq1.
      set (st1 := snd (PreserveUserSetData file image m c' st)) in *.
      destruct (IH ({[Song.id m]} ∪ used) st1) as (Hused & Hq & He & Hd & Hlen & Hnew).
      destruct (queues_songs_frame st st1 Hq1) as (Hdir & Hw & _).
      split; [rewrite Hused; cbn [map list_to_set]; set_solver|].
      split; [apply (queues_songs_trans _ st1); [exact Hq1 | exact Hq]|].
      split; [exact (eq_trans He He1)|]. split; [exact (eq_trans Hd Hd1)|].
      split; [cbn [length]; lia|].
      intros c0 Hc0 Hinv. apply elem_of_cons in Hc0 as [-> | Hc0]; [fold m in Hinv; congruence|].
      rewrite <- Hdir, <- Hw. exact (Hnew c0 Hc0 Hinv).
    + pose proof (queues_songs_new c' st) as Hq1.
      assert (Hpush : env (snd (push_new_song c' st)) = env st
                /\ Txn.deleted_songs (txn (snd (push_new_song c' st)))
                   = Txn.deleted_songs (txn st)
                /\ Txn.touched_songs (txn (snd (push_new_song c' st)))
                   = Txn.touched_songs (txn st)
                /\ Txn.new_songs (txn (snd (push_new_song c' st)))
                   = Txn.new_songs (txn st) ++ [c']).
      { unfold push_new_song, modify_txn. cbn. destruct (txn st). repeat split. }
      destruct Hpush as (He1 & Hd1 & Ht1 & Hn1).
      set (st1 := snd (push_new_song c' st)) in *.
      destruct (IH used st1) as (Hused & Hq & He & Hd & Hlen & Hnew).
      destruct (queues_songs_frame st st1 Hq1) as (Hdir & Hw & _).
      destruct (queues_songs_frame st1 _ Hq) as (_ & _ & _ & _ & _ & Hmono & _).
      split; [exact Hused|].
      split; [apply (queues_songs_trans _ st1); [exact Hq1 | exact Hq]|].
      split; [exact (eq_trans He He1)|]. split; [exact (eq_trans Hd Hd1)|].
      split; [rewrite Hlen, Hn1, Ht1, length_app; cbn [length]; lia|].
      intros c0 Hc0 Hinv. apply elem_of_cons in Hc0 as [-> | Hc0].
      * apply Hmono. rewrite Hn1. apply elem_of_app. right. left.
      * rewrite <- Hdir, <- Hw. exact (Hnew c0 Hc0 Hinv).
Qed.

Lemma cue_sections_loop_filed (file : QString) (image : QUrl) (old_sections : SongList)
    (cue_songs : SongList) :
  let sections_map : gmap Z Song.t :=
    fold_left (fun m song => <[to_quint64 (Song.beginning_nanosec song) := song]> m)
              old_sections ∅ in
  forall (used_ids : gset Z) (st : St),
    let r := cue_sections_loop file image sections_map cue_songs used_ids st in
    let dir := Txn.dir_ (txn st) in
    let source := source_ (watcher (env st)) in
    Txn.new_songs (txn (snd r))
      = Txn.new_songs (txn st)
        ++ map (refiled_section old_sections image dir source)
               (List.filter (refiled_as_new old_sections image dir source) cue_songs)
    /\ Txn.touched_songs (txn (snd r))
       = Txn.touched_songs (txn st)
         ++ map (refiled_section old_sections image dir source)
                (List.filter (fun c => negb (refiled_as_new old_sections image dir source c))
                             cue_songs).
Proof.
  intros sections_map.
  assert (Hlookup : forall c d src,
            default (Song.Song Song.Source_Unknown)
              (sections_map !! to_quint64 (Song.beginning_nanosec
                                             (Song.set_directory_id d (Song.set_source src c))))
            = stored_section_at old_sections c).
  { intros c d src. subst sections_map. rewrite sections_map_lookup.
    unfold stored_section_at.
    replace (Song.beginning_nanosec (Song.set_directory_id d (Song.set_source src c)))
      with (Song.beginning_nanosec c) by reflexivity.
    destruct (find _ (rev old_sections)); [reflexivity|]. by rewrite lookup_empty. }
  induction cue_songs as [|c cue IH]; intros used st.
  - cbn [cue_sections_loop map List.filter]. unfold ret. cbn [fst snd].
    rewrite !app_nil_r. split; reflexivity.
  - set (c' := section_as_read (Txn.dir_ (txn st)) (source_ (watcher (env st))) c).
    set (m := stored_section_at old_sections c).
    assert (Hstep :
      cue_sections_loop file image sections_map (c :: cue) used st =
      if Song.is_valid m
      then cue_sections_loop file image sections_map cue ({[Song.id m]} ∪ used)
             (snd (PreserveUserSetData file image m c' st))
      else cue_sections_loop file image sections_map cue used (snd (push_new_song c' st))).
    { cbn [cue_sections_loop]. unfold bind at 1. unfold get_watcher at 1.
      unfold bind at 1. unfold get_txn at 1. rewrite Hlookup. fold m.
      unfold c', section_as_read.
      destruct (Song.is_valid m); cbn [negb]; unfold bind.
      - destruct (PreserveUserSetData file image m _ st). reflexivity.
      - destruct (push_new_song _ st). reflexivity. }
    cbv zeta. rewrite Hstep. cbn [List.filter].
    replace (refiled_as_new old_sections image (Txn.dir_ (txn st))
               (source_ (watcher (env st))) c)
      with (negb (Song.is_valid m) || Song.is_unavailable m
            || negb (Song.IsMetadataEqual m (preserved image m c'))) by reflexivity.
    assert (Hfiled : refiled_section old_sections image (Txn.dir_ (txn st))
                       (source_ (watcher (env st))) c
                     = if Song.is_valid m then preserved image m c' else c') by reflexivity.
    destruct (Song.is_valid m) eqn:Hvalid; cbn [negb orb].
    + pose proof (queues_songs_preserve file image m c' st) as Hq1.
      destruct (queues_songs_frame _ _ Hq1) as (Hdir & Hw & _).
      rewrite PreserveUserSetData_eq in *. cbv zeta in *.
      destruct (Song.is_unavailable m || negb (Song.IsMetadataEqual m (preserved image m c')))
        eqn:Hchanged; cbn [negb map]; rewrite Hfiled.
      * set (st1 := snd (push_new_song (preserved image m c') st)) in *.
        destruct (IH ({[Song.id m]} ∪ used) st1) as [Hn Ht]. cbv zeta in Hn, Ht.
        rewrite Hdir, Hw in Hn, Ht. rewrite Hn, Ht. subst st1.
        unfold push_new_song, modify_txn. cbn [snd txn]. destruct (txn st). cbn.
        rewrite <- app_assoc. split; reflexivity.
      * set (st1 := snd (push_touched_song (preserved image m c') st)) in *.
        destruct (IH ({[Song.id m]} ∪ used) st1) as [Hn Ht]. cbv zeta in Hn, Ht.
        rewrite Hdir, Hw in Hn, Ht. rewrite Hn, Ht. subst st1.
        unfold push_touched_song, modify_txn. cbn [snd txn]. destruct (txn st). cbn.
        rewrite <- app_assoc. split; reflexivity.
    + cbn [map]. rewrite Hfiled.
      pose proof (queues_songs_new c' st) as Hq1.
      destruct (queues_songs_frame _ _ Hq1) as (Hdir & Hw & _).
      set (st1 := snd (push_new_song c' st)) in *.
      destruct (IH used st1) as [Hn Ht]. cbv zeta in Hn, Ht.
      rewrite Hdir, Hw in Hn, Ht. rewrite Hn, Ht. subst st1.
      unfold push_new_song, modify_txn. cbn [snd txn]. destruct (txn st). cbn.
      rewrite <- app_assoc. split; reflexivity.
Qed.

Lemma filter_bool_ext_in {A} (f g : A -> bool) (l : list A) :
  (forall x, x ∈ l -> f x = g x) ->
  filter (fun x => f x) l = filter (fun x => g x) l.
Proof.
  induction l as [|a l IH]; intros Hext; [reflexivity|].
  rewrite !filter_cons, (Hext a) by left.
  rewrite IH by (intros x Hx; apply Hext; by right). reflexivity.
Qed.

Lemma NoDup_map_inj_in {A B} (f : A -> B) (l : list A) (x y : A) :
  NoDup (map f l) -> x ∈ l -> y ∈ l -> f x = f y -> x = y.
Proof.
  induction l as [|a l IH]; cbn [map]; intros Hnd Hx Hy Hf; [inversion Hx|].
  apply NoDup_cons in Hnd as [Hna Hnd].
  apply elem_of_cons in Hx as [-> | Hx]; apply elem_of_cons in Hy as [-> | Hy].
  - reflexivity.
  - exfalso. apply Hna. rewrite Hf. apply list_elem_of_fmap. by exists y.
  - exfalso. apply Hna. rewrite <- Hf. apply list_elem_of_fmap. by exists x.
  - by apply IH.
Qed.

Lemma UpdateCueAssociatedSongs_eq (file p matching_cue : QString) (image : QUrl) (st : St) :
  let old_sections := GetSongsByUrl W (fromLocalFile file) in
  let sections_map : gmap Z Song.t :=
    fold_left (fun m song => <[to_quint64 (Song.beginning_nanosec song) := song]> m)
              old_sections ∅ in
  let r := cue_sections_loop file image sections_map (CueParser_Load W matching_cue p) ∅
             (add_effects [Queried_GetSongsByUrl (fromLocalFile file);
                           CueLoaded matching_cue p] st) in
  UpdateCueAssociatedSongs W file p matching_cue image st =
  (tt, with_txn (Txn.set_deleted_songs
                   (Txn.deleted_songs (txn (snd r))
                    ++ filter (fun s => negb (bool_decide (Song.id s ∈ fst r))) old_sections)
                   (txn (snd r))) (snd r)).
Proof.
  cbv zeta. unfold UpdateCueAssociatedSongs.
  unfold bind at 1. unfold emit at 1. unfold bind at 1. unfold emit at 1.
  unfold bind at 1.
  replace (add_effects [Queried_GetSongsByUrl (fromLocalFile file); CueLoaded matching_cue p] st)
    with {| env := {| watcher := watcher (env st);
                      trace := (trace (env st) ++ [Queried_GetSongsByUrl (fromLocalFile file)])
                               ++ [CueLoaded matching_cue p];
                      polls := polls (env st) |};
            txn := txn st |}
    by (unfold add_effects; rewrite <- app_assoc; reflexivity).
  cbn [env txn watcher trace polls].
  destruct (cue_sections_loop _ _ _ _ _ _) as [used st1]. cbn [fst snd].
  apply for_each_push_deleted.
Qed.

(** X11.  When the cue sheet of a stored file is read again, the stored
    sections and the sections of the sheet are matched by start offset.
    Every section of the sheet is filed exactly once, in the order of the
    sheet: the section itself, as a new song of the directory of the
    transaction, when no valid section is stored at its offset; and else
    the section as read with the row id and user data of the stored
    section, among the new or updated songs when the stored section was
    unavailable or differs in metadata, and among the touched songs
    otherwise.  Given stored sections that are valid and differ pairwise in
    start offset and in row id, a stored section is queued for deletion
    exactly when no section of the sheet starts at its offset. *)
Theorem cue_sections_are_matched_by_offset (file p matching_cue : QString) (image : QUrl)
    (st : St) :
  let old_sections := GetSongsByUrl W (fromLocalFile file) in
  let cue_songs := CueParser_Load W matching_cue p in
  let st' := snd (UpdateCueAssociatedSongs W file p matching_cue image st) in
  (forall s, s ∈ old_sections -> Song.is_valid s = true) ->
  NoDup (map (fun s => to_quint64 (Song.beginning_nanosec s)) old_sections) ->
  NoDup (map Song.id old_sections) ->
  Txn.deleted_songs (txn st')
    = Txn.deleted_songs (txn st)
      ++ filter (fun s => negb (still_in_cue cue_songs s)) old_sections
  /\ (length (Txn.new_songs (txn st')) + length (Txn.touched_songs (txn st'))
      = length (Txn.new_songs (txn st)) + length (Txn.touched_songs (txn st))
        + length cue_songs)%nat
  /\ (forall c, c ∈ cue_songs ->
                (forall s, s ∈ old_sections ->
                           to_quint64 (Song.beginning_nanosec s)
                           <> to_quint64 (Song.beginning_nanosec c)) ->
                Song.set_directory_id (Txn.dir_ (txn st))
                  (Song.set_source (source_ (watcher (env st))) c)
                ∈ Txn.new_songs (txn st'))
  /\ trace (env st')
     = trace (env st) ++ [Queried_GetSongsByUrl (fromLocalFile file); CueLoaded matching_cue p]
  /\ queues_songs st st'
  /\ Txn.new_songs (txn st')
     = Txn.new_songs (txn st)
       ++ map (refiled_section old_sections image (Txn.dir_ (txn st))
                 (source_ (watcher (env st))))
              (List.filter (refiled_as_new old_sections image (Txn.dir_ (txn st))
                              (source_ (watcher (env st))))
                           cue_songs)
  /\ Txn.touched_songs (txn st')
     = Txn.touched_songs (txn st)
       ++ map (refiled_section old_sections image (Txn.dir_ (txn st))
                 (source_ (watcher (env st))))
              (List.filter (fun c => negb (refiled_as_new old_sections image
                                             (Txn.dir_ (txn st))
                                             (source_ (watcher (env st))) c))
                           cue_songs).
Proof.
  intros old cue st' Hvalid Hkeys Hids. subst st'.
  rewrite UpdateCueAssociatedSongs_eq. cbv zeta. fold old. fold cue.
  set (st0 := add_effects [Queried_GetSongsByUrl (fromLocalFile file);
                           CueLoaded matching_cue p] st).
  destruct (cue_sections_loop_spec file image old cue ∅ st0)
    as (Hused & Hq & He & Hd & Hlen & Hnew).
  set (r := cue_sections_loop file image _ cue ∅ st0) in *.
  cbn [snd with_txn txn env].
  assert (Hin_used : forall s, s ∈ old ->
            bool_decide (Song.id s ∈ fst r) = still_in_cue cue s).
  { intros s Hs. rewrite Hused. apply eq_true_iff_eq.
    rewrite bool_decide_eq_true. unfold still_in_cue. rewrite existsb_exists.
    rewrite elem_of_union, elem_of_list_to_set, list_elem_of_fmap. split.
    - intros [Hempty | (m & Hid & Hm)]; [by apply elem_of_empty in Hempty|].
      apply list_elem_of_In, filter_In in Hm as [Hm Hmvalid].
      apply in_map_iff in Hm as (c & <- & Hc). exists c. split; [exact Hc|].
      unfold stored_section_at in *.
      destruct (find _ (rev old)) as [m|] eqn:Hfind; [|discriminate Hmvalid].
      apply find_some in Hfind as [Hmin Hkey]. cbn [default] in *.
      apply in_rev, list_elem_of_In in Hmin.
      rewrite (NoDup_map_inj_in Song.id old s m Hids Hs Hmin Hid).
      apply Z.eqb_eq. symmetry. by apply Z.eqb_eq.
    - intros (c & Hc & Hkey). right. apply Z.eqb_eq in Hkey.
      exists s. split; [reflexivity|]. apply list_elem_of_In, filter_In.
      assert (Hat : stored_section_at old c = s).
      { unfold stored_section_at.
        destruct (find (fun s0 => to_quint64 (Song.beginning_nanosec s0)
                                  =? to_quint64 (Song.beginning_nanosec c)) (rev old))
          as [m|] eqn:Hfind.
        - apply find_some in Hfind as [Hmin Hmkey]. cbn [default].
          apply in_rev, list_elem_of_In in Hmin. apply Z.eqb_eq in Hmkey.
          apply (NoDup_map_inj_in (fun s => to_quint64 (Song.beginning_nanosec s)) old);
            [exact Hkeys | exact Hmin | exact Hs | exact (eq_trans Hmkey Hkey)].
        - assert (Hn := find_none _ _ Hfind s
                          (proj1 (in_rev old s) (proj1 (list_elem_of_In _ _) Hs))).
          cbn beta in Hn. apply Z.eqb_neq in Hn.
          exfalso. apply Hn. symmetry. exact Hkey. }
      split; [|by apply Hvalid].
      apply in_map_iff. exists c. split; [exact Hat | exact Hc]. }
  destruct (cue_sections_loop_filed file image old cue ∅ st0) as [Hfiled_new Hfiled_touched].
  fold r in Hfiled_new, Hfiled_touched. cbv zeta in Hfiled_new, Hfiled_touched.
  split; [|split; [|split; [|split; [|split; [|split]]]]].
  - replace (Txn.deleted_songs (Txn.set_deleted_songs _ (txn (snd r)))) with
      (Txn.deleted_songs (txn (snd r))
       ++ filter (fun s => negb (bool_decide (Song.id s ∈ fst r))) old)
      by (destruct (txn (snd r)); reflexivity).
    rewrite Hd. f_equal. apply filter_bool_ext_in. intros s Hs. by rewrite Hin_used.
  - replace (Txn.new_songs (Txn.set_deleted_songs _ (txn (snd r)))) with
      (Txn.new_songs (txn (snd r))) by (destruct (txn (snd r)); reflexivity).
    replace (Txn.touched_songs (Txn.set_deleted_songs _ (txn (snd r)))) with
      (Txn.touched_songs (txn (snd r))) by (destruct (txn (snd r)); reflexivity).
    exact Hlen.
  - intros c Hc Hfresh.
    replace (Txn.new_songs (Txn.set_deleted_songs _ (txn (snd r)))) with
      (Txn.new_songs (txn (snd r))) by (destruct (txn (snd r)); reflexivity).
    apply (Hnew c Hc). unfold stored_section_at.
    destruct (find _ (rev old)) as [m|] eqn:Hfind; [|reflexivity].
    apply find_some in Hfind as [Hmin Hmkey]. exfalso.
    apply (Hfresh m); [by apply list_elem_of_In, in_rev | by apply Z.eqb_eq].
  - rewrite He. reflexivity.
  - apply (queues_songs_trans _ st0); [apply queues_songs_effects|].
    apply (queues_songs_trans _ (snd r)); [exact Hq | apply queues_songs_deleted].
  - replace (Txn.new_songs (Txn.set_deleted_songs _ (txn (snd r)))) with
      (Txn.new_songs (txn (snd r))) by (destruct (txn (snd r)); reflexivity).
    exact Hfiled_new.
  - replace (Txn.touched_songs (Txn.set_deleted_songs _ (txn (snd r)))) with
      (Txn.touched_songs (txn (snd r))) by (destruct (txn (snd r)); reflexivity).
    exact Hfiled_touched.
Qed.

End Rereading.

Lemma cue_sections_are_matched_by_offset_witness :
  let W := world_with_stored_cue in
  let st := ScanTransaction_ctor W example_env 1 false false false in
  let old_sections := GetSongsByUrl W (fromLocalFile "/music/a/1.flac") in
  let st' := snd (UpdateCueAssociatedSongs W "/music/a/1.flac" "/music/a" "/music/a/1.cue"
                    QUrl_empty st) in
  (forall s, s ∈ old_sections -> Song.is_valid s = true)
  /\ NoDup (map (fun s => to_quint64 (Song.beginning_nanosec s)) old_sections)
  /\ NoDup (map Song.id old_sections)
  /\ Txn.deleted_songs (txn st')
     = [cue_section 12 "/music/a/1.flac" "/music/a/1.cue" 9000].
Proof.
  intros W st old_sections st'.
  assert (Hvalid : forall s, s ∈ old_sections -> Song.is_valid s = true).
  { intros s Hs. apply elem_of_cons in Hs as [-> | Hs]; [reflexivity|].
    apply list_elem_of_singleton in Hs. subst s. reflexivity. }
  assert (Hkeys : NoDup (map (fun s => to_quint64 (Song.beginning_nanosec s)) old_sections)).
  { apply NoDup_cons. split; [|apply NoDup_singleton].
    intros Hin. apply list_elem_of_singleton in Hin. discriminate Hin. }
  assert (Hids : NoDup (map Song.id old_sections)).
  { apply NoDup_cons. split; [|apply NoDup_singleton].
    intros Hin. apply list_elem_of_singleton in Hin. discriminate Hin. }
  split; [exact Hvalid|]. split; [exact Hkeys|]. split; [exact Hids|].
  exact (proj1 (cue_sections_are_matched_by_offset W "/music/a/1.flac" "/music/a"
                  "/music/a/1.cue" QUrl_empty st Hvalid Hkeys Hids)).
Defined.

(* --------------------------------------------------------------------- *)
(** ** A file of the listing: stored, or new *)

Section FilesOfTheListing.

Variable W : World.

Lemma UpdateCueAssociatedSongs_outcome (file p matching_cue : QString) (image : QUrl)
    (st : St) :
  let st' := snd (UpdateCueAssociatedSongs W file p matching_cue image st) in
  queues_songs st st'
  /\ trace (env st')
     = trace (env st) ++ [Queried_GetSongsByUrl (fromLocalFile file); CueLoaded matching_cue p].
Proof.
  cbv zeta. rewrite UpdateCueAssociatedSongs_eq. cbv zeta.
  set (st0 := add_effects [Queried_GetSongsByUrl (fromLocalFile file);
                           CueLoaded matching_cue p] st).
  destruct (cue_sections_loop_spec file image (GetSongsByUrl W (fromLocalFile file))
              (CueParser_Load W matching_cue p) ∅ st0) as (_ & Hq & He & _).
  cbn [snd with_txn env]. split.
  - apply (queues_songs_trans _ st0); [apply queues_songs_effects|].
    eapply queues_songs_trans; [exact Hq | apply queues_songs_deleted].
  - rewrite He. reflexivity.
Qed.

Lemma UpdateNonCueAssociatedSong_plain (file : QString) (matching_song : Song.t)
    (image : QUrl) (st : St) :
  UpdateNonCueAssociatedSong W file matching_song image false st =
  if Song.is_valid (read_from_disk W file st)
  then PreserveUserSetData file image matching_song (read_from_disk W file st)
         (add_effects [TagRead file] st)
  else (tt, add_effects [TagRead file] st).
Proof.
  unfold UpdateNonCueAssociatedSong. cbn [when].
  unfold bind at 1. unfold ret at 1.
  unfold bind at 1. unfold get_watcher at 1. unfold bind at 1. unfold get_txn at 1.
  unfold bind at 1. unfold emit at 1. unfold read_from_disk, add_effects, when.
  cbn [env txn watcher trace polls].
  destruct (Song.is_valid _); reflexivity.
Qed.

Lemma UpdateNonCueAssociatedSong_outcome (file : QString) (matching_song : Song.t)
    (image : QUrl) (cue_deleted : bool) (st : St) :
  let st' := snd (UpdateNonCueAssociatedSong W file matching_song image cue_deleted st) in
  queues_songs st st'
  /\ trace (env st')
     = trace (env st)
       ++ (if cue_deleted then [Queried_GetSongsByUrl (fromLocalFile file)] else [])
       ++ [TagRead file].
Proof.
  cbv zeta. destruct cue_deleted.
  - rewrite UpdateNonCueAssociatedSong_cue_deleted. cbv zeta.
    set (st1 := add_effects _ _).
    assert (Hq1 : queues_songs st st1).
    { subst st1. eapply queues_songs_trans; [apply queues_songs_deleted|].
      apply queues_songs_effects. }
    destruct (Song.is_valid _).
    + destruct (PreserveUserSetData_frame file image matching_song
                  (read_from_disk W file st) st1) as (He & _).
      split; [|rewrite He; reflexivity].
      eapply queues_songs_trans; [exact Hq1 | apply queues_songs_preserve].
    + split; [exact Hq1 | reflexivity].
  - rewrite UpdateNonCueAssociatedSong_plain.
    destruct (Song.is_valid _).
    + destruct (PreserveUserSetData_frame file image matching_song
                  (read_from_disk W file st) (add_effects [TagRead file] st)) as (He & _).
      split; [|rewrite He; reflexivity].
      eapply queues_songs_trans; [apply queues_songs_effects | apply queues_songs_preserve].
    + split; [apply queues_songs_effects | reflexivity].
Qed.

(** The scan of a listed file that has a stored song and is on disk. *)
Lemma scan_file_found (p : QString) (songs_in_db : SongList) (file : QString) (ls : FileLoop)
    (matching_song : Song.t) (st : St) :
  stop_requested_ W (polls (env st)) = false ->
  FindSongByPath songs_in_db file = Some matching_song ->
  exists_ W file = true ->
  let matching_cue := NoExtensionPart W file +:+ ".cue" in
  let song_cue_mtime := GetMtimeForCue W (Song.cue_path matching_song) in
  let cue_deleted := (song_cue_mtime =? 0) && Song.has_cue matching_song in
  let cue_added := negb (GetMtimeForCue W matching_cue =? 0)
                   && negb (Song.has_cue matching_song) in
  let changed :=
    negb (Song.mtime matching_song =? qMax (toTime_t (lastModified W file)) song_cue_mtime)
    || cue_deleted || cue_added in
  let ia := ImageForSong W file (loop_album_art ls) (with_polls (S (polls (env st))) st) in
  let image := fst (fst ia) in
  let changed := if art_changed W matching_song image then true else changed in
  let st2 :=
    snd (when (Txn.ignores_mtime_ (txn (snd ia)) || changed)
           (if negb cue_deleted && (Song.has_cue matching_song || cue_added)
            then UpdateCueAssociatedSongs W file p matching_cue image
            else UpdateNonCueAssociatedSong W file matching_song image cue_deleted)
           (snd ia)) in
  scan_file W p songs_in_db file ls st =
  (Some {| loop_album_art := snd (fst ia);
           loop_files_on_disk := loop_files_on_disk ls;
           cues_processed := cues_processed ls |},
   snd (when (Song.is_unavailable matching_song) (push_readded_song matching_song) st2)).
Proof.
  intros Hstop Hfind Hexists. cbv zeta. unfold scan_file.
  rewrite bind_run. unfold read_stop_requested at 1 2. cbn [fst snd].
  rewrite Hstop, Hfind, Hexists. cbn [negb].
  rewrite !bind_run. unfold get_txn, ret. cbn [fst snd]. reflexivity.
Qed.

(** X12.  When the loop over the listed files comes to a file that has a
    stored song and is on disk, the stored song is queued in the
    readded-songs batch exactly when it is marked unavailable, whether or
    not the file is read again; the file stays in the list of files on disk
    and the set of processed cue sheets is left alone. *)
Theorem found_song_is_readded_iff_unavailable (p : QString) (songs_in_db : SongList)
    (file : QString) (ls : FileLoop) (matching_song : Song.t) (st : St) :
  stop_requested_ W (polls (env st)) = false ->
  FindSongByPath songs_in_db file = Some matching_song ->
  exists_ W file = true ->
  let r := scan_file W p songs_in_db file ls st in
  Txn.readded_songs (txn (snd r))
    = Txn.readded_songs (txn st)
      ++ (if Song.is_unavailable matching_song then [matching_song] else [])
  /\ exists ls', fst r = Some ls'
                 /\ loop_files_on_disk ls' = loop_files_on_disk ls
                 /\ cues_processed ls' = cues_processed ls.
Proof.
  intros Hstop Hfind Hexists r. subst r.
  rewrite (scan_file_found p songs_in_db file ls matching_song st Hstop Hfind Hexists).
  cbv zeta. cbn [fst snd].
  split; [|eexists; split; [reflexivity | split; reflexivity]].
  destruct (ImageForSong_frame W file (loop_album_art ls)
              (with_polls (S (polls (env st))) st)) as (loaded & k & Hframe).
  set (ia := ImageForSong W file (loop_album_art ls) (with_polls (S (polls (env st))) st))
    in *.
  match goal with |- context [when ?c ?m (snd ia)] =>
    assert (Hq : queues_songs (snd ia) (snd (when c m (snd ia))));
    [| set (st2 := snd (when c m (snd ia))) in * ] end.
  { match goal with |- context [when ?c _ _] => destruct c end; cbn [when];
      [|apply queues_songs_refl].
    match goal with |- context [if ?c then _ else _] => destruct c end.
    - apply UpdateCueAssociatedSongs_outcome.
    - apply UpdateNonCueAssociatedSong_outcome. }
  apply queues_songs_frame in Hq as (_ & _ & _ & Hreadded & _).
  assert (Hst : Txn.readded_songs (txn st2) = Txn.readded_songs (txn st)).
  { rewrite Hreadded, Hframe. reflexivity. }
  destruct (Song.is_unavailable matching_song); cbn [when].
  - unfold push_readded_song, modify_txn. cbn [snd txn]. rewrite <- Hst.
    destruct (txn st2). reflexivity.
  - unfold ret. cbn [snd]. rewrite app_nil_r. exact Hst.
Qed.

(** X13.  A stored file that is on disk is read again whenever the
    transaction ignores mtimes or the stored mtime differs from the larger
    of the mtimes of the file and of the cue sheet of the stored song.  It is
    read through the cue sheet beside the file when the stored song has a
    cue sheet that is still there, or has none and one has appeared beside
    the file; otherwise through the tag reader. *)
Theorem changed_file_is_read_again (p : QString) (songs_in_db : SongList)
    (file : QString) (ls : FileLoop) (matching_song : Song.t) (st : St) :
  stop_requested_ W (polls (env st)) = false ->
  FindSongByPath songs_in_db file = Some matching_song ->
  exists_ W file = true ->
  Txn.ignores_mtime_ (txn st) = true
  \/ Song.mtime matching_song
     <> qMax (toTime_t (lastModified W file))
             (GetMtimeForCue W (Song.cue_path matching_song)) ->
  let matching_cue := NoExtensionPart W file +:+ ".cue" in
  let cue_kept := Song.has_cue matching_song
                  && negb (GetMtimeForCue W (Song.cue_path matching_song) =? 0) in
  let cue_added := negb (Song.has_cue matching_song)
                   && negb (GetMtimeForCue W matching_cue =? 0) in
  exists effects,
    trace (env (snd (scan_file W p songs_in_db file ls st))) = trace (env st) ++ effects
    /\ (if cue_kept || cue_added then CueLoaded matching_cue p else TagRead file) ∈ effects.
Proof.
  intros Hstop Hfind Hexists Hchanged matching_cue cue_kept cue_added.
  rewrite (scan_file_found p songs_in_db file ls matching_song st Hstop Hfind Hexists).
  cbv zeta. cbn [snd]. fold matching_cue.
  destruct (ImageForSong_frame W file (loop_album_art ls)
              (with_polls (S (polls (env st))) st)) as (loaded & k & Hframe).
  set (ia := ImageForSong W file (loop_album_art ls) (with_polls (S (polls (env st))) st))
    in *.
  assert (Hgo : forall b : bool,
            Txn.ignores_mtime_ (txn (snd ia))
            || (if b then true
                else negb (Song.mtime matching_song
                           =? qMax (toTime_t (lastModified W file))
                                   (GetMtimeForCue W (Song.cue_path matching_song)))
                     || (GetMtimeForCue W (Song.cue_path matching_song) =? 0)
                        && Song.has_cue matching_song
                     || negb (GetMtimeForCue W matching_cue =? 0)
                        && negb (Song.has_cue matching_song))
            = true).
  { intros b. rewrite Hframe. cbn [add_effects with_polls txn].
    destruct Hchanged as [-> | Hne]; [reflexivity|].
    apply Z.eqb_neq in Hne. rewrite Hne. cbn [negb orb].
    destruct b; apply orb_true_r. }
  rewrite Hgo. cbn [when].
  assert (Hbranch :
            negb ((GetMtimeForCue W (Song.cue_path matching_song) =? 0)
                  && Song.has_cue matching_song)
            && (Song.has_cue matching_song
                || negb (GetMtimeForCue W matching_cue =? 0)
                   && negb (Song.has_cue matching_song))
            = cue_kept || cue_added).
  { subst cue_kept cue_added.
    destruct (Song.has_cue matching_song), (GetMtimeForCue W (Song.cue_path matching_song) =? 0),
      (GetMtimeForCue W matching_cue =? 0); reflexivity. }
  rewrite Hbranch.
  assert (Hreadded : forall st2,
            trace (env (snd (when (Song.is_unavailable matching_song)
                               (push_readded_song matching_song) st2)))
            = trace (env st2)).
  { intros st2. destruct (Song.is_unavailable matching_song); reflexivity. }
  rewrite Hreadded.
  destruct (cue_kept || cue_added).
  - destruct (UpdateCueAssociatedSongs_outcome file p matching_cue (fst (fst ia)) (snd ia))
      as [_ Htrace].
    rewrite Htrace, Hframe. cbn [add_effects with_polls env trace].
    rewrite <- app_assoc. eexists. split; [reflexivity|].
    apply elem_of_app. right. apply elem_of_cons. right. apply elem_of_cons. by left.
  - match goal with |- context [UpdateNonCueAssociatedSong W file ?m ?i ?cd ?s] =>
      destruct (UpdateNonCueAssociatedSong_outcome file m i cd s) as [_ Htrace] end.
    rewrite Htrace, Hframe. cbn [add_effects with_polls env trace].
    rewrite <- !app_assoc. eexists. split; [reflexivity|].
    apply elem_of_app. right. apply elem_of_app. right. apply elem_of_cons. by left.
Qed.

Lemma ScanNewFile_plain (file p matching_cue : QString) (cues : gset string) (st : St) :
  GetMtimeForCue W matching_cue = 0 ->
  let song := ReadFileBlocking W file (Song.Song (source_ (watcher (env st)))) in
  ScanNewFile W file p matching_cue cues st =
  ((if Song.is_valid song then [Song.set_source (source_ (watcher (env st))) song] else [],
    cues),
   add_effects [TagRead file] st).
Proof.
  intros Hmtime. cbv zeta. unfold ScanNewFile. rewrite Hmtime. cbn [Z.eqb negb].
  unfold bind at 1. unfold get_watcher at 1. unfold bind at 1. unfold emit at 1.
  cbn [env watcher]. unfold ret, add_effects.
  destruct (Song.is_valid _); reflexivity.
Qed.

(** X14.  Each time the loop over the listed files comes to a file with no
    stored song and no cue sheet beside it, the file is read once through
    the tag reader.  When the read yields no valid song the transaction is
    left as it was and the loop goes on with the same files, album art and
    processed cue sheets.  When it yields a valid song, exactly that song is
    filed as new, with the source of the collection and under the directory
    of the transaction; when the song brings no art, its art is the image
    that [ImageForSong] picks right after the tag read for the directory of
    the file among the album art the loop holds, and the loop goes on with
    the album art as that call leaves it; nothing but the loading of images
    and reads of the stop flag happens besides. *)
Theorem new_plain_file_is_read_and_filed (p : QString) (songs_in_db : SongList)
    (file : QString) (ls : FileLoop) (st : St) :
  stop_requested_ W (polls (env st)) = false ->
  FindSongByPath songs_in_db file = None ->
  GetMtimeForCue W (NoExtensionPart W file +:+ ".cue") = 0 ->
  let source := source_ (watcher (env st)) in
  let song := ReadFileBlocking W file (Song.Song source) in
  let st1 := add_effects [TagRead file] (with_polls (S (polls (env st))) st) in
  let picked := ImageForSong W file (loop_album_art ls) st1 in
  let r := scan_file W p songs_in_db file ls st in
  (Song.is_valid song = false -> r = (Some ls, st1))
  /\ (Song.is_valid song = true ->
      r = (Some {| loop_album_art := snd (fst picked);
                   loop_files_on_disk := loop_files_on_disk ls;
                   cues_processed := cues_processed ls |},
           with_txn (Txn.set_new_songs
                       (Txn.new_songs (txn st)
                        ++ [filed_as_new (Txn.dir_ (txn st)) (image_for_new_file W file ls st)
                              (Song.set_source source song)])
                       (txn st))
             (snd picked))
      /\ image_for_new_file W file ls st = fst (fst picked)
      /\ exists loaded k,
           snd picked = add_effects (map ImageLoaded loaded) (with_polls k st1)).
Proof.
  intros Hstop Hfind Hmtime source song st1 picked r.
  assert (Hr : r = scan_file W p songs_in_db file ls st) by reflexivity. clearbody r.
  unfold scan_file in Hr. rewrite bind_run in Hr.
  unfold read_stop_requested at 1 2 in Hr. cbn [fst snd] in Hr.
  rewrite Hstop, Hfind in Hr. rewrite bind_run in Hr.
  rewrite (ScanNewFile_plain file p _ (cues_processed ls) _ Hmtime) in Hr. cbv zeta in Hr.
  cbn [fst snd env watcher] in Hr. fold source in Hr. fold song in Hr.
  split; intros Hvalid; rewrite Hvalid in Hr; cbn [is_nil] in Hr; subst r.
  - unfold ret. destruct ls. reflexivity.
  - destruct (ImageForSong_frame W file (loop_album_art ls) st1) as (loaded & k & Hframe).
    split; [|split; [reflexivity | by exists loaded, k]].
    rewrite bind_run.
    change (add_effects [TagRead file]
              {| env := {| watcher := watcher (env st); trace := trace (env st);
                           polls := S (polls (env st)) |};
                 txn := txn st |}) with st1.
    change (ImageForSong W file (loop_album_art ls) st1) with picked.
    rewrite bind_run, for_each_file_new_songs. unfold ret. cbn [fst snd map].
    change (image_for_new_file W file ls st) with (fst (fst picked)).
    f_equal. subst picked. rewrite Hframe. reflexivity.
Qed.

End FilesOfTheListing.

Lemma found_song_is_readded_iff_unavailable_witness :
  let back := Song.set_unavailable true (stored_song 7 "/music/a/1.mp3" 1700) in
  let W := world_with_song back true true in
  let st := ScanTransaction_ctor W example_env 1 false true false in
  let ls := {| loop_album_art := ∅; loop_files_on_disk := FileList_of ["/music/a/1.mp3"];
               cues_processed := ∅ |} in
  stop_requested_ W (polls (env st)) = false
  /\ FindSongByPath [back] "/music/a/1.mp3" = Some back
  /\ exists_ W "/music/a/1.mp3" = true
  /\ Txn.readded_songs (txn (snd (scan_file W "/music/a" [back] "/music/a/1.mp3" ls st)))
     = [back].
Proof.
  intros back W st ls.
  split; [reflexivity|]. split; [reflexivity|]. split; [reflexivity|].
  exact (proj1 (found_song_is_readded_iff_unavailable W "/music/a" [back] "/music/a/1.mp3"
                  ls back st eq_refl eq_refl eq_refl)).
Defined.

Lemma changed_file_is_read_again_witness :
  let stored := stored_song 7 "/music/a/1.mp3" 1600 in
  let W := world_with_song stored true true in
  let st := ScanTransaction_ctor W example_env 1 false false false in
  let ls := {| loop_album_art := ∅; loop_files_on_disk := FileList_of ["/music/a/1.mp3"];
               cues_processed := ∅ |} in
  stop_requested_ W (polls (env st)) = false
  /\ FindSongByPath [stored] "/music/a/1.mp3" = Some stored
  /\ exists_ W "/music/a/1.mp3" = true
  /\ Song.mtime stored
     <> qMax (toTime_t (lastModified W "/music/a/1.mp3"))
             (GetMtimeForCue W (Song.cue_path stored))
  /\ exists effects,
       trace (env (snd (scan_file W "/music/a" [stored] "/music/a/1.mp3" ls st)))
       = trace (env st) ++ effects
       /\ TagRead "/music/a/1.mp3" ∈ effects.
Proof.
  intros stored W st ls.
  assert (Hmtime : Song.mtime stored
                   <> qMax (toTime_t (lastModified W "/music/a/1.mp3"))
                           (GetMtimeForCue W (Song.cue_path stored)))
    by (vm_compute; discriminate).
  split; [reflexivity|]. split; [reflexivity|]. split; [reflexivity|].
  split; [exact Hmtime|].
  exact (changed_file_is_read_again W "/music/a" [stored] "/music/a/1.mp3" ls stored st
           eq_refl eq_refl eq_refl (or_intror Hmtime)).
Defined.

Lemma new_plain_file_is_read_and_filed_witness :
  let W := world_with_art (Some (300, 300)) in
  let st := ScanTransaction_ctor W example_env 1 false false false in
  let ls := {| loop_album_art :=
                 {[ "/music/a" := ["/music/a/cover.jpg"; "/music/a/folder.jpg"] ]};
               loop_files_on_disk := FileList_of ["/music/a/1.mp3"];
               cues_processed := ∅ |} in
  stop_requested_ W (polls (env st)) = false
  /\ FindSongByPath [] "/music/a/1.mp3" = None
  /\ GetMtimeForCue W (NoExtensionPart W "/music/a/1.mp3" +:+ ".cue") = 0
  /\ image_for_new_file W "/music/a/1.mp3" ls st = fromLocalFile "/music/a/cover.jpg"
  /\ map Song.art_automatic
         (Txn.new_songs (txn (snd (scan_file W "/music/a" [] "/music/a/1.mp3" ls st))))
     = [fromLocalFile "/music/a/cover.jpg"].
Proof.
  intros W st ls.
  split; [reflexivity|]. split; [reflexivity|]. split; [reflexivity|].
  split; [reflexivity|].
  destruct (proj2 (new_plain_file_is_read_and_filed W "/music/a" [] "/music/a/1.mp3" ls st
                     eq_refl eq_refl eq_refl) eq_refl) as (Hr & _).
  rewrite Hr. reflexivity.
Defined.

(* --------------------------------------------------------------------- *)
(** ** Deleted and readded songs *)

Section Roundtrip.

Variable W : World.

Hypothesis never_stopped : forall n, stop_requested_ W n = false.

Lemma ScanNewFile_txn (file p : QString) (cues : gset string) (st : St) :
  txn (snd (ScanNewFile W file p (NoExtensionPart W file +:+ ".cue") cues st)) = txn st.
Proof.
  destruct (Z.eq_dec (GetMtimeForCue W (NoExtensionPart W file +:+ ".cue")) 0) as [Hz | Hnz].
  - rewrite (ScanNewFile_plain W file p _ cues st Hz). reflexivity.
  - rewrite (ScanNewFile_cue_eq W file p cues st Hnz).
    destruct (bool_decide _); reflexivity.
Qed.

(** What one iteration of the loop over the listed files does to the batch
    of readded songs. *)
Lemma scan_file_readded (p : QString) (songs_in_db : SongList) (file : QString)
    (ls : FileLoop) (st : St) :
  Txn.readded_songs (txn (snd (scan_file W p songs_in_db file ls st)))
  = Txn.readded_songs (txn st)
    ++ match FindSongByPath songs_in_db file with
       | Some matching_song =>
           if exists_ W file && Song.is_unavailable matching_song then [matching_song]
           else []
       | None => []
       end.
Proof.
  destruct (FindSongByPath songs_in_db file) as [m|] eqn:Hfind.
  - destruct (exists_ W file) eqn:Hexists; cbn [andb].
    + rewrite (scan_file_found W p songs_in_db file ls m st (never_stopped _) Hfind Hexists).
      cbv zeta. cbn [snd].
      destruct (ImageForSong_frame W file (loop_album_art ls)
                  (with_polls (S (polls (env st))) st)) as (loaded & k & Hframe).
      set (ia := ImageForSong W file (loop_album_art ls)
                   (with_polls (S (polls (env st))) st)) in *.
      match goal with |- context [when ?c ?m0 (snd ia)] =>
        assert (Hq : queues_songs (snd ia) (snd (when c m0 (snd ia))));
        [| set (st2 := snd (when c m0 (snd ia))) in * ] end.
      { match goal with |- context [when ?c _ _] => destruct c end; cbn [when];
          [|apply queues_songs_refl].
        match goal with |- context [if ?c then _ else _] => destruct c end.
        - apply UpdateCueAssociatedSongs_outcome.
        - apply UpdateNonCueAssociatedSong_outcome. }
      apply queues_songs_frame in Hq as (_ & _ & _ & Hreadded & _).
      assert (Hst : Txn.readded_songs (txn st2) = Txn.readded_songs (txn st)).
      { rewrite Hreadded, Hframe. reflexivity. }
      destruct (Song.is_unavailable m); cbn [when].
      * unfold push_readded_song, modify_txn. cbn [snd txn]. rewrite <- Hst.
        destruct (txn st2). reflexivity.
      * unfold ret. cbn [snd]. rewrite app_nil_r. exact Hst.
    + unfold scan_file. rewrite bind_run. unfold read_stop_requested at 1 2.
      cbn [fst snd]. rewrite never_stopped, Hfind, Hexists. cbn [negb].
      unfold ret. cbn [snd txn]. by rewrite app_nil_r.
  - rewrite app_nil_r.
    unfold scan_file. rewrite bind_run. unfold read_stop_requested at 1 2.
    cbn [fst snd]. rewrite never_stopped, Hfind. rewrite bind_run.
    match goal with |- context [ScanNewFile W file p ?c ?cs ?st0] =>
      pose proof (ScanNewFile_txn file p cs st0) as Hnew;
      set (r := ScanNewFile W file p c cs st0) in * end.
    cbn [txn] in Hnew.
    destruct (is_nil (fst (fst r))); [unfold ret; cbn [snd]; by rewrite Hnew|].
    rewrite bind_run.
    match goal with |- context [ImageForSong W file ?aa ?st0] =>
      destruct (ImageForSong_frame W file aa st0) as (loaded & k & Hframe);
      set (ia := ImageForSong W file aa st0) in * end.
    rewrite bind_run, for_each_file_new_songs. unfold ret. cbn [fst snd with_txn txn].
    replace (Txn.readded_songs (Txn.set_new_songs _ (txn (snd ia))))
      with (Txn.readded_songs (txn (snd ia))) by (destruct (txn (snd ia)); reflexivity).
    rewrite Hframe. cbn [add_effects with_polls txn]. by rewrite Hnew.
Qed.

Lemma scan_files_readded_kept (p : QString) (songs_in_db : SongList) (n : nat) :
  forall (i : nat) (ls : FileLoop) (st : St) (s : Song.t),
    s ∈ Txn.readded_songs (txn st) ->
    s ∈ Txn.readded_songs (txn (snd (scan_files W n i p songs_in_db ls st))).
Proof.
  induction n as [|n IH]; intros i ls st s Hs; cbn [scan_files]; [exact Hs|].
  destruct (slots (loop_files_on_disk ls) !! i) as [file|]; [|exact Hs].
  rewrite bind_run.
  assert (Hs1 : s ∈ Txn.readded_songs (txn (snd (scan_file W p songs_in_db file ls st)))).
  { rewrite scan_file_readded. apply elem_of_app. by left. }
  destruct (fst (scan_file W p songs_in_db file ls st)) as [ls'|]; [|exact Hs1].
  by apply IH.
Qed.

(** C3, as amended.  While no stop is requested: a stored song marked
    available whose file is not among the files the listing found is queued
    in the deleted-songs batch of the visit.  When the file of a stored song
    marked unavailable is on disk again and listed, and no file listed
    before it has a stored song and is gone, the visit queues the stored
    song that is found for the path in the readded-songs batch, whether or
    not the file is read again.  The iteration of the loop for that file
    leaves the batches of new, touched and deleted songs alone and reads no
    tags provided that the transaction does not ignore mtimes, that the
    stored mtime is the larger of the mtimes of the file and of its cue
    sheet, that no cue sheet has come or gone, and that the art of the song
    is still what the directory offers.  When instead the transaction
    ignores mtimes or the stored mtime differs, no cue sheet is involved and
    the tag reader yields a valid song, that iteration files the song read,
    with the row id and user data of the stored song, in the new-songs batch
    as well as the stored song in the readded-songs batch. *)
Theorem deleted_then_readded (p : QString) (st : St) :
  (forall song,
     song ∈ stored_songs W p st -> Song.is_unavailable song = false ->
     toLocalFile (Song.url song) ∉ listed_files W p ->
     song ∈ Txn.deleted_songs (txn (snd (reconcile_files W p st))))
  /\ (forall pre file post song,
        listed_files W p = pre ++ file :: post ->
        (forall g, g ∈ pre ->
                   FindSongByPath (stored_songs W p st) g = None \/ exists_ W g = true) ->
        FindSongByPath (stored_songs W p st) file = Some song ->
        exists_ W file = true ->
        Song.is_unavailable song = true ->
        song ∈ Txn.readded_songs (txn (snd (reconcile_files W p st))))
  /\ (forall songs_in_db file ls matching_song,
        FindSongByPath songs_in_db file = Some matching_song ->
        exists_ W file = true ->
        Song.is_unavailable matching_song = true ->
        Txn.ignores_mtime_ (txn st) = false ->
        Song.mtime matching_song
          = qMax (toTime_t (lastModified W file))
                 (GetMtimeForCue W (Song.cue_path matching_song)) ->
        (Song.has_cue matching_song = true ->
         GetMtimeForCue W (Song.cue_path matching_song) <> 0) ->
        (Song.has_cue matching_song = false ->
         GetMtimeForCue W (NoExtensionPart W file +:+ ".cue") = 0) ->
        art_changed W matching_song (image_for_stored_song W file ls st) = false ->
        let st' := snd (scan_file W p songs_in_db file ls st) in
        Txn.readded_songs (txn st') = Txn.readded_songs (txn st) ++ [matching_song]
        /\ Txn.new_songs (txn st') = Txn.new_songs (txn st)
        /\ Txn.touched_songs (txn st') = Txn.touched_songs (txn st)
        /\ Txn.deleted_songs (txn st') = Txn.deleted_songs (txn st)
        /\ forall e, is_TagRead e = true -> e ∈ trace (env st') -> e ∈ trace (env st))
  /\ (forall songs_in_db file ls matching_song,
        FindSongByPath songs_in_db file = Some matching_song ->
        exists_ W file = true ->
        Song.is_unavailable matching_song = true ->
        Txn.ignores_mtime_ (txn st) = true
        \/ Song.mtime matching_song
           <> qMax (toTime_t (lastModified W file))
                   (GetMtimeForCue W (Song.cue_path matching_song)) ->
        Song.has_cue matching_song = false ->
        GetMtimeForCue W (NoExtensionPart W file +:+ ".cue") = 0 ->
        Song.is_valid (read_from_disk W file st) = true ->
        let st' := snd (scan_file W p songs_in_db file ls st) in
        let song := preserved (image_for_stored_song W file ls st) matching_song
                      (read_from_disk W file st) in
        Txn.readded_songs (txn st') = Txn.readded_songs (txn st) ++ [matching_song]
        /\ Txn.new_songs (txn st') = Txn.new_songs (txn st) ++ [song]
        /\ Song.id song = Song.id matching_song
        /\ Song.playcount song = Song.playcount matching_song
        /\ Song.skipcount song = Song.skipcount matching_song
        /\ Song.lastplayed song = Song.lastplayed matching_song
        /\ Song.art_manual song = Song.art_manual matching_song).
Proof.
  split; [|split; [|split]].
  - intros song Hin Havail Hnot.
    destruct (reconcile_files_outcome W never_stopped p st)
      as (aa & st3 & ls & st4 & subdirs & Hscan & Heq).
    apply (deleted_after_reconcile W p st ls st4 subdirs song Heq Hin Havail).
    intros Hc. apply Hnot.
    assert (Hfst : fst (scan_files W (length (listed_files W p)) 0 p (stored_songs W p st)
                          {| loop_album_art := aa;
                             loop_files_on_disk := FileList_of (listed_files W p);
                             cues_processed := ∅ |} st3) = Some ls) by (by rewrite Hscan).
    apply (scan_files_contents W _ _ _ _ _ _ _ Hfst) in Hc.
    cbn [loop_files_on_disk] in Hc. by rewrite contents_FileList_of in Hc.
  - intros pre file post song Hlisted Hpre Hfind Hexists Hunav.
    destruct (reconcile_files_outcome W never_stopped p st)
      as (aa & st3 & ls & st4 & subdirs & Hscan & Heq).
    rewrite Heq. cbn [snd with_txn txn].
    replace (Txn.readded_songs (Txn.set_deleted_songs _ (txn st4)))
      with (Txn.readded_songs (txn st4)) by (destruct (txn st4); reflexivity).
    replace st4 with
      (snd (scan_files W (length (listed_files W p)) 0 p (stored_songs W p st)
              {| loop_album_art := aa;
                 loop_files_on_disk := FileList_of (listed_files W p);
                 cues_processed := ∅ |} st3)) by (by rewrite Hscan).
    clear Hscan Heq. rewrite Hlisted, length_app. cbn [length].
    set (ls0 := {| loop_album_art := aa;
                   loop_files_on_disk := FileList_of (pre ++ file :: post);
                   cues_processed := ∅ |}).
    destruct (scan_files_prefix W never_stopped p (stored_songs W p st) pre
                (S (length post)) 0 ls0 st3) as (ls1 & st1 & Heq & Hfiles).
    { intros k g Hk. cbn. by apply lookup_app_l_Some. }
    { exact Hpre. }
    rewrite Heq. cbn [scan_files Nat.add]. rewrite Hfiles.
    assert (Hslot : slots (loop_files_on_disk ls0) !! length pre = Some file).
    { cbn. rewrite lookup_app_r by lia. by rewrite Nat.sub_diag. }
    rewrite Hslot, bind_run.
    assert (Hnow : song ∈ Txn.readded_songs
                            (txn (snd (scan_file W p (stored_songs W p st) file ls1 st1)))).
    { rewrite scan_file_readded, Hfind, Hexists, Hunav. cbn [andb].
      apply elem_of_app. right. left. }
    destruct (fst (scan_file W p (stored_songs W p st) file ls1 st1)) as [ls2|];
      [|exact Hnow].
    by apply scan_files_readded_kept.
  - intros songs_in_db file ls m Hfind Hexists Hunav Hign Hmtime Hkept Hnocue Hart st'.
    subst st'. remember (scan_file W p songs_in_db file ls st) as r eqn:Hr.
    unfold scan_file in Hr.
    unfold bind at 1 in Hr. unfold read_stop_requested at 1 in Hr.
    rewrite never_stopped, Hfind, Hexists, Hmtime, Z.eqb_refl, Hunav in Hr.
    cbn [negb orb when] in Hr.
    assert (Hdel : (GetMtimeForCue W (Song.cue_path m) =? 0) && Song.has_cue m = false).
    { destruct (Song.has_cue m); [|apply andb_false_r].
      rewrite andb_true_r. apply Z.eqb_neq. by apply Hkept. }
    assert (Hadd : negb (GetMtimeForCue W (NoExtensionPart W file +:+ ".cue") =? 0)
                   && negb (Song.has_cue m) = false).
    { destruct (Song.has_cue m); [apply andb_false_r|].
      rewrite Hnocue by reflexivity. reflexivity. }
    rewrite Hdel, Hadd in Hr. cbn [negb orb andb] in Hr.
    unfold bind at 1 in Hr.
    unfold image_for_stored_song, with_polls in Hart.
    match type of Hr with context [ImageForSong W file ?aa ?st0] =>
      destruct (ImageForSong_frame W file aa st0) as (loaded & k & Hframe);
      destruct (ImageForSong W file aa st0) as [ia st1] end.
    cbn [fst snd] in Hframe, Hart. rewrite Hart in Hr.
    unfold bind at 1 in Hr. unfold get_txn at 1 in Hr.
    replace (Txn.ignores_mtime_ (txn st1)) with false in Hr
      by (subst st1; symmetry; exact Hign).
    cbn [orb when] in Hr. unfold bind at 1 in Hr. unfold ret at 1 in Hr.
    unfold bind at 1 in Hr. unfold push_readded_song, modify_txn, ret in Hr.
    subst r st1. cbn [snd txn env trace add_effects with_polls].
    split; [destruct (txn st); reflexivity|].
    split; [destruct (txn st); reflexivity|].
    split; [destruct (txn st); reflexivity|].
    split; [destruct (txn st); reflexivity|].
    intros e He. rewrite elem_of_app, list_elem_of_fmap.
    intros [Hin | (x & -> & _)]; [exact Hin | discriminate].
  - intros songs_in_db file ls m Hfind Hexists Hunav Hforced Hnocue Hnone Hvalid st' song.
    subst st'. split; [|split].
    + rewrite scan_file_readded, Hfind, Hexists, Hunav. reflexivity.
    + rewrite (scan_file_found W p songs_in_db file ls m st (never_stopped _) Hfind Hexists).
      cbv zeta. cbn [snd]. unfold Song.has_cue in Hnocue.
      destruct (ImageForSong_frame W file (loop_album_art ls)
                  (with_polls (S (polls (env st))) st)) as (loaded & k & Hframe).
      subst song. unfold image_for_stored_song.
      set (ia := ImageForSong W file (loop_album_art ls)
                   (with_polls (S (polls (env st))) st)) in *.
      unfold Song.has_cue. rewrite Hnocue, Hnone. cbn [Z.eqb negb andb orb].
      rewrite !andb_false_r. cbn [negb andb orb].
      assert (Hgo : forall b : bool,
                Txn.ignores_mtime_ (txn (snd ia))
                || (if b then true
                    else negb (Song.mtime m
                               =? qMax (toTime_t (lastModified W file))
                                       (GetMtimeForCue W (Song.cue_path m)))
                         || false || false)
                = true).
      { intros b. rewrite Hframe. cbn [add_effects with_polls txn].
        destruct Hforced as [-> | Hne]; [reflexivity|].
        apply Z.eqb_neq in Hne. rewrite Hne. cbn [negb orb].
        destruct b; apply orb_true_r. }
      rewrite Hgo. cbn [when].
      rewrite UpdateNonCueAssociatedSong_plain.
      assert (Hread : read_from_disk W file (snd ia) = read_from_disk W file st)
        by (rewrite Hframe; reflexivity).
      rewrite Hread, Hvalid, PreserveUserSetData_eq. cbv zeta. rewrite Hunav. cbn [orb].
      unfold push_new_song, push_readded_song, modify_txn. cbn [snd txn].
      rewrite Hframe. cbn [add_effects with_polls txn]. destruct (txn st). reflexivity.
    + subst song.
      destruct (preserved_fields (image_for_stored_song W file ls st) m
                  (read_from_disk W file st)) as (Hid & _ & Hpc & Hsc & Hlp & Ham).
      auto.
Qed.

End Roundtrip.

Lemma deleted_then_readded_witness :
  let gone := stored_song 7 "/music/a/1.mp3" 1700 in
  let back := Song.set_unavailable true gone in
  let W1 := world_with_song gone false false in
  let W2 := world_with_song back true true in
  let st1 := ScanTransaction_ctor W1 example_env 1 false false false in
  let st2 := ScanTransaction_ctor W2 example_env 1 false false false in
  (forall n, stop_requested_ W1 n = false) /\ (forall n, stop_requested_ W2 n = false)
  /\ gone ∈ Txn.deleted_songs (txn (snd (reconcile_files W1 "/music/a" st1)))
  /\ listed_files W2 "/music/a" = [] ++ "/music/a/1.mp3" :: []
  /\ FindSongByPath (stored_songs W2 "/music/a" st2) "/music/a/1.mp3" = Some back
  /\ back ∈ Txn.readded_songs (txn (snd (reconcile_files W2 "/music/a" st2))).
Proof.
  intros gone back W1 W2 st1 st2.
  split; [intros n; reflexivity|]. split; [intros n; reflexivity|]. split.
  - refine (proj1 (deleted_then_readded W1 (fun n => eq_refl) "/music/a" st1) gone _ eq_refl _).
    + left.
    + intros Hin. inversion Hin.
  - split; [reflexivity|]. split; [reflexivity|].
    refine (proj1 (proj2 (deleted_then_readded W2 (fun n => eq_refl) "/music/a" st2))
              [] "/music/a/1.mp3" [] back eq_refl _ eq_refl eq_refl eq_refl).
    intros g Hg. inversion Hg.
Defined.

(** C3 as stated fails in a scan that ignores mtimes: the file that is back
    unchanged is read again, and its song is queued both as readded and as a
    new or updated song. *)
Lemma deleted_then_readded_counterexample :
  let back := Song.set_unavailable true (stored_song 7 "/music/a/1.mp3" 1700) in
  let W := world_with_song back true true in
  let st := ScanTransaction_ctor W example_env 1 false true false in
  let t' := txn (snd (reconcile_files W "/music/a" st)) in
  Txn.readded_songs t' = [back]
  /\ map Song.id (Txn.new_songs t') = [7]
  /\ map (Song.IsMetadataEqual back) (Txn.new_songs t') = [true].
Proof. vm_compute. repeat split. Qed.


(* --------------------------------------------------------------------- *)
(** ** The comparison of metadata *)

Section Metadata.

Lemma QUrl_eqb_sym (u v : QUrl) : QUrl_eqb u v = QUrl_eqb v u.
Proof. apply String.eqb_sym. Qed.

Lemma bool_eqb_sym (a b : bool) : Bool.eqb a b = Bool.eqb b a.
Proof. destruct a, b; reflexivity. Qed.

Lemma IsMetadataEqual_sym (a b : Song.t) : Song.IsMetadataEqual a b = Song.IsMetadataEqual b a.
Proof.
  unfold Song.IsMetadataEqual.
  repeat first [ apply String.eqb_sym | apply Z.eqb_sym | apply bool_eqb_sym
               | apply QUrl_eqb_sym | f_equal ].
Qed.

Lemma IsMetadataEqual_trans (a b c : Song.t) :
  Song.IsMetadataEqual a b = true -> Song.IsMetadataEqual b c = true ->
  Song.IsMetadataEqual a c = true.
Proof.
  unfold Song.IsMetadataEqual, QUrl_eqb. intros Hab Hbc.
  rewrite !andb_true_iff in *.
  rewrite ?String.eqb_eq, ?Z.eqb_eq, ?Bool.eqb_true_iff in *.
  repeat match goal with H : _ /\ _ |- _ => destruct H end.
  repeat split; congruence.
Qed.

(** X15.  Metadata equality of songs is an equivalence relation, and it
    does not look at the row id, the directory id, the source, the
    unavailable flag or the play statistics of a song: two songs that differ
    in these only are equal in metadata. *)
Theorem IsMetadataEqual_is_an_equivalence :
  (forall a, Song.IsMetadataEqual a a = true)
  /\ (forall a b, Song.IsMetadataEqual a b = Song.IsMetadataEqual b a)
  /\ (forall a b c, Song.IsMetadataEqual a b = true -> Song.IsMetadataEqual b c = true ->
                    Song.IsMetadataEqual a c = true)
  /\ (forall a b id dir source unavailable playcount skipcount lastplayed,
        Song.IsMetadataEqual a
          (Song.set_id id
             (Song.set_directory_id dir
                (Song.set_source source
                   (Song.set_unavailable unavailable
                      (Song.set_playcount playcount
                         (Song.set_skipcount skipcount
                            (Song.set_lastplayed lastplayed b)))))))
        = Song.IsMetadataEqual a b).
Proof.
  split; [exact IsMetadataEqual_refl|]. split; [exact IsMetadataEqual_sym|].
  split; [exact IsMetadataEqual_trans|]. intros. reflexivity.
Qed.

End Metadata.

Lemma IsMetadataEqual_is_an_equivalence_witness :
  let a := stored_song 7 "/music/a/1.mp3" 1700 in
  let b := stored_song 8 "/music/b/1.mp3" 1600 in
  let c := Song.set_unavailable true (stored_song 9 "/music/c/1.mp3" 1500) in
  Song.IsMetadataEqual a b = true /\ Song.IsMetadataEqual b c = true
  /\ Song.IsMetadataEqual a c = true.
Proof.
  intros a b c.
  assert (Hab : Song.IsMetadataEqual a b = true) by reflexivity.
  assert (Hbc : Song.IsMetadataEqual b c = true) by reflexivity.
  split; [exact Hab|]. split; [exact Hbc|].
  exact (proj1 (proj2 (proj2 IsMetadataEqual_is_an_equivalence)) a b c Hab Hbc).
Defined.

(* --------------------------------------------------------------------- *)
(** ** The record of a visited subdirectory *)

Section RecordOfAVisit.

Variable W : World.

Lemma same_subdir_batches_refl (st : St) : same_subdir_batches st st.
Proof. repeat split. Qed.

Lemma same_subdir_batches_trans (a b c : St) :
  same_subdir_batches a b -> same_subdir_batches b c -> same_subdir_batches a c.
Proof.
  unfold same_subdir_batches.
  intros (-> & -> & -> & -> & -> & ->) (-> & -> & -> & -> & -> & ->). repeat split.
Qed.

Lemma queues_songs_same_subdir_batches (st st' : St) :
  queues_songs st st' -> same_subdir_batches st st'.
Proof.
  intros (n & t & d & e & Ht & He). unfold same_subdir_batches. rewrite Ht, He.
  destruct (txn st). repeat split.
Qed.

Lemma frame_same_subdir_batches (es : list Effect) (k : nat) (st : St) :
  same_subdir_batches st (add_effects es (with_polls k st)).
Proof. repeat split. Qed.

Lemma ScanNewFile_keeps (file p : QString) (cues : gset string) (st : St) :
  same_subdir_batches st
    (snd (ScanNewFile W file p (NoExtensionPart W file +:+ ".cue") cues st)).
Proof.
  destruct (Z.eq_dec (GetMtimeForCue W (NoExtensionPart W file +:+ ".cue")) 0) as [Hz | Hnz].
  - rewrite (ScanNewFile_plain W file p _ cues st Hz). repeat split.
  - rewrite (ScanNewFile_cue_eq W file p cues st Hnz).
    destruct (bool_decide _); repeat split.
Qed.

Lemma scan_file_keeps (p : QString) (songs_in_db : SongList) (file : QString) (ls : FileLoop)
    (st : St) :
  same_subdir_batches st (snd (scan_file W p songs_in_db file ls st)).
Proof.
  destruct (stop_requested_ W (polls (env st))) eqn:Hstop.
  { unfold scan_file. rewrite bind_run. unfold read_stop_requested at 1 2.
    cbn [fst snd]. rewrite Hstop. repeat split. }
  destruct (FindSongByPath songs_in_db file) as [m|] eqn:Hfind.
  - destruct (exists_ W file) eqn:Hexists.
    + rewrite (scan_file_found W p songs_in_db file ls m st Hstop Hfind Hexists).
      cbv zeta. cbn [snd].
      destruct (ImageForSong_frame W file (loop_album_art ls)
                  (with_polls (S (polls (env st))) st)) as (loaded & k & Hframe).
      set (ia := ImageForSong W file (loop_album_art ls)
                   (with_polls (S (polls (env st))) st)) in *.
      apply (same_subdir_batches_trans _ (snd ia));
        [rewrite Hframe; repeat split|].
      match goal with |- context [when ?c ?m0 (snd ia)] =>
        assert (Hq : queues_songs (snd ia) (snd (when c m0 (snd ia))));
        [| set (st2 := snd (when c m0 (snd ia))) in * ] end.
      { match goal with |- context [when ?c _ _] => destruct c end; cbn [when];
          [|apply queues_songs_refl].
        match goal with |- context [if ?c then _ else _] => destruct c end.
        - apply UpdateCueAssociatedSongs_outcome.
        - apply UpdateNonCueAssociatedSong_outcome. }
      apply (same_subdir_batches_trans _ st2);
        [by apply queues_songs_same_subdir_batches|].
      destruct (Song.is_unavailable m); cbn [when]; [|apply same_subdir_batches_refl].
      unfold push_readded_song, modify_txn, same_subdir_batches. cbn [snd txn env].
      destruct (txn st2). repeat split.
    + unfold scan_file. rewrite bind_run. unfold read_stop_requested at 1 2.
      cbn [fst snd]. rewrite Hstop, Hfind, Hexists. repeat split.
  - unfold scan_file. rewrite bind_run. unfold read_stop_requested at 1 2.
    cbn [fst snd]. rewrite Hstop, Hfind. rewrite bind_run.
    match goal with |- context [ScanNewFile W file p ?c ?cs ?st0] =>
      pose proof (ScanNewFile_keeps file p cs st0) as Hnew;
      set (r := ScanNewFile W file p c cs st0) in * end.
    assert (H0 : same_subdir_batches st (snd r)).
    { eapply same_subdir_batches_trans; [|exact Hnew]. repeat split. }
    destruct (is_nil (fst (fst r))); [exact H0|].
    rewrite bind_run.
    match goal with |- context [ImageForSong W file ?aa ?st0] =>
      destruct (ImageForSong_frame W file aa st0) as (loaded & k & Hframe);
      set (ia := ImageForSong W file aa st0) in * end.
    rewrite bind_run, for_each_file_new_songs. unfold ret. cbn [fst snd].
    apply (same_subdir_batches_trans _ (snd r)); [exact H0|].
    apply (same_subdir_batches_trans _ (snd ia));
      [rewrite Hframe; repeat split|].
    unfold same_subdir_batches, with_txn. cbn [txn env]. destruct (txn (snd ia)).
    repeat split.
Qed.

Lemma scan_files_keeps (p : QString) (songs_in_db : SongList) (n : nat) :
  forall (i : nat) (ls : FileLoop) (st : St),
    same_subdir_batches st (snd (scan_files W n i p songs_in_db ls st)).
Proof.
  induction n as [|n IH]; intros i ls st; cbn [scan_files];
    [apply same_subdir_batches_refl|].
  destruct (slots (loop_files_on_disk ls) !! i) as [file|]; [|apply same_subdir_batches_refl].
  rewrite bind_run. pose proof (scan_file_keeps p songs_in_db file ls st) as Hfile.
  destruct (fst (scan_file W p songs_in_db file ls st)) as [ls'|]; [|exact Hfile].
  eapply same_subdir_batches_trans; [exact Hfile | apply IH].
Qed.

Lemma list_child_keeps (child : QString) (acc : Listing) (st : St) :
  same_subdir_batches st (snd (list_child W child acc st)).
Proof.
  unfold list_child. rewrite bind_run. unfold read_stop_requested at 1 2. cbn [fst snd].
  destruct (stop_requested_ W (polls (env st))); [repeat split|].
  destruct (isDir W child).
  - destruct (isHidden W child); cbn [negb]; [repeat split|].
    rewrite bind_run, HasSeenSubdir_eq, fetch_known_subdirs_eq. cbn [fst snd].
    match goal with |- context [if negb ?b then _ else _] => destruct b end; cbn [negb];
      unfold ret, same_subdir_batches, with_txn, add_effects; cbn [snd txn env watcher];
      destruct (txn st); repeat split.
  - destruct (list_contains sValidImages (ExtensionPart W child)); [repeat split|].
    destruct (isHidden W child); repeat split.
Qed.

Lemma list_children_keeps (children : QStringList) :
  forall (acc : Listing) (st : St),
    same_subdir_batches st (snd (list_children W children acc st)).
Proof.
  induction children as [|child children IH]; intros acc st; cbn [list_children];
    [apply same_subdir_batches_refl|].
  rewrite bind_run. pose proof (list_child_keeps child acc st) as Hchild.
  destruct (fst (list_child W child acc st)) as [acc'|]; [|exact Hchild].
  eapply same_subdir_batches_trans; [exact Hchild | apply IH].
Qed.

Lemma reconcile_files_keeps (p : QString) (st : St) :
  same_subdir_batches st (snd (reconcile_files W p st)).
Proof.
  unfold reconcile_files. rewrite bind_run. unfold emit at 1. cbn [fst snd].
  match goal with |- context [bind _ _ ?st0'] => set (st0 := st0') end.
  assert (H0 : same_subdir_batches st st0) by repeat split.
  rewrite bind_run.
  pose proof (list_children_keeps (QDirIterator W p)
                {| album_art := ∅; files_on_disk := []; my_new_subdirs := [] |} st0) as H1.
  set (r1 := list_children W (QDirIterator W p) _ st0) in *.
  assert (H01 : same_subdir_batches st (snd r1)) by (by eapply same_subdir_batches_trans).
  destruct (fst r1) as [l|]; [|exact H01].
  rewrite bind_run. unfold read_stop_requested at 1 2. cbn [fst snd].
  destruct (stop_requested_ W (polls (env (snd r1)))); [exact H01|].
  rewrite bind_run, FindSongsInSubdirectory_snd.
  match goal with |- context [with_txn ?t (add_effects ?es ?s)] =>
    set (st3 := with_txn t (add_effects es s)) end.
  assert (H3 : same_subdir_batches st st3).
  { eapply same_subdir_batches_trans; [exact H01|].
    subst st3. unfold same_subdir_batches, with_txn, add_effects. cbn [txn env watcher].
    destruct (txn (snd r1)). repeat split. }
  rewrite bind_run.
  match goal with |- context [scan_files W ?n ?i p ?db ?ls st3] =>
    pose proof (scan_files_keeps p db n i ls st3) as H4;
    set (r4 := scan_files W n i p db ls st3) in * end.
  assert (H04 : same_subdir_batches st (snd r4)) by (by eapply same_subdir_batches_trans).
  destruct (fst r4) as [ls|]; [|exact H04].
  rewrite bind_run. unfold look_for_deleted_songs. rewrite for_each_push_deleted.
  unfold ret. cbn [fst snd].
  eapply same_subdir_batches_trans; [exact H04|].
  unfold same_subdir_batches, with_txn. cbn [txn env]. destruct (txn (snd r4)). repeat split.
Qed.

Lemma record_subdir_eq (p : QString) (subdir : Subdirectory) (st : St) :
  let recorded := recorded_subdir W p st in
  record_subdir W p subdir st =
  (tt, with_txn
         (Txn.set_deleted_subdirs
            (Txn.deleted_subdirs (txn st) ++ (if mtime recorded =? 0 then [recorded] else []))
            (Txn.set_touched_subdirs
               (Txn.touched_subdirs (txn st)
                ++ (if directory_id subdir =? -1 then [] else [recorded]))
               (Txn.set_new_subdirs
                  (Txn.new_subdirs (txn st)
                   ++ (if directory_id subdir =? -1 then [recorded] else []))
                  (txn st))))
         st).
Proof.
  cbv zeta. unfold record_subdir, recorded_subdir.
  unfold bind at 1. unfold get_txn at 1. unfold bind at 1. cbn [mtime].
  destruct st as [e t]. destruct t. unfold with_txn. cbn [txn env].
  destruct (directory_id subdir =? -1);
    destruct ((if exists_ W p then toTime_t (lastModified W p) else 0) =? 0);
    unfold modify_txn, when, ret; cbn; rewrite ?app_nil_r; reflexivity.
Qed.

(** X16.  Outside live scanning, a visit of a subdirectory that runs to its
    end records the subdirectory exactly once, under the directory of the
    transaction and with its mtime on disk: among the new subdirectories when
    it came with directory id -1, among the touched ones otherwise.  A
    subdirectory that is no longer on disk is recorded with mtime 0, and
    every subdirectory recorded with mtime 0 is queued among the deleted
    subdirectories as well.  The visit then counts one progress unit.  A
    visit cut short by a stop request records nothing and counts nothing. *)
Theorem completed_visit_records_the_subdirectory (p : QString) (subdir : Subdirectory)
    (st : St) :
  live_scanning_ (watcher (env st)) = false ->
  let r := visit_subdirectory W p subdir st in
  let recorded := recorded_subdir W p st in
  match fst r with
  | Some _ =>
      Txn.new_subdirs (txn (snd r))
        = Txn.new_subdirs (txn st)
          ++ (if directory_id subdir =? -1 then [recorded] else [])
      /\ Txn.touched_subdirs (txn (snd r))
         = Txn.touched_subdirs (txn st)
           ++ (if directory_id subdir =? -1 then [] else [recorded])
      /\ Txn.deleted_subdirs (txn (snd r))
         = Txn.deleted_subdirs (txn st) ++ (if mtime recorded =? 0 then [recorded] else [])
      /\ Txn.progress_ (txn (snd r)) = wrap_int (Txn.progress_ (txn st) + 1)
  | None => same_subdir_batches st (snd r)
  end.
Proof.
  intros Hlive r recorded.
  assert (Hr : r = visit_subdirectory W p subdir st) by reflexivity. clearbody r.
  unfold visit_subdirectory in Hr. rewrite bind_run in Hr.
  pose proof (reconcile_files_keeps p st) as Hkeep.
  set (r0 := reconcile_files W p st) in *.
  destruct (fst r0) as [new_subdirs|].
  - destruct Hkeep as (Hn & Ht & Hd & Hdir & Hprog & Hw).
    rewrite bind_run, record_subdir_eq in Hr. cbv zeta in Hr. cbn [fst snd] in Hr.
    replace (recorded_subdir W p (snd r0)) with recorded in Hr
      by (unfold recorded, recorded_subdir; rewrite Hdir; reflexivity).
    rewrite bind_run, AddToProgress_eq in Hr. cbn [fst snd] in Hr.
    rewrite bind_run in Hr. unfold get_watcher at 1 2 in Hr. cbn [fst snd] in Hr.
    match type of Hr with context [when (live_scanning_ ?w)] =>
      replace (live_scanning_ w) with false in Hr
        by (symmetry; rewrite <- Hlive, <- Hw; reflexivity) end.
    cbn [when] in Hr. rewrite bind_run in Hr. unfold ret in Hr. subst r. cbn [fst snd].
    rewrite <- Hn, <- Ht, <- Hd, <- Hprog.
    unfold add_effects, with_txn. cbn [txn env]. destruct (txn (snd r0)). cbn.
    repeat split.
  - unfold ret in Hr. subst r. cbn [fst snd]. exact Hkeep.
Qed.

(** X17.  When the listing of a subdirectory finds nothing, because the
    directory is empty or gone, and no stop is requested, every stored song
    of the subdirectory that is marked available is queued as deleted, in
    the order of the stored list; no file is read and nothing is queued as
    new, touched or readded. *)
Theorem songs_of_an_empty_directory_are_deleted (p : QString) (st : St) :
  QDirIterator W p = [] ->
  stop_requested_ W (polls (env st)) = false ->
  let r := reconcile_files W p st in
  fst r = Some []
  /\ Txn.deleted_songs (txn (snd r))
     = Txn.deleted_songs (txn st)
       ++ filter (fun song => negb (Song.is_unavailable song)) (stored_songs W p st)
  /\ Txn.new_songs (txn (snd r)) = Txn.new_songs (txn st)
  /\ Txn.touched_songs (txn (snd r)) = Txn.touched_songs (txn st)
  /\ Txn.readded_songs (txn (snd r)) = Txn.readded_songs (txn st)
  /\ trace (env (snd r))
     = trace (env st)
       ++ DirListed p
          :: (if Txn.cached_songs_dirty_ (txn st)
              then [Queried_FindSongsInDirectory (Txn.dir_ (txn st))] else []).
Proof.
  intros Hempty Hstop r.
  assert (Hr : r = reconcile_files W p st) by reflexivity. clearbody r.
  unfold reconcile_files in Hr. rewrite Hempty in Hr. cbn [list_children] in Hr.
  unfold ret in Hr.
  rewrite bind_run in Hr. unfold emit at 1 in Hr. cbn [fst snd] in Hr.
  rewrite bind_run in Hr. cbn [fst snd] in Hr.
  rewrite bind_run in Hr. unfold read_stop_requested at 1 2 in Hr.
  cbn [fst snd env polls watcher trace txn] in Hr. rewrite Hstop in Hr.
  rewrite bind_run, FindSongsInSubdirectory_fst, FindSongsInSubdirectory_snd in Hr.
  cbn [files_on_disk length scan_files] in Hr. unfold ret in Hr.
  rewrite bind_run in Hr. cbn [fst snd] in Hr.
  rewrite bind_run in Hr. unfold look_for_deleted_songs in Hr.
  rewrite for_each_push_deleted in Hr. cbn [fst snd] in Hr.
  subst r. cbn [fst snd my_new_subdirs]. split; [reflexivity|].
  unfold with_txn, add_effects, stored_songs. cbn [txn env trace watcher polls].
  destruct (txn st). cbn. rewrite <- app_assoc. cbn [app].
  repeat split.
  f_equal. apply filter_bool_ext_in. intros song _. apply andb_true_r.
Qed.

End RecordOfAVisit.

Lemma completed_visit_records_the_subdirectory_witness :
  let W := world_with_song (stored_song 7 "/music/a/1.mp3" 1700) false false in
  let st := ScanTransaction_ctor W example_env 1 false false false in
  let subdir := {| directory_id := 1; path := "/music/gone"; mtime := 1600 |} in
  let r := visit_subdirectory W "/music/gone" subdir st in
  let recorded := {| directory_id := 1; path := "/music/gone"; mtime := 0 |} in
  live_scanning_ (watcher (env st)) = false
  /\ Txn.touched_subdirs (txn (snd r)) = [recorded]
  /\ Txn.deleted_subdirs (txn (snd r)) = [recorded].
Proof.
  intros W st subdir r recorded.
  assert (Hlive : live_scanning_ (watcher (env st)) = false) by reflexivity.
  split; [exact Hlive|].
  pose proof (completed_visit_records_the_subdirectory W "/music/gone" subdir st Hlive)
    as Hvisit.
  cbv zeta in Hvisit.
  change (fst (visit_subdirectory W "/music/gone" subdir st)) with (Some (@nil Subdirectory))
    in Hvisit.
  destruct Hvisit as (_ & Htouched & Hdeleted & _).
  split; [exact Htouched | exact Hdeleted].
Defined.

Lemma songs_of_an_empty_directory_are_deleted_witness :
  let stored := stored_song 7 "/music/a/1.mp3" 1700 in
  let W := world_with_song stored false false in
  let st := ScanTransaction_ctor W example_env 1 false false false in
  QDirIterator W "/music/a" = []
  /\ stop_requested_ W (polls (env st)) = false
  /\ Txn.deleted_songs (txn (snd (reconcile_files W "/music/a" st))) = [stored].
Proof.
  intros stored W st.
  split; [reflexivity|]. split; [reflexivity|].
  exact (proj1 (proj2 (songs_of_an_empty_directory_are_deleted W "/music/a" st
                         eq_refl eq_refl))).
Defined.

(* --------------------------------------------------------------------- *)
(** ** The live monitor *)

Section Monitor.








Lemma lookup_fold_delete (paths : list QString) :
  forall (mapping : gmap string Directory) (p : QString),
    fold_left (fun mapping q => delete q mapping) paths mapping !! p
    = if bool_decide (p ∈ paths) then None else mapping !! p.
Proof.
  induction paths as [|q paths IH]; intros mapping p; cbn [fold_left].
  - rewrite bool_decide_eq_false_2 by apply not_elem_of_nil. reflexivity.
  - rewrite IH. destruct (decide (p = q)) as [-> | Hne].
    + rewrite lookup_delete_eq.
      rewrite (bool_decide_eq_true_2 (q ∈ q :: paths)) by left.
      destruct (bool_decide (q ∈ paths)); reflexivity.
    + rewrite lookup_delete_ne by done.
      destruct (bool_decide (p ∈ paths)) eqn:Hin.
      * apply bool_decide_eq_true in Hin.
        rewrite bool_decide_eq_true_2 by (by right). reflexivity.
      * apply bool_decide_eq_false in Hin.
        rewrite bool_decide_eq_false_2; [reflexivity|].
        intros Hc. apply elem_of_cons in Hc as [Hc | Hc]; contradiction.
Qed.

Lemma elem_of_keys_of (dir : Directory) (mapping : gmap string Directory) (p : QString) :
  p ∈ keys_of dir mapping
  <-> exists d, mapping !! p = Some d /\ Directory_eqb d dir = true.
Proof.
  unfold keys_of. rewrite list_elem_of_fmap. split.
  - intros ([q d] & -> & Hin). apply list_elem_of_filter in Hin as [Heq Hin].
    apply elem_of_map_to_list in Hin. exists d. split; [exact Hin|].
    cbn [snd] in Heq. by apply Is_true_true.
  - intros (d & Hlookup & Heq). exists (p, d). split; [reflexivity|].
    apply list_elem_of_filter. split; [cbn [snd]; by apply Is_true_true|].
    by apply elem_of_map_to_list.
Qed.

(** X19.  After a directory is removed it is no longer watched and has no
    rescan queue; every path that was mapped to it has lost its watch and
    its mapping, each exactly once, and the mappings of the paths of the
    other directories, like their queues, are what they were. *)
Theorem removed_directory_loses_its_watches (dir : Directory) (e : Env) (m : LiveMonitor) :
  let r := RemoveDirectory dir (e, m) in
  let mapping := subdir_mapping_ (watcher e) in
  watched_dirs_ (watcher (fst r)) !! dir_id dir = None
  /\ rescan_queue_ (snd r) !! dir_id dir = None
  /\ (forall id, id <> dir_id dir ->
        watched_dirs_ (watcher (fst r)) !! id = watched_dirs_ (watcher e) !! id
        /\ rescan_queue_ (snd r) !! id = rescan_queue_ m !! id)
  /\ (forall p, subdir_mapping_ (watcher (fst r)) !! p
                = match mapping !! p with
                  | Some d => if Directory_eqb d dir then None else Some d
                  | None => None
                  end)
  /\ (exists paths,
        trace (fst r) = trace e ++ map RemovePath paths
        /\ NoDup paths
        /\ forall p, p ∈ paths
                     <-> exists d, mapping !! p = Some d /\ Directory_eqb d dir = true).
Proof.
  cbv zeta. unfold RemoveDirectory.
  cbn [fst snd watcher trace rescan_queue_ watched_dirs_ subdir_mapping_ set_subdir_mapping
       set_watched_dirs].
  split; [apply lookup_delete_eq|]. split; [apply lookup_delete_eq|].
  split; [intros id Hne; split; by rewrite lookup_delete_ne|].
  split.
  - intros p. rewrite lookup_fold_delete.
    destruct (bool_decide (p ∈ keys_of dir (subdir_mapping_ (watcher e)))) eqn:Hin.
    + apply bool_decide_eq_true, elem_of_keys_of in Hin as (d & -> & ->). reflexivity.
    + apply bool_decide_eq_false in Hin.
      destruct (subdir_mapping_ (watcher e) !! p) as [d|] eqn:Hp; [|reflexivity].
      destruct (Directory_eqb d dir) eqn:Heq; [|reflexivity].
      exfalso. apply Hin, elem_of_keys_of. by exists d.
  - exists (keys_of dir (subdir_mapping_ (watcher e))).
    split; [reflexivity|]. split; [|apply elem_of_keys_of].
    unfold keys_of. apply NoDup_fmap_fst.
    + intros p d1 d2 H1 H2.
      apply list_elem_of_filter in H1 as [_ H1]. apply list_elem_of_filter in H2 as [_ H2].
      apply elem_of_map_to_list in H1, H2. congruence.
    + apply NoDup_filter, NoDup_map_to_list.
Qed.

End Monitor.


Lemma removed_directory_loses_its_watches_witness :
  let dir := {| dir_id := 1; dir_path := "/music" |} in
  let other := {| dir_id := 2; dir_path := "/other" |} in
  let e := {| watcher := set_subdir_mapping {[ "/music/a" := dir; "/other/b" := other ]}
                           (set_watched_dirs {[ 1 := dir; 2 := other ]} example_watcher);
              trace := []; polls := 0 |} in
  let m := {| rescan_queue_ := {[ 1 := ["/music/a"]; 2 := ["/other/b"] ]};
              rescan_paused_ := false; rescan_timer_started := true |} in
  let r := RemoveDirectory dir (e, m) in
  2 <> dir_id dir
  /\ watched_dirs_ (watcher (fst r)) !! 2 = watched_dirs_ (watcher e) !! 2
  /\ rescan_queue_ (snd r) !! 2 = rescan_queue_ m !! 2.
Proof.
  intros dir other e m r.
  assert (Hne : 2 <> dir_id dir) by discriminate.
  split; [exact Hne|].
  destruct (removed_directory_loses_its_watches dir e m) as (_ & _ & Hothers & _).
  exact (Hothers 2 Hne).
Defined.

(* --------------------------------------------------------------------- *)
(** ** The entry points of the watcher *)

Section EntryPointsOfTheWatcher.

Variable W : World.

(** X20.  [RescanPathsNow] scans nothing when the rescan queue is empty or
    a stop is requested at its first read of the flag; it drops the whole
    queue all the same, so that the rescans queued before a stop request are
    lost, and still announces that the compilations need updating.  Pausing
    the rescans never scans, and neither does resuming them with an empty
    queue. *)
Theorem stopped_rescan_drops_the_queue (fuel : nat) (e : Env) (m : LiveMonitor) :
  (rescan_queue_ m = ∅ \/ stop_requested_ W (polls e) = true ->
   exists k,
     RescanPathsNow W fuel (e, m)
     = Some ({| watcher := watcher e; trace := trace e ++ [CompilationsNeedUpdating];
                polls := k |},
             {| rescan_queue_ := ∅; rescan_paused_ := rescan_paused_ m;
                rescan_timer_started := rescan_timer_started m |}))
  /\ SetRescanPaused W fuel true (e, m)
     = Some (e, {| rescan_queue_ := rescan_queue_ m; rescan_paused_ := true;
                   rescan_timer_started := rescan_timer_started m |})
  /\ (rescan_queue_ m = ∅ ->
      SetRescanPaused W fuel false (e, m)
      = Some (e, {| rescan_queue_ := ∅; rescan_paused_ := false;
                    rescan_timer_started := rescan_timer_started m |})).
Proof.
  split; [|split].
  - intros Hwhy. unfold RescanPathsNow.
    destruct (merge_sort Z.le (map fst (map_to_list (rescan_queue_ m)))) as [|dir dirs] eqn:Hdirs.
    + exists (polls e). reflexivity.
    + destruct Hwhy as [Hempty | Hstop].
      * rewrite Hempty, map_to_list_empty in Hdirs. discriminate Hdirs.
      * cbn [rescan_directories]. unfold read_stop_requested_env. rewrite Hstop.
        exists (S (polls e)). reflexivity.
  - reflexivity.
  - intros Hempty. unfold SetRescanPaused. cbn [rescan_queue_ negb andb].
    rewrite bool_decide_eq_true_2 by exact Hempty. cbn [negb]. rewrite Hempty. reflexivity.
Qed.

Lemma wrap_int_idem (z : Z) : wrap_int (0 + wrap_int z) = wrap_int z.
Proof.
  unfold wrap_int.
  replace (0 + ((z + 2 ^ 31) mod 2 ^ 32 - 2 ^ 31) + 2 ^ 31) with ((z + 2 ^ 31) mod 2 ^ 32)
    by lia.
  rewrite Z.mod_mod by lia. reflexivity.
Qed.

Lemma AddWatch_eq (dir : Directory) (p : QString) (st : St) :
  AddWatch W dir p st
  = (tt, if exists_ W p
         then with_subdir_mapping (<[p := dir]> (subdir_mapping_ (watcher (env st))))
                (add_effects [AddPath p] st)
         else st).
Proof. unfold AddWatch. destruct (exists_ W p); reflexivity. Qed.

(** The loop of [AddDirectory] over the known subdirectories when nothing
    is scanned on startup. *)
Lemma watch_known_subdirs (fuel : nat) (dir : Directory) (subdirs : SubdirectoryList) :
  (forall n, stop_requested_ W n = false) ->
  forall st : St,
    scan_on_startup_ (watcher (env st)) = false ->
    monitor_ (watcher (env st)) = true ->
    for_each_until_stop W subdirs
      (fun subdir st =>
         match (if scan_on_startup_ (watcher (env st))
                then ScanSubdirectory W fuel (path subdir) subdir false st
                else Some st) with
         | Some st =>
             Some (if monitor_ (watcher (env st))
                   then snd (AddWatch W dir (path subdir) st) else st)
         | None => None
         end)
      st
    = Some (with_polls (polls (env st) + length subdirs)
              (with_subdir_mapping
                 (mapping_after_add (Some dir) (subdir_mapping_ (watcher (env st)))
                    (added_paths W (Some dir) subdirs))
                 (add_effects (map AddPath (added_paths W (Some dir) subdirs)) st))).
Proof.
  intros never_stopped.
  induction subdirs as [|subdir subdirs IH]; intros st Hscan Hmonitor;
    cbn [for_each_until_stop].
  - unfold added_paths, mapping_after_add, with_polls, with_subdir_mapping, add_effects.
    cbn [map fold_left length env txn watcher trace polls]. rewrite filter_nil.
    cbn [map fold_left]. rewrite app_nil_r, set_subdir_mapping_id, Nat.add_0_r.
    destruct st as [[w tr po] t]. reflexivity.
  - unfold read_stop_requested at 1. rewrite never_stopped.
    cbn [env watcher]. rewrite Hscan. cbv beta iota. cbn [env watcher]. rewrite Hmonitor.
    rewrite AddWatch_eq. cbn [snd env watcher]. unfold added_paths. cbn [map].
    destruct (exists_ W (path subdir)) eqn:Hexists.
    + rewrite filter_cons_True by exact Hexists.
      rewrite IH; [|exact Hscan | exact Hmonitor].
      unfold added_paths, mapping_after_add, with_polls, with_subdir_mapping, add_effects.
      cbn [map fold_left length env txn watcher trace polls subdir_mapping_
           set_subdir_mapping].
      rewrite <- app_assoc, Nat.add_succ_r. reflexivity.
    + rewrite filter_cons_False by (rewrite Hexists; discriminate).
      rewrite IH; [|exact Hscan | exact Hmonitor].
      unfold added_paths, mapping_after_add, with_polls, with_subdir_mapping, add_effects.
      cbn [map fold_left length env txn watcher trace polls]. rewrite Nat.add_succ_r.
      reflexivity.
Qed.

(** The end of a transaction that has nothing queued. *)
Lemma dtor_of_idle_transaction (st : St) :
  stop_requested_ W (polls (env st)) = false ->
  Txn.new_songs (txn st) = [] -> Txn.touched_songs (txn st) = [] ->
  Txn.deleted_songs (txn st) = [] -> Txn.readded_songs (txn st) = [] ->
  Txn.new_subdirs (txn st) = [] -> Txn.touched_subdirs (txn st) = [] ->
  Txn.deleted_subdirs (txn st) = [] ->
  ScanTransaction_dtor W st
  = {| watcher := watcher (env st);
       trace := trace (env st) ++ [SetTaskFinished (Txn.task_id_ (txn st))];
       polls := S (polls (env st)) |}.
Proof.
  intros Hstop Hns Hts Hds Hrs Hnd Htd Hdd.
  rewrite dtor_not_stopped by exact Hstop. rewrite CommitNewOrUpdatedSongs_eq. cbv zeta.
  unfold commit_signals. cbn [with_polls txn env watcher trace polls].
  rewrite Hns, Hts, Hds, Hrs, Hnd, Htd, Hdd.
  unfold batch, added_paths. cbn [is_nil map removed_paths mapping_after_remove].
  destruct (watched_dirs_ (watcher (env st)) !! Txn.dir_ (txn st));
    destruct (Txn.prevent_delete_ (txn st)); destruct (monitor_ (watcher (env st)));
    rewrite ?filter_nil; cbn; rewrite set_subdir_mapping_id, ?app_nil_r; reflexivity.
Qed.

(** X21.  When nothing is scanned on startup, adding a directory whose
    subdirectories are known lists no directory and reads no file, however
    little fuel the walk has: the directory is registered, a task is opened
    with one progress unit per subdirectory, every known subdirectory that
    exists on disk gets a watch mapped to the directory, in the order of the
    list, the task is finished without any commit signal, and the update of
    the compilations is requested. *)
Theorem startup_without_scan_only_adds_watches (fuel : nat) (dir : Directory)
    (subdirs : SubdirectoryList) (e : Env) :
  subdirs <> [] ->
  scan_on_startup_ (watcher e) = false ->
  monitor_ (watcher e) = true ->
  (forall n, stop_requested_ W n = false) ->
  let task_id := StartTask W (description_of (watcher e)) in
  let added := added_paths W (Some dir) subdirs in
  AddDirectory W fuel dir subdirs e
  = Some {| watcher :=
              set_subdir_mapping
                (mapping_after_add (Some dir) (subdir_mapping_ (watcher e)) added)
                (set_watched_dirs (<[dir_id dir := dir]> (watched_dirs_ (watcher e)))
                   (watcher e));
            trace := trace e
                     ++ [StartTask_called (description_of (watcher e)); ScanStarted task_id;
                         SetTaskProgress task_id 0 (wrap_int (Z.of_nat (length subdirs)))]
                     ++ map AddPath added
                     ++ [SetTaskFinished task_id; CompilationsNeedUpdating];
            polls := S (polls e + length subdirs) |}.
Proof.
  intros Hne Hscan Hmonitor never_stopped task_id added.
  unfold AddDirectory. destruct subdirs as [|subdir subdirs]; [contradiction|].
  cbn [is_nil].
  set (e0 := {| watcher := set_watched_dirs (<[dir_id dir := dir]> (watched_dirs_ (watcher e)))
                             (watcher e);
                trace := trace e; polls := polls e |}).
  set (st0 := snd (AddToProgressMax (wrap_int (Z.of_nat (length (subdir :: subdirs))))
                     (snd (SetKnownSubdirs (subdir :: subdirs)
                             (ScanTransaction_ctor W e0 (dir_id dir) true false
                                (watcher_prevent_delete_ (watcher e0))))))).
  assert (Henv : env st0
                 = {| watcher := watcher e0;
                      trace := trace e
                               ++ [StartTask_called (description_of (watcher e));
                                   ScanStarted task_id;
                                   SetTaskProgress task_id 0
                                     (wrap_int (Z.of_nat (length (subdir :: subdirs))))];
                      polls := polls e |}).
  { subst st0. unfold AddToProgressMax, SetKnownSubdirs, ScanTransaction_ctor.
    unfold bind, modify_txn, get_txn, emit.
    cbn [snd fst env txn watcher trace polls Txn.progress_max_ Txn.progress_ Txn.task_id_
         Txn.set_progress_max Txn.set_known_subdirs Txn.set_known_subdirs_dirty].
    rewrite wrap_int_idem, <- app_assoc. reflexivity. }
  assert (Htxn : Txn.new_songs (txn st0) = [] /\ Txn.touched_songs (txn st0) = []
                 /\ Txn.deleted_songs (txn st0) = [] /\ Txn.readded_songs (txn st0) = []
                 /\ Txn.new_subdirs (txn st0) = [] /\ Txn.touched_subdirs (txn st0) = []
                 /\ Txn.deleted_subdirs (txn st0) = []
                 /\ Txn.task_id_ (txn st0) = task_id).
  { subst st0. repeat split. }
  clearbody st0.
  rewrite (watch_known_subdirs fuel dir (subdir :: subdirs) never_stopped st0)
    by (rewrite Henv; cbn [watcher]; subst e0; cbn; assumption).
  destruct Htxn as (Hns & Hts & Hds & Hrs & Hnd & Htd & Hdd & Htask).
  rewrite dtor_of_idle_transaction
    by (first [apply never_stopped | assumption]).
  unfold emit_env, with_polls, with_subdir_mapping, add_effects.
  cbn [env txn watcher trace polls]. rewrite Henv, Htask. subst e0.
  cbn [watcher trace polls subdir_mapping_ set_watched_dirs].
  rewrite <- !app_assoc. reflexivity.
Qed.

End EntryPointsOfTheWatcher.

Lemma stopped_rescan_drops_the_queue_witness :
  let W := with_stop_requested (fun _ => true) empty_world in
  let m := {| rescan_queue_ := {[ 1 := ["/music/a"] ]}; rescan_paused_ := false;
              rescan_timer_started := true |} in
  stop_requested_ W (polls example_env) = true
  /\ exists k,
       RescanPathsNow W 0 (example_env, m)
       = Some ({| watcher := watcher example_env;
                  trace := trace example_env ++ [CompilationsNeedUpdating]; polls := k |},
               {| rescan_queue_ := ∅; rescan_paused_ := rescan_paused_ m;
                  rescan_timer_started := rescan_timer_started m |}).
Proof.
  intros W m.
  assert (Hstop : stop_requested_ W (polls example_env) = true) by reflexivity.
  split; [exact Hstop|].
  exact (proj1 (stopped_rescan_drops_the_queue W 0 example_env m) (or_intror Hstop)).
Defined.

Lemma startup_without_scan_only_adds_watches_witness :
  let W := world_with_song (stored_song 7 "/music/a/1.mp3" 1700) true true in
  let dir := {| dir_id := 1; dir_path := "/music" |} in
  let subdirs := [ {| directory_id := 1; path := "/music/a"; mtime := 1700 |};
                   {| directory_id := 1; path := "/music/gone"; mtime := 1600 |} ] in
  let e := {| watcher := {| source_ := Song.Source_Collection; device_name_ := EmptyString;
                            watched_dirs_ := ∅; subdir_mapping_ := ∅;
                            scan_on_startup_ := false; monitor_ := true;
                            live_scanning_ := false; watcher_prevent_delete_ := false;
                            best_image_filters_ := [] |};
              trace := []; polls := 0 |} in
  subdirs <> []
  /\ scan_on_startup_ (watcher e) = false
  /\ monitor_ (watcher e) = true
  /\ (forall n, stop_requested_ W n = false)
  /\ exists e', AddDirectory W 0 dir subdirs e = Some e'.
Proof.
  intros W dir subdirs e.
  assert (Hne : subdirs <> []) by discriminate.
  assert (Hnever : forall n, stop_requested_ W n = false) by reflexivity.
  split; [exact Hne|]. split; [reflexivity|]. split; [reflexivity|]. split; [exact Hnever|].
  eexists.
  exact (startup_without_scan_only_adds_watches W 0 dir subdirs e Hne eq_refl eq_refl Hnever).
Defined.

(* --------------------------------------------------------------------- *)
(** ** The listing of a directory *)

Section Listing.

Variable W : World.

Hypothesis never_stopped : forall n, stop_requested_ W n = false.

Lemma filter_cons_bool {A} (f : A -> bool) (a : A) (l : list A) :
  filter (fun x => f x) (a :: l)
  = if f a then a :: filter (fun x => f x) l else filter (fun x => f x) l.
Proof.
  destruct (f a) eqn:Hf.
  - rewrite filter_cons_True by (rewrite Hf; exact I). reflexivity.
  - rewrite filter_cons_False by (rewrite Hf; exact id). reflexivity.
Qed.

Lemma known_subdirs_after_fetch (st : St) :
  known_subdirs_of W (snd (fetch_known_subdirs W st)) = known_subdirs_of W st.
Proof.
  rewrite fetch_known_subdirs_eq. unfold known_subdirs_of, with_txn, add_effects.
  cbn [snd txn]. destruct (txn st). reflexivity.
Qed.

Lemma list_child_sorts (child : QString) (acc : Listing) (st : St) :
  exists l st',
    list_child W child acc st = (Some l, st')
    /\ known_subdirs_of W st' = known_subdirs_of W st
    /\ files_on_disk l
       = files_on_disk acc
         ++ (if negb (isDir W child)
                && negb (list_contains sValidImages (ExtensionPart W child))
                && negb (isHidden W child)
             then [child] else [])
    /\ my_new_subdirs l
       = my_new_subdirs acc
         ++ (if isDir W child && negb (isHidden W child) && negb (seen_before W st child)
             then [unseen_subdir W child] else [])
    /\ forall d,
         default [] (album_art l !! d)
         = default [] (album_art acc !! d)
           ++ (if negb (isDir W child)
                  && list_contains sValidImages (ExtensionPart W child)
                  && String.eqb (DirectoryPart W child) d
               then [child] else []).
Proof.
  unfold list_child. rewrite bind_run. unfold read_stop_requested at 1 2.
  rewrite never_stopped. cbn [fst snd].
  destruct (isDir W child); cbn [negb andb].
  - destruct (isHidden W child); cbn [negb].
    + eexists _, _. split; [reflexivity|]. rewrite !app_nil_r.
      repeat split. intros d. by rewrite app_nil_r.
    + rewrite bind_run, HasSeenSubdir_eq. cbn [fst snd].
      pose proof (known_subdirs_after_fetch
                    {| env := {| watcher := watcher (env st); trace := trace (env st);
                                 polls := S (polls (env st)) |};
                       txn := txn st |}) as Hknown.
      unfold seen_before.
      replace (known_subdirs_of W st)
        with (known_subdirs_of W
                {| env := {| watcher := watcher (env st); trace := trace (env st);
                             polls := S (polls (env st)) |};
                   txn := txn st |}) by reflexivity.
      match goal with |- context [if negb ?b then _ else _] => destruct b end; cbn [negb].
      * eexists _, _. split; [reflexivity|]. rewrite !app_nil_r.
        split; [exact Hknown|]. repeat split. intros d. by rewrite app_nil_r.
      * eexists _, _. split; [reflexivity|]. cbn [files_on_disk my_new_subdirs album_art].
        rewrite !app_nil_r. split; [exact Hknown|]. repeat split.
        intros d. by rewrite app_nil_r.
  - destruct (list_contains sValidImages (ExtensionPart W child)); cbn [negb andb].
    + eexists _, _. split; [reflexivity|]. cbn [files_on_disk my_new_subdirs album_art].
      rewrite !app_nil_r. repeat split. intros d.
      destruct (String.eqb (DirectoryPart W child) d) eqn:Hd.
      * apply String.eqb_eq in Hd. subst d. rewrite lookup_insert_eq. reflexivity.
      * apply String.eqb_neq in Hd. rewrite lookup_insert_ne by done.
        by rewrite app_nil_r.
    + destruct (isHidden W child); cbn [negb].
      * eexists _, _. split; [reflexivity|]. rewrite !app_nil_r.
        repeat split. intros d. by rewrite app_nil_r.
      * eexists _, _. split; [reflexivity|]. cbn [files_on_disk my_new_subdirs album_art].
        rewrite !app_nil_r. repeat split. intros d. by rewrite app_nil_r.
Qed.

Lemma list_children_sorts (children : QStringList) :
  forall (acc : Listing) (st : St),
    exists l st',
      list_children W children acc st = (Some l, st')
      /\ known_subdirs_of W st' = known_subdirs_of W st
      /\ files_on_disk l
         = files_on_disk acc
           ++ filter (fun child => negb (isDir W child)
                                   && negb (list_contains sValidImages (ExtensionPart W child))
                                   && negb (isHidden W child))
                     children
      /\ my_new_subdirs l
         = my_new_subdirs acc
           ++ map (unseen_subdir W)
                  (filter (fun child => isDir W child && negb (isHidden W child)
                                        && negb (seen_before W st child))
                          children)
      /\ forall d,
           default [] (album_art l !! d)
           = default [] (album_art acc !! d) ++ image_files_in W d children.
Proof.
  induction children as [|child children IH]; intros acc st; cbn [list_children].
  - exists acc, st. unfold image_files_in. rewrite !filter_nil.
    cbn [map]. rewrite !app_nil_r. repeat split. intros d. by rewrite app_nil_r.
  - destruct (list_child_sorts child acc st) as (l1 & st1 & Heq1 & Hk1 & Hf1 & Hs1 & Ha1).
    unfold bind. rewrite Heq1.
    destruct (IH l1 st1) as (l & st' & Heq & Hk & Hf & Hs & Ha).
    exists l, st'. split; [exact Heq|]. split; [congruence|].
    unfold image_files_in in *.
    unfold seen_before in *. rewrite Hk1 in Hs.
    split; [|split].
    + rewrite Hf, Hf1, filter_cons_bool, <- app_assoc.
      destruct (negb (isDir W child) && _ && _); reflexivity.
    + rewrite Hs, Hs1, filter_cons_bool, <- app_assoc.
      destruct (isDir W child && _ && _); reflexivity.
    + intros d. rewrite Ha, Ha1, filter_cons_bool, <- app_assoc. cbv beta.
      match goal with |- context [if ?c then [child] else []] => destruct c end;
        reflexivity.
Qed.

(** X22.  When nobody asks to stop, the listing of a directory sorts its
    children, each list in the order of the listing.  The files to scan are
    the children that are no directory, have no image extension and are not
    hidden.  The new subdirectories are the directories that are not hidden
    and that the transaction has not seen before; each is entered with
    directory id -1 and its mtime on disk.  The album art of a directory is
    every child that is no directory and has an image extension, hidden or
    not, filed under the directory part of its path. *)
Theorem listing_sorts_the_children (p : QString) (st : St) :
  exists l st',
    list_children W (QDirIterator W p)
      {| album_art := ∅; files_on_disk := []; my_new_subdirs := [] |} st = (Some l, st')
    /\ files_on_disk l = listed_files W p
    /\ my_new_subdirs l
       = map (unseen_subdir W)
             (filter (fun child => isDir W child && negb (isHidden W child)
                                   && negb (seen_before W st child))
                     (QDirIterator W p))
    /\ forall d, default [] (album_art l !! d) = image_files_in W d (QDirIterator W p).
Proof.
  destruct (list_children_sorts (QDirIterator W p)
              {| album_art := ∅; files_on_disk := []; my_new_subdirs := [] |} st)
    as (l & st' & Heq & _ & Hf & Hs & Ha).
  exists l, st'. split; [exact Heq|]. split; [exact Hf|]. split; [exact Hs|].
  intros d. rewrite Ha. cbn [album_art]. rewrite lookup_empty. reflexivity.
Qed.

End Listing.

Lemma listing_sorts_the_children_witness :
  let W := world_with_hidden_children in
  let st := ScanTransaction_ctor W example_env 1 false false false in
  (forall n, stop_requested_ W n = false)
  /\ exists l st',
       list_children W (QDirIterator W "/music/a")
         {| album_art := ∅; files_on_disk := []; my_new_subdirs := [] |} st = (Some l, st')
       /\ files_on_disk l = ["/music/a/1.mp3"]
       /\ my_new_subdirs l = [unseen_subdir W "/music/a/sub"]
       /\ default [] (album_art l !! "/music/a")
          = ["/music/a/cover.jpg"; "/music/a/.thumb.jpg"].
Proof.
  intros W st.
  assert (Hnever : forall n, stop_requested_ W n = false) by reflexivity.
  split; [exact Hnever|].
  destruct (listing_sorts_the_children W Hnever "/music/a" st)
    as (l & st' & Heq & Hf & Hs & Ha).
  exists l, st'. split; [exact Heq|]. split; [exact Hf|]. split; [exact Hs|].
  exact (Ha "/music/a").
Defined.
